(** * PERPLEXR: prioritized replay buffer and categorical projection

    A shallow embedding of [level_replay/algo/buffer.py] (classes
    [AbstractBuffer], [Buffer], [SumTree]), of the categorical
    projection inside [Rainbow.train], the target-network updates, the
    seed counts and the priorities of [level_replay/algo/policy.py], and
    of the helper functions of [train_ere.py].

    Conventions of the embedding.
    - Python integers are [Z]; [//] and [%] with a positive divisor are
      [Z.div] and [Z.modulo].
    - float64 numbers (priorities, beta, weights, probabilities) are
      idealised as real numbers [R] in [SumTree], [Buffer], [Rainbow],
      [DDQN] and [Train]: a statement about these is a statement in
      exact arithmetic.
    - [Tree] is the class [SumTree] once more, over the arithmetic of
      its nodes: at [float64], IEEE 754 binary64 as the primitive
      floats compute it, it is the tree as the program runs it; at
      [real] it is [SumTree].  A statement about [Tree] in any
      arithmetic holds of the program as it computes.
    - A NumPy array of shape [(n, ...)] is the list of its [n] rows; a
      row is a flattened [list R].  Batches handed to [Buffer.add] are
      taken to have rows of the shape the storage array expects.
    - A raised Python exception is [Raise e]; the object state after an
      exception is not tracked.
    - What the code draws at random or gets from a network (uniform
      draws, shuffles, the weights after an optimizer step) is an
      argument of the function that uses it. *)

From Stdlib Require Import PrimFloat.
From Stdlib Require Import ZArith List Reals Lra Lia.
From stdpp Require Import base list.

#[local] Set Warnings "-inexact-float".

(** ** Exceptions *)

Inductive exn : Type :=
| IndexError
| ValueError
| ZeroDivisionError
| OverflowError.

Inductive result (A : Type) : Type :=
| Ok (a : A)
| Raise (e : exn).

Arguments Ok {A} a.
Arguments Raise {A} e.

#[global] Instance result_ret : MRet result := fun A a => Ok a.

#[global] Instance result_bind : MBind result :=
  fun A B k r => match r with Ok a => k a | Raise e => Raise e end.

(** ** NumPy indexing *)

Module Np.

(** [a[i]] for an integer [i]: negative indices count from the end, and
    anything outside [[-len, len)] raises [IndexError]. *)
Definition index (len : nat) (i : Z) : result nat :=
  if (0 <=? i)%Z && (i <? Z.of_nat len)%Z then Ok (Z.to_nat i)
  else if (i <? 0)%Z && (- Z.of_nat len <=? i)%Z
       then Ok (Z.to_nat (i + Z.of_nat len))
       else Raise IndexError.

Definition get {A} (a : list A) (i : Z) : result A :=
  k ← index (length a) i;
  match a !! k with
  | Some x => Ok x
  | None => Raise IndexError
  end.

(** [a[ind]] for an integer array [ind] (fancy indexing). *)
Fixpoint take_at {A} (a : list A) (ind : list Z) : result (list A) :=
  match ind with
  | [] => Ok []
  | i :: ind' => x ← get a i; xs ← take_at a ind'; Ok (x :: xs)
  end.

(** [np.add.at(a, i, d)] for a scalar index and a scalar increment. *)
Definition add_at (a : list R) (i : Z) (d : R) : result (list R) :=
  k ← index (length a) i;
  Ok (alter (fun x => (x + d)%R) k a).

(** [np.add.at(a, ind, ds)] for index and increment arrays of the same
    length: unbuffered, so a repeated index accumulates. *)
Fixpoint add_at_many (a : list R) (ind : list Z) (ds : list R)
  : result (list R) :=
  match ind, ds with
  | [], [] => Ok a
  | i :: ind', d :: ds' => a' ← add_at a i d; add_at_many a' ind' ds'
  | _, _ => Raise ValueError
  end.

(** [np.unique(xs, return_index=True)]: the sorted distinct values, each
    with the position of its first occurrence. *)
Fixpoint insert_first (v : Z) (pos : nat) (u : list (Z * nat))
  : list (Z * nat) :=
  match u with
  | [] => [(v, pos)]
  | (w, q) :: u' =>
      if (v <? w)%Z then (v, pos) :: u
      else if (v =? w)%Z then u
      else (w, q) :: insert_first v pos u'
  end.

Fixpoint unique_from (pos : nat) (xs : list Z) (u : list (Z * nat))
  : list (Z * nat) :=
  match xs with
  | [] => u
  | x :: xs' => unique_from (S pos) xs' (insert_first x pos u)
  end.

Definition unique (xs : list Z) : list Z * list Z :=
  let u := unique_from 0 xs [] in
  (map fst u, map (fun p => Z.of_nat (snd p)) u).

(** Bounds of a basic slice [a[start:stop]] (step 1) of a sequence of
    length [len]; [None] is an omitted bound. *)
Definition clip (len : nat) (i : Z) : nat :=
  if (i <? 0)%Z then Z.to_nat (Z.max 0 (i + Z.of_nat len))
  else Z.to_nat (Z.min i (Z.of_nat len)).

Definition slice_start (len : nat) (start : option Z) : nat :=
  match start with None => 0 | Some i => clip len i end.

Definition slice_stop (len : nat) (stop : option Z) : nat :=
  match stop with None => len | Some j => clip len j end.

Definition slice {A} (a : list A) (start stop : option Z) : list A :=
  let lo := slice_start (length a) start in
  let hi := slice_stop (length a) stop in
  take (hi - lo) (drop lo a).

(** [a[start:stop] = v]: the rows of [v] are copied when there are as
    many as the slice has, one row is broadcast, anything else is a
    shape mismatch. *)
Definition slice_assign {A} (a : list A) (start stop : option Z)
    (v : list A) : result (list A) :=
  let lo := slice_start (length a) start in
  let hi := slice_stop (length a) stop in
  let n := hi - lo in
  if decide (length v = n) then Ok (take lo a ++ v ++ drop (lo + n) a)
  else match v with
       | [x] => Ok (take lo a ++ replicate n x ++ drop (lo + n) a)
       | _ => Raise ValueError
       end.

End Np.

(** ** SumTree *)

Module SumTree.

(** [self.nodes]: the levels of the tree, root level first. *)
Record t : Type := { nodes : list (list R) }.

(** The construction loop: [n] levels, the current one of [level_size]
    zeros, doubling at each level. *)
Fixpoint build_levels (n level_size : nat) : list (list R) :=
  match n with
  | O => []
  | S n' => replicate level_size 0%R :: build_levels n' (level_size * 2)
  end.

(** [SumTree(max_size)].  [int(np.ceil(np.log2(max_size)))] is
    [Z.log2_up max_size] for a positive size; zero gives [-inf] and a
    negative size [nan], which [int] refuses. *)
Definition init (max_size : Z) : result t :=
  if (max_size =? 0)%Z then Raise OverflowError
  else if (max_size <? 0)%Z then Raise ValueError
  else Ok {| nodes := build_levels (Z.to_nat (Z.log2_up max_size + 1)) 1 |}.

(** [self.nodes[-1]] *)
Definition leaves (tr : t) : result (list R) :=
  match last (nodes tr) with
  | Some l => Ok l
  | None => Raise IndexError
  end.

(** [self.nodes[0][0]] *)
Definition total (tr : t) : result R :=
  match nodes tr with
  | (x :: _) :: _ => Ok x
  | _ => Raise IndexError
  end.

Definition leaf_priority (tr : t) (i : Z) : result R :=
  lf ← leaves tr; Np.get lf i.

(** The loop of [set] over [self.nodes[::-1]]: [levels] is leaf level
    first. *)
Fixpoint add_up (levels : list (list R)) (node_index : Z)
    (priority_diff : R) : result (list (list R)) :=
  match levels with
  | [] => Ok []
  | nds :: rest =>
      nds' ← Np.add_at nds node_index priority_diff;
      rest' ← add_up rest (node_index / 2)%Z priority_diff;
      Ok (nds' :: rest')
  end.

Definition set (tr : t) (node_index : Z) (new_priority : R) : result t :=
  lf ← leaves tr;
  old ← Np.get lf node_index;
  let priority_diff := (new_priority - old)%R in
  lv ← add_up (reverse (nodes tr)) node_index priority_diff;
  Ok {| nodes := reverse lv |}.

(** The loop of [batch_set] over [self.nodes[::-1]]. *)
Fixpoint add_up_many (levels : list (list R)) (node_index : list Z)
    (priority_diff : list R) : result (list (list R)) :=
  match levels with
  | [] => Ok []
  | nds :: rest =>
      nds' ← Np.add_at_many nds node_index priority_diff;
      rest' ← add_up_many rest (map (fun i => (i / 2)%Z) node_index)
                priority_diff;
      Ok (nds' :: rest')
  end.

Definition batch_set (tr : t) (node_index : list Z) (new_priority : list R)
  : result t :=
  let '(node_index, unique_index) := Np.unique node_index in
  newp ← Np.take_at new_priority unique_index;
  lf ← leaves tr;
  old ← Np.take_at lf node_index;
  let priority_diff := zip_with Rminus newp old in
  lv ← add_up_many (reverse (nodes tr)) node_index priority_diff;
  Ok {| nodes := reverse lv |}.

(** One lane of the batched search of [sample]: [levels] is
    [self.nodes[1:]], [query_value] the uniform draw of that lane. *)
Fixpoint descend (levels : list (list R)) (node_index : Z)
    (query_value : R) : result Z :=
  match levels with
  | [] => Ok node_index
  | nds :: rest =>
      let node_index := (node_index * 2)%Z in
      left_sum ← Np.get nds node_index;
      if Rgt_dec query_value left_sum
      then descend rest (node_index + 1)%Z (query_value - left_sum)%R
      else descend rest node_index query_value
  end.

Fixpoint descend_all (levels : list (list R)) (query_value : list R)
  : result (list Z) :=
  match query_value with
  | [] => Ok []
  | q :: qs =>
      i ← descend levels 0%Z q;
      ix ← descend_all levels qs;
      Ok (i :: ix)
  end.

(** [sample(batch_size)], with the [batch_size] draws of
    [np.random.uniform(0, self.nodes[0][0])] given as [query_value]. *)
Definition sample (tr : t) (query_value : list R) : result (list Z) :=
  _ ← total tr;
  descend_all (tail (nodes tr)) query_value.

End SumTree.

(** ** SumTree over the arithmetic of its nodes *)

(** The numbers a tree holds, with the [0], [+], [-] and [>] the code
    applies to them. *)
Record arith : Type := {
  num : Type;
  zero : num;
  plus : num -> num -> num;
  minus : num -> num -> num;
  greater : num -> num -> bool
}.

(** float64, as NumPy computes: IEEE 754 binary64 with rounding to
    nearest, ties to even. *)
Definition float64 : arith :=
  {| num := float;
     zero := 0%float;
     plus := PrimFloat.add;
     minus := PrimFloat.sub;
     greater := fun x y => PrimFloat.ltb y x |}.

(** The real numbers: arithmetic without rounding. *)
Definition real : arith :=
  {| num := R;
     zero := 0%R;
     plus := Rplus;
     minus := Rminus;
     greater := fun x y => if Rgt_dec x y then true else false |}.

(** The class [SumTree] with the arithmetic as a parameter: at
    [float64] the tree as the program runs it, at [real] the module
    [SumTree] above. *)
Module Tree.

Section Arithmetic.

Variable A : arith.

(** [self.nodes]: the levels of the tree, root level first. *)
Record t : Type := { nodes : list (list (num A)) }.

Fixpoint build_levels (n level_size : nat) : list (list (num A)) :=
  match n with
  | O => []
  | S n' => replicate level_size (zero A) :: build_levels n' (level_size * 2)
  end.

(** [SumTree(max_size)] *)
Definition init (max_size : Z) : result t :=
  if (max_size =? 0)%Z then Raise OverflowError
  else if (max_size <? 0)%Z then Raise ValueError
  else Ok {| nodes := build_levels (Z.to_nat (Z.log2_up max_size + 1)) 1 |}.

(** [self.nodes[-1]] and [self.nodes[0][0]] *)
Definition leaves (tr : t) : result (list (num A)) :=
  match last (nodes tr) with
  | Some l => Ok l
  | None => Raise IndexError
  end.

Definition total (tr : t) : result (num A) :=
  match nodes tr with
  | (x :: _) :: _ => Ok x
  | _ => Raise IndexError
  end.

Definition leaf_priority (tr : t) (i : Z) : result (num A) :=
  lf ← leaves tr; Np.get lf i.

(** [np.add.at(a, i, d)] and [np.add.at(a, ind, ds)] *)
Definition add_at (a : list (num A)) (i : Z) (d : num A)
  : result (list (num A)) :=
  k ← Np.index (length a) i;
  Ok (alter (fun x => plus A x d) k a).

Fixpoint add_at_many (a : list (num A)) (ind : list Z) (ds : list (num A))
  : result (list (num A)) :=
  match ind, ds with
  | [], [] => Ok a
  | i :: ind', d :: ds' => a' ← add_at a i d; add_at_many a' ind' ds'
  | _, _ => Raise ValueError
  end.

(** The loop of [set] over [self.nodes[::-1]]: [levels] is leaf level
    first. *)
Fixpoint add_up (levels : list (list (num A))) (node_index : Z)
    (priority_diff : num A) : result (list (list (num A))) :=
  match levels with
  | [] => Ok []
  | nds :: rest =>
      nds' ← add_at nds node_index priority_diff;
      rest' ← add_up rest (node_index / 2)%Z priority_diff;
      Ok (nds' :: rest')
  end.

Definition set (tr : t) (node_index : Z) (new_priority : num A)
  : result t :=
  lf ← leaves tr;
  old ← Np.get lf node_index;
  let priority_diff := minus A new_priority old in
  lv ← add_up (reverse (nodes tr)) node_index priority_diff;
  Ok {| nodes := reverse lv |}.

(** The loop of [batch_set] over [self.nodes[::-1]]. *)
Fixpoint add_up_many (levels : list (list (num A))) (node_index : list Z)
    (priority_diff : list (num A)) : result (list (list (num A))) :=
  match levels with
  | [] => Ok []
  | nds :: rest =>
      nds' ← add_at_many nds node_index priority_diff;
      rest' ← add_up_many rest (map (fun i => (i / 2)%Z) node_index)
                priority_diff;
      Ok (nds' :: rest')
  end.

Definition batch_set (tr : t) (node_index : list Z)
    (new_priority : list (num A)) : result t :=
  let '(node_index, unique_index) := Np.unique node_index in
  newp ← Np.take_at new_priority unique_index;
  lf ← leaves tr;
  old ← Np.take_at lf node_index;
  let priority_diff := zip_with (minus A) newp old in
  lv ← add_up_many (reverse (nodes tr)) node_index priority_diff;
  Ok {| nodes := reverse lv |}.

(** One lane of the batched search of [sample]: [levels] is
    [self.nodes[1:]], [query_value] the uniform draw of that lane. *)
Fixpoint descend (levels : list (list (num A))) (node_index : Z)
    (query_value : num A) : result Z :=
  match levels with
  | [] => Ok node_index
  | nds :: rest =>
      let node_index := (node_index * 2)%Z in
      left_sum ← Np.get nds node_index;
      if greater A query_value left_sum
      then descend rest (node_index + 1)%Z (minus A query_value left_sum)
      else descend rest node_index query_value
  end.

Fixpoint descend_all (levels : list (list (num A)))
    (query_value : list (num A)) : result (list Z) :=
  match query_value with
  | [] => Ok []
  | q :: qs =>
      i ← descend levels 0%Z q;
      ix ← descend_all levels qs;
      Ok (i :: ix)
  end.

(** [sample(batch_size)], the draws given as [query_value]. *)
Definition sample (tr : t) (query_value : list (num A)) : result (list Z) :=
  _ ← total tr;
  descend_all (tail (nodes tr)) query_value.

(** A call of [set] or of [batch_set], and a sequence of calls. *)
Inductive call : Type :=
| CallSet (node_index : Z) (new_priority : num A)
| CallBatchSet (node_index : list Z) (new_priority : list (num A)).

Definition run_call (tr : t) (c : call) : result t :=
  match c with
  | CallSet i p => set tr i p
  | CallBatchSet ix ps => batch_set tr ix ps
  end.

Fixpoint run_calls (tr : t) (cs : list call) : result t :=
  match cs with
  | [] => Ok tr
  | c :: cs' => tr' ← run_call tr c; run_calls tr' cs'
  end.

End Arithmetic.

Arguments nodes {A} _.
Arguments Build_t {A} _.
Arguments leaves {A} _.
Arguments total {A} _.
Arguments leaf_priority {A} _ _.
Arguments set {A} _ _ _.
Arguments batch_set {A} _ _ _.
Arguments sample {A} _ _.
Arguments CallSet {A} _ _.
Arguments CallBatchSet {A} _ _.
Arguments run_call {A} _ _.
Arguments run_calls {A} _ _.

End Tree.

(** ** Buffer *)

Module Buffer.

(** The attributes of a [Buffer] object.  [tree], [max_priority] and
    [beta] exist only when [prioritized] is set; otherwise the fields
    below are placeholders that no method reads. *)
Record t : Type := {
  batch_size : Z;
  max_size : Z;
  ptr : Z;
  size : Z;
  state : list (list R);
  action : list (list R);
  next_state : list (list R);
  reward : list (list R);
  not_done : list (list R);
  seeds : list (list R);
  prioritized : bool;
  tree : SumTree.t;
  max_priority : R;
  beta : R
}.

(** [Buffer(state_dim, batch_size, buffer_size, device, prioritized)];
    [state_dim] is the number of entries of a flattened state. *)
Definition init (state_dim : nat) (batch_size buffer_size : Z)
    (prioritized : bool) : result t :=
  if (buffer_size <? 0)%Z then Raise ValueError
  else
    let n := Z.to_nat buffer_size in
    tr ← (if prioritized then SumTree.init buffer_size
          else Ok {| SumTree.nodes := [] |});
    Ok {| batch_size := batch_size;
          max_size := buffer_size;
          ptr := 0;
          size := 0;
          state := replicate n (replicate state_dim 0%R);
          action := replicate n [0%R];
          next_state := replicate n (replicate state_dim 0%R);
          reward := replicate n [0%R];
          not_done := replicate n [0%R];
          seeds := replicate n [0%R];
          prioritized := prioritized;
          tree := tr;
          max_priority := 1;
          beta := 0.4 |}.

(** The two assignments of the wrap-around branch of [add] for one
    field: [arr[ptr:] = v[:n - end]; arr[:end] = v[n - end:]]. *)
Definition write_split (arr : list (list R)) (ptr n_transitions end_ : Z)
    (v : list (list R)) : result (list (list R)) :=
  arr1 ← Np.slice_assign arr (Some ptr) None
           (Np.slice v None (Some (n_transitions - end_)%Z));
  Np.slice_assign arr1 None (Some end_)
    (Np.slice v (Some (n_transitions - end_)%Z) None).

(** The assignment of the other branch: [arr[ptr:ptr+n] = v]. *)
Definition write_run (arr : list (list R)) (ptr n_transitions : Z)
    (v : list (list R)) : result (list (list R)) :=
  Np.slice_assign arr (Some ptr) (Some (ptr + n_transitions)%Z) v.

(** [(1. - done).reshape(-1, 1)] *)
Definition not_done_of (done : list R) : list (list R) :=
  map (fun d => [(1 - d)%R]) done.

(** [add(state, action, next_state, reward, done, seeds)].  The copies
    to the CPU made for a CUDA device leave the values as they are and
    have no counterpart here. *)
Definition add (b : t) (state action next_state reward : list (list R))
    (done : list R) (seeds : list (list R)) : result t :=
  let n_transitions := Z.of_nat (length state) in
  if (max_size b =? 0)%Z then Raise ZeroDivisionError
  else
    let end_ := ((ptr b + n_transitions) mod max_size b)%Z in
    let write arr v :=
      if (ptr b + n_transitions >? max_size b)%Z
      then write_split arr (ptr b) n_transitions end_ v
      else write_run arr (ptr b) n_transitions v in
    state' ← write (Buffer.state b) state;
    action' ← write (Buffer.action b) action;
    next_state' ← write (Buffer.next_state b) next_state;
    reward' ← write (Buffer.reward b) reward;
    not_done' ← write (Buffer.not_done b) (not_done_of done);
    seeds' ← write (Buffer.seeds b) seeds;
    tree' ← (if prioritized b
             then SumTree.set (tree b) (ptr b) (max_priority b)
             else Ok (tree b));
    Ok {| batch_size := batch_size b;
          max_size := max_size b;
          ptr := end_;
          size := Z.min (size b + 1) (max_size b);
          state := state';
          action := action';
          next_state := next_state';
          reward := reward';
          not_done := not_done';
          seeds := seeds';
          prioritized := prioritized b;
          tree := tree';
          max_priority := max_priority b;
          beta := beta b |}.

(** [x ** y] on float64 for a negative exponent is a finite positive
    number only for [x > 0]; a zero or negative base gives [inf] or
    [nan], which the embedding does not track ([None]). *)
Definition power (x y : R) : option R :=
  if Rlt_dec 0 x then Some (Rpower x y) else None.

(** [a.max()] of a non-empty array. *)
Definition max_of (x : R) (xs : list R) : R := fold_left Rmax xs x.

(** The transitions, the indices and the weights a call of [sample]
    returns. *)
Record sampled : Type := {
  s_state : list (list R);
  s_action : list (list R);
  s_next_state : list (list R);
  s_reward : list (list R);
  s_not_done : list (list R);
  s_seeds : list (list R);
  s_ind : list Z;
  s_weights : option (list R)
}.

(** The importance weights of [sample]:
    [weights = leaves[ind] ** -beta; weights /= weights.max()]. *)
Definition weights_of (priorities : list R) (beta : R)
  : result (option (list R)) :=
  match priorities with
  | [] => Raise ValueError
  | _ :: _ =>
      Ok (match mapM (fun p => power p (- beta)) priorities with
          | Some (w :: ws) =>
              let m := max_of w ws in
              Some (map (fun x => (x / m)%R) (w :: ws))
          | _ => None
          end)
  end.

(** [sample()].  The random draws are arguments: [query_value] stands
    for the uniform draws inside [SumTree.sample] (one per batch
    element), [uniform_ind] for the result of [np.random.randint(0,
    size, batch_size)] in the unprioritized case, which refuses an
    empty range. *)
Definition sample (b : t) (query_value : list R) (uniform_ind : list Z)
  : result (sampled * t) :=
  ind ← (if prioritized b then SumTree.sample (tree b) query_value
         else if (size b <=? 0)%Z then Raise ValueError
              else Ok uniform_ind);
  st ← Np.take_at (state b) ind;
  ac ← Np.take_at (action b) ind;
  ns ← Np.take_at (next_state b) ind;
  rw ← Np.take_at (reward b) ind;
  nd ← Np.take_at (not_done b) ind;
  sd ← Np.take_at (seeds b) ind;
  if prioritized b then
    lf ← SumTree.leaves (tree b);
    ps ← Np.take_at lf ind;
    ws ← weights_of ps (beta b);
    Ok ({| s_state := st; s_action := ac; s_next_state := ns;
           s_reward := rw; s_not_done := nd; s_seeds := sd;
           s_ind := ind; s_weights := ws |},
        {| batch_size := batch_size b;
           max_size := max_size b;
           ptr := ptr b;
           size := size b;
           state := state b;
           action := action b;
           next_state := next_state b;
           reward := reward b;
           not_done := not_done b;
           seeds := seeds b;
           prioritized := prioritized b;
           tree := tree b;
           max_priority := max_priority b;
           beta := Rmin (beta b + 2e-7) 1 |})
  else
    Ok ({| s_state := st; s_action := ac; s_next_state := ns;
           s_reward := rw; s_not_done := nd; s_seeds := sd;
           s_ind := ind; s_weights := Some [1%R] |}, b).

Definition update_priority (b : t) (ind : list Z) (priority : list R)
  : result t :=
  if prioritized b then
    match priority with
    | [] => Raise ValueError
    | p :: ps =>
        tree' ← SumTree.batch_set (tree b) ind priority;
        Ok {| batch_size := batch_size b;
              max_size := max_size b;
              ptr := ptr b;
              size := size b;
              state := state b;
              action := action b;
              next_state := next_state b;
              reward := reward b;
              not_done := not_done b;
              seeds := seeds b;
              prioritized := prioritized b;
              tree := tree';
              max_priority := Rmax (max_of p ps) (max_priority b);
              beta := beta b |}
    end
  else Ok b.

End Buffer.

(** ** The categorical projection of [Rainbow.train] *)

Module Rainbow.

(** The attributes of a [Rainbow] agent the projection reads.
    [multi_step] is [self.n]. *)
Record t : Type := {
  atoms : Z;
  V_min : R;
  V_max : R;
  delta_z : R;
  gamma : R;
  multi_step : nat
}.

(** The part of [__init__] that sets them: [delta_z = (V_max - V_min) /
    (atoms - 1)] is a Python float division. *)
Definition init (atoms : Z) (V_min V_max gamma : R) (multi_step : nat)
  : result t :=
  if (atoms - 1 =? 0)%Z then Raise ZeroDivisionError
  else Ok {| atoms := atoms;
             V_min := V_min;
             V_max := V_max;
             delta_z := (V_max - V_min) / IZR (atoms - 1);
             gamma := gamma;
             multi_step := multi_step |}.

(** [x.floor().to(torch.int64)] and [x.ceil().to(torch.int64)] *)
Definition floor (x : R) : Z := Int_part x.
Definition ceil (x : R) : Z := (- Int_part (- x))%Z.

(** [x.clamp(min=lo, max=hi)] *)
Definition clamp (lo hi x : R) : R := Rmin (Rmax x lo) hi.

(** The two masked updates, for one entry:
    [low[(up > 0) * (low == up)] -= 1] and then
    [up[(low < (atoms - 1)) * (low == up)] += 1], the second reading the
    [low] the first has written. *)
Definition nudge (atoms low up : Z) : Z * Z :=
  let low := if (0 <? up)%Z && (low =? up)%Z then (low - 1)%Z else low in
  let up := if (low <? atoms - 1)%Z && (low =? up)%Z then (up + 1)%Z else up in
  (low, up).

Section Entry.

Variable ag : t.
(** [reward] and [not_done] of the batch row, [p] one entry of its row
    of [pns_a]. *)
Variables reward not_done : R.

(** One entry of [target_Q] after the clamp. *)
Definition target_Q (p : R) : R :=
  clamp (V_min ag) (V_max ag)
    (reward + not_done * gamma ag ^ multi_step ag * p).

Definition b (p : R) : R := (target_Q p - V_min ag) / delta_z ag.

Definition low_up (p : R) : Z * Z :=
  nudge (atoms ag) (floor (b p)) (ceil (b p)).

Definition low (p : R) : Z := fst (low_up p).
Definition up (p : R) : Z := snd (low_up p).


End Entry.






(** Row [j] of [m]. *)
Definition row (ag : t) (m : list R) (j : nat) : list R :=
  take (Z.to_nat (atoms ag)) (drop (j * Z.to_nat (atoms ag)) m).

End Rainbow.

(** ** The helpers of [train_ere.py] *)

Module Train.

(** The exploration rate [epsilon(t)] inside [train], with
    [epsilon_start = 1.0]; [end_eps], [eps_decay_period] and
    [start_timesteps] are the command-line arguments it closes over.
    The division is Python's and refuses a zero divisor. *)
Definition epsilon (end_eps eps_decay_period : R) (start_timesteps t : Z)
  : result R :=
  if Req_dec_T eps_decay_period 0 then Raise ZeroDivisionError
  else Ok (end_eps
           + (1.0 - end_eps)
             * exp (-1.0 * IZR (t - start_timesteps) / eps_decay_period))%R.

(** [[base_seed + i for i in range(num_seeds)]] *)
Definition generate_seeds (num_seeds base_seed : Z) : list Z :=
  map (fun i => (base_seed + Z.of_nat i)%Z) (seq 0 (Z.to_nat num_seeds)).

(** [compute_current_eta], on Python numbers: the time steps are
    integers, and [/] refuses a zero divisor. *)
Definition compute_current_eta (eta_initial eta_final : R)
    (current_timestep total_timestep : Z) : result R :=
  if (total_timestep =? 0)%Z then Raise ZeroDivisionError
  else Ok (eta_initial
           + (eta_final - eta_initial) * IZR current_timestep
             / IZR total_timestep)%R.

(** [int(x)] of a float: truncation towards zero. *)
Definition int_of (x : R) : Z :=
  if Rle_dec 0 x then Rainbow.floor x else Rainbow.ceil x.

(** [x ** y] for a float base and a non-negative float exponent.  A
    negative base is outside the embedding ([None]): Python answers
    with a complex number unless [y] is integral, NumPy with [nan]. *)
Definition power (x y : R) : option R :=
  if Rlt_dec 0 x then Some (Rpower x y)
  else if Req_dec_T x 0
       then if Req_dec_T y 0 then Some 1%R
            else if Rlt_dec 0 y then Some 0%R else None
       else None.

(** The value of [update_order]: ["new_first"], ["random"], or any other
    string, which the code treats as ["old_first"]. *)
Inductive update_order : Type :=
| new_first
| random
| old_first.

(** The loop that fills [ck_list], an [int64] array: for each [k] of
    [ks], [ck_list[k] = int(replay_size * eta_current ** (k * 1000 /
    num_updates))].  Storing an integer outside [int64] raises
    [OverflowError]. *)
Fixpoint fill_ck (replay_size : R) (num_updates : Z) (eta_current : R)
    (ks : list nat) : result (option (list Z)) :=
  match ks with
  | [] => Ok (Some [])
  | k :: ks' =>
      match power eta_current
              (IZR (Z.of_nat k * 1000) / IZR num_updates) with
      | None => Ok None
      | Some x =>
          let c := int_of (replay_size * x) in
          if (- 2 ^ 63 <=? c)%Z && (c <? 2 ^ 63)%Z
          then rest ← fill_ck replay_size num_updates eta_current ks';
               Ok (option_map (cons c) rest)
          else Raise OverflowError
      end
  end.

(** [get_ck_list_exp].  [np.zeros] refuses a negative length; the
    shuffle of [np.random.permutation] is the argument [permutation]. *)
Definition get_ck_list_exp (replay_size : R) (num_updates : Z)
    (eta_current : R) (order : update_order)
    (permutation : list Z -> list Z) : result (option (list Z)) :=
  if (num_updates <? 0)%Z then Raise ValueError
  else
    ck_list ← fill_ck replay_size num_updates eta_current
                (seq 0 (Z.to_nat num_updates));
    Ok (option_map
          (fun ck_list =>
             match order with
             | new_first => reverse ck_list
             | random => permutation ck_list
             | old_first => ck_list
             end) ck_list).

(** [multi_step_reward]: the loop over [enumerate(rewards)], from index
    [idx] with the running value [ret]. *)
Fixpoint multi_step_reward_from (idx : nat) (ret : R) (rewards : list R)
    (gamma : R) : R :=
  match rewards with
  | [] => ret
  | reward :: rewards' =>
      multi_step_reward_from (S idx) (ret + reward * gamma ^ idx)%R
        rewards' gamma
  end.

Definition multi_step_reward (rewards : list R) (gamma : R) : R :=
  multi_step_reward_from 0 0.0%R rewards gamma.

End Train.

(** ** The target network and the seed counts of [DDQN] *)

Module DDQN.

(** The attributes the target update reads and writes.  A network is
    the list of its scalar weights, in the order of [parameters()];
    [Q_target] starts as a deep copy of [Q].  [polyak] is
    [args.polyak_target_update], which picks [maybe_update_target]. *)
Record t : Type := {
  Q : list R;
  Q_target : list R;
  iterations : Z;
  target_update_frequency : Z;
  tau : R;
  polyak : bool
}.

(** [tau * param + (1 - tau) * target_param] along [zip(Q.parameters(),
    Q_target.parameters())]: target weights beyond the zip keep their
    value. *)
Fixpoint blend (tau : R) (param target_param : list R) : list R :=
  match param, target_param with
  | p :: param', q :: target_param' =>
      (tau * p + (1 - tau) * q)%R :: blend tau param' target_param'
  | _, _ => target_param
  end.

Definition polyak_target_update (a : t) : result t :=
  Ok {| Q := Q a;
        Q_target := blend (tau a) (Q a) (Q_target a);
        iterations := iterations a;
        target_update_frequency := target_update_frequency a;
        tau := tau a;
        polyak := polyak a |}.

(** [%] refuses a zero divisor. *)
Definition copy_target_update (a : t) : result t :=
  if (target_update_frequency a =? 0)%Z then Raise ZeroDivisionError
  else if (iterations a mod target_update_frequency a =? 0)%Z
       then Ok {| Q := Q a;
                  Q_target := Q a;
                  iterations := iterations a;
                  target_update_frequency := target_update_frequency a;
                  tau := tau a;
                  polyak := polyak a |}
       else Ok a.

Definition maybe_update_target (a : t) : result t :=
  if polyak a then polyak_target_update a else copy_target_update a.

(** The end of a call of [train]: the optimizer step has turned the
    weights of [Q] into [Q'], then [self.iterations += 1] and
    [self.maybe_update_target()]. *)
Definition train_update (a : t) (Q' : list R) : result t :=
  maybe_update_target
    {| Q := Q';
       Q_target := Q_target a;
       iterations := iterations a + 1;
       target_update_frequency := target_update_frequency a;
       tau := tau a;
       polyak := polyak a |}.

(** [self.seed_weights], a dictionary from seeds to weights, in
    insertion order. *)
Definition dict : Type := list (Z * R).

(** [d.get(s, default)] *)
Fixpoint get (d : dict) (s : Z) (default : R) : R :=
  match d with
  | [] => default
  | (k, v) :: d' => if (k =? s)%Z then v else get d' s default
  end.

(** [d[s] = v] *)
Fixpoint set (d : dict) (s : Z) (v : R) : dict :=
  match d with
  | [] => [(s, v)]
  | (k, w) :: d' => if (k =? s)%Z then (k, v) :: d' else (k, w) :: set d' s v
  end.

(** The loop of [train] over [enumerate(seeds)], from index [idx]:
    [seed_weights[s] = seed_weights.get(s, 0) + weights[idx]] when
    [weighted] ([self.PER and not ere]), [... + 1] otherwise.
    [weights[idx]] needs [idx] inside [weights]. *)
Fixpoint count_seeds (weighted : bool) (seed_weights : dict) (idx : nat)
    (seeds : list Z) (weights : list R) : result dict :=
  match seeds with
  | [] => Ok seed_weights
  | s :: seeds' =>
      w ← (if weighted
           then match weights !! idx with
                | Some w => Ok w
                | None => Raise IndexError
                end
           else Ok 1%R);
      count_seeds weighted (set seed_weights s (get seed_weights s 0 + w)%R)
        (S idx) seeds' weights
  end.

(** [{i: 0 for i in range(start_level, start_level +
    num_train_seeds)}] *)
Definition init_seed_weights (start_level num_train_seeds : Z) : dict :=
  map (fun i => ((start_level + Z.of_nat i)%Z, 0%R))
    (seq 0 (Z.to_nat num_train_seeds)).

End DDQN.

(** ** The priorities [train] hands to [update_priority] *)

Module Priority.

(** [DDQN.train]: [(current_Q - target_Q).abs() + 1e-10], entry by
    entry of the batch. *)
Definition ddqn (current_Q target_Q : list R) : list R :=
  zip_with (fun c t => (Rabs (c - t) + 1e-10)%R) current_Q target_Q.

(** [Rainbow.train]: [loss.clamp(min=self.min_priority)] *)
Definition rainbow (min_priority : R) (loss : list R) : list R :=
  map (fun x => Rmax x min_priority) loss.

End Priority.

(** * Notions used in the statements *)

(** ** Sums and levels of the tree *)

Definition sumR (l : list R) : R := foldr Rplus 0%R l.

(** The sums of neighbouring pairs of a level: the level above it. *)
Fixpoint pair_sums (l : list R) : list R :=
  match l with
  | a :: c :: l' => (a + c)%R :: pair_sums l'
  | _ => []
  end.

(** [adjacent Rel L]: every two consecutive entries of [L] are related. *)
Definition adjacent {A} (Rel : A -> A -> Prop) (L : list A) : Prop :=
  forall k x y, L !! k = Some x -> L !! S k = Some y -> Rel x y.

(** [child_of P C]: level [C] lies directly below level [P]. *)
Definition child_of (P C : list R) : Prop :=
  length C = 2 * length P /\ P = pair_sums C.

(** The shape and the sums of a tree. *)
Definition wf_tree (tr : SumTree.t) : Prop :=
  head (map length (SumTree.nodes tr)) = Some 1
  /\ adjacent child_of (SumTree.nodes tr).

(** The number of leaves. *)
Definition leaf_count (tr : SumTree.t) : nat :=
  default 0 (last (map length (SumTree.nodes tr))).

(** The sum-tree invariant, node by node: [children_sum] says that the
    node [i] of a level is the sum of the nodes [2i] and [2i+1] of the
    level below, [root_sum] that the root is the sum of the leaves. *)
Definition children_sum (tr : SumTree.t) : Prop :=
  forall l P C i x,
    SumTree.nodes tr !! l = Some P ->
    SumTree.nodes tr !! S l = Some C ->
    P !! i = Some x ->
    exists a c, C !! (2 * i) = Some a /\ C !! (2 * i + 1) = Some c
                /\ x = (a + c)%R.

Definition root_sum (tr : SumTree.t) : Prop :=
  exists x lf, SumTree.total tr = Ok x /\ SumTree.leaves tr = Ok lf
               /\ x = sumR lf.

(** [beta] after [N] calls as the specification has it, with an
    increment [inc] of the caller's choice. *)
Definition spec_beta (beta_0 inc : R) (N : nat) : R :=
  Rmin (beta_0 + INR N * inc) 1.

(** [min(self.beta + 2e-7, 1)] as float64 computes it. *)
Definition anneal_float64 (beta : float) : float :=
  let x := (beta + 0.0000002)%float in
  if PrimFloat.ltb 1 x then 1%float else x.

(** A call of [set] or of [batch_set]. *)
Inductive tree_op : Type :=
| OpSet (node_index : Z) (new_priority : R)
| OpBatchSet (node_index : list Z) (new_priority : list R).

Definition run_op (tr : SumTree.t) (o : tree_op) : result SumTree.t :=
  match o with
  | OpSet i p => SumTree.set tr i p
  | OpBatchSet ix ps => SumTree.batch_set tr ix ps
  end.

Fixpoint run_ops (tr : SumTree.t) (ops : list tree_op) : result SumTree.t :=
  match ops with
  | [] => Ok tr
  | o :: ops' => tr' ← run_op tr o; run_ops tr' ops'
  end.

(** The indices of a call lie in [[0, capacity)]; a batch call comes
    with one priority per index. *)
Definition in_range (capacity : Z) (o : tree_op) : Prop :=
  match o with
  | OpSet i _ => (0 <= i < capacity)%Z
  | OpBatchSet ix ps =>
      Forall (fun i => (0 <= i < capacity)%Z) ix /\ length ps = length ix
  end.

(** A tree of the given capacity that a program can hold: built by
    [SumTree(capacity)] and updated by calls with in-range indices. *)
Definition reachable (capacity : Z) (tr : SumTree.t) : Prop :=
  exists tr0 ops,
    SumTree.init capacity = Ok tr0
    /\ Forall (in_range capacity) ops
    /\ run_ops tr0 ops = Ok tr.

(** ** Shape and sums of a tree in a given arithmetic *)

(** The level sizes of [SumTree(capacity)]: 1, 2, 4, ... *)
Definition level_sizes (capacity : Z) : list nat :=
  map (Nat.pow 2) (seq 0 (Z.to_nat (Z.log2_up capacity + 1))).

Definition shaped {A} (capacity : Z) (tr : Tree.t A) : Prop :=
  map length (Tree.nodes tr) = level_sizes capacity.

(** [halves C P]: level [C] has two nodes for each node of [P]. *)
Definition halves {X} (C P : list X) : Prop := length C = 2 * length P.

(** The indices of a call lie in [[0, capacity)]; a batch call comes
    with one priority per index. *)
Definition call_in_range {A} (capacity : Z) (c : Tree.call A) : Prop :=
  match c with
  | Tree.CallSet i _ => (0 <= i < capacity)%Z
  | Tree.CallBatchSet ix ps =>
      Forall (fun i => (0 <= i < capacity)%Z) ix /\ length ps = length ix
  end.

(** The sum-tree invariant in the arithmetic of the tree: node [i] of a
    level is [nodes[2i] + nodes[2i+1]] of the level below, and the root
    is the sum of the leaves. *)
Definition node_sums {A} (tr : Tree.t A) : Prop :=
  forall l P C i x,
    Tree.nodes tr !! l = Some P ->
    Tree.nodes tr !! S l = Some C ->
    P !! i = Some x ->
    exists a c, C !! (2 * i) = Some a /\ C !! (2 * i + 1) = Some c
                /\ x = plus A a c.

Definition root_is_sum {A} (tr : Tree.t A) : Prop :=
  exists x lf, Tree.total tr = Ok x /\ Tree.leaves tr = Ok lf
               /\ x = foldr (plus A) (zero A) lf.


(** A tree of [SumTree] as a tree over [real], and a call likewise. *)
Definition as_real (tr : SumTree.t) : Tree.t real :=
  Tree.Build_t (A := real) (SumTree.nodes tr).

Definition as_op (c : Tree.call real) : tree_op :=
  match c with
  | Tree.CallSet i p => OpSet i p
  | Tree.CallBatchSet ix ps => OpBatchSet ix ps
  end.

Definition as_real_result (r : result SumTree.t) : result (Tree.t real) :=
  match r with Ok tr => Ok (as_real tr) | Raise e => Raise e end.

(** The calls of the float64 example: three priorities of 1, then
    [1e16] and [1.0] written to slot 0 as [update_priority] does. *)
Definition absorbing_calls : list (Tree.call float64) :=
  [Tree.CallSet (A := float64) 0 1%float;
   Tree.CallSet (A := float64) 1 1%float;
   Tree.CallSet (A := float64) 2 1%float;
   Tree.CallBatchSet (A := float64) [0%Z] [10000000000000000%float];
   Tree.CallBatchSet (A := float64) [0%Z] [1%float]].

(** The tree they leave of [SumTree(3)]. *)
Definition absorbed_tree : Tree.t float64 :=
  Tree.Build_t (A := float64) [[4]; [2; 1]; [0; 1; 1; 0]]%float.

(** ** Writes into the buffer *)

(** [written cap p k arr v res]: [res] is [arr] with the [k] rows of
    [v] stored from slot [p] on, cyclically in an array of [cap]
    slots. *)
Definition written (cap p k : nat) (arr v res : list (list R)) : Prop :=
  length res = cap
  /\ forall j, j < cap ->
       res !! j = if decide ((j + cap - p) mod cap < k)
                  then v !! ((j + cap - p) mod cap)
                  else arr !! j.

(** The six arrays handed to one call of [add]. *)
Record batch : Type := {
  b_state : list (list R);
  b_action : list (list R);
  b_next_state : list (list R);
  b_reward : list (list R);
  b_done : list R;
  b_seeds : list (list R)
}.

Definition add_batch (b : Buffer.t) (bt : batch) : result Buffer.t :=
  Buffer.add b (b_state bt) (b_action bt) (b_next_state bt) (b_reward bt)
    (b_done bt) (b_seeds bt).

(** A batch of [k] transitions. *)
Definition batch_rows (k : nat) (bt : batch) : Prop :=
  length (b_state bt) = k /\ length (b_action bt) = k
  /\ length (b_next_state bt) = k /\ length (b_reward bt) = k
  /\ length (b_done bt) = k /\ length (b_seeds bt) = k.

(** The storage arrays of a buffer, and the rows a batch stores in
    them, field by field. *)
Definition columns (b : Buffer.t) : list (list (list R)) :=
  [Buffer.state b; Buffer.action b; Buffer.next_state b;
   Buffer.reward b; Buffer.not_done b; Buffer.seeds b].

Definition batch_columns (bt : batch) : list (list (list R)) :=
  [b_state bt; b_action bt; b_next_state bt; b_reward bt;
   Buffer.not_done_of (b_done bt); b_seeds bt].

(** What [__init__] establishes and the methods keep: a positive
    capacity, the write pointer inside the arrays, six arrays of
    [max_size] rows and, when prioritized, a tree with a leaf for every
    slot. *)
Definition wf_buffer (b : Buffer.t) : Prop :=
  (0 <= Buffer.ptr b < Buffer.max_size b)%Z
  /\ Forall (fun arr => length arr = Z.to_nat (Buffer.max_size b)) (columns b)
  /\ (Buffer.prioritized b = true ->
      wf_tree (Buffer.tree b)
      /\ (Buffer.max_size b <= Z.of_nat (leaf_count (Buffer.tree b)))%Z).

(** The rows of [v] that a wrapping write leaves in [res]: the first
    [cap - p] in slots [[p, cap)], the others in slots [[0, p + k -
    cap)]. *)
Definition holds_split (cap p k : nat) (v res : list (list R)) : Prop :=
  (forall t, t < cap - p -> res !! (p + t) = v !! t)
  /\ (forall t, t < p + k - cap -> res !! t = v !! (cap - p + t)).

(** One transition, as a caller holds it, the batch made of a list of
    them, and the six rows a stored transition occupies. *)
Record transition : Type := {
  t_state : list R;
  t_action : list R;
  t_next_state : list R;
  t_reward : list R;
  t_done : R;
  t_seeds : list R
}.

Definition batch_of (ts : list transition) : batch :=
  {| b_state := map t_state ts;
     b_action := map t_action ts;
     b_next_state := map t_next_state ts;
     b_reward := map t_reward ts;
     b_done := map t_done ts;
     b_seeds := map t_seeds ts |}.

Definition stored_rows (t : transition) : list (option (list R)) :=
  [Some (t_state t); Some (t_action t); Some (t_next_state t);
   Some (t_reward t); Some [(1 - t_done t)%R]; Some (t_seeds t)].

(** What slot [j] of the buffer holds, field by field. *)
Definition slot (b : Buffer.t) (j : nat) : list (option (list R)) :=
  map (fun col => col !! j) (columns b).

(** A prioritized buffer of capacity 5 about to wrap, and a batch of
    four transitions. *)
Definition example_buffer : Buffer.t :=
  {| Buffer.batch_size := 2;
     Buffer.max_size := 5;
     Buffer.ptr := 3;
     Buffer.size := 1;
     Buffer.state := replicate 5 [0%R; 0%R];
     Buffer.action := replicate 5 [0%R];
     Buffer.next_state := replicate 5 [0%R; 0%R];
     Buffer.reward := replicate 5 [0%R];
     Buffer.not_done := replicate 5 [0%R];
     Buffer.seeds := replicate 5 [0%R];
     Buffer.prioritized := true;
     Buffer.tree := {| SumTree.nodes := SumTree.build_levels 4 1 |};
     Buffer.max_priority := 1;
     Buffer.beta := 0.4 |}.

Definition example_transition (x : R) : transition :=
  {| t_state := [x; x]; t_action := [x]; t_next_state := [x; (x + 1)%R];
     t_reward := [x]; t_done := 0; t_seeds := [x] |}.

Definition example_batch : batch :=
  batch_of (map example_transition [1; 2; 3; 4]%R).

(** ** Runs of [sample] *)

(** [n] calls of [sample] in a row, none of which raises. *)
Inductive sample_run : Buffer.t -> nat -> Buffer.t -> Prop :=
| run_done b : sample_run b 0 b
| run_call b query_value uniform_ind r b1 n b2 :
    Buffer.sample b query_value uniform_ind = Ok (r, b1) ->
    sample_run b1 n b2 ->
    sample_run b (S n) b2.

(** A prioritized buffer of capacity 1 that holds one transition. *)
Definition single_buffer : Buffer.t :=
  {| Buffer.batch_size := 1;
     Buffer.max_size := 1;
     Buffer.ptr := 0;
     Buffer.size := 1;
     Buffer.state := [[7%R]];
     Buffer.action := [[2%R]];
     Buffer.next_state := [[8%R]];
     Buffer.reward := [[1%R]];
     Buffer.not_done := [[1%R]];
     Buffer.seeds := [[3%R]];
     Buffer.prioritized := true;
     Buffer.tree := {| SumTree.nodes := [[1%R]] |};
     Buffer.max_priority := 1;
     Buffer.beta := 0.4 |}.

Definition with_beta (b : Buffer.t) (beta : R) : Buffer.t :=
  {| Buffer.batch_size := Buffer.batch_size b;
     Buffer.max_size := Buffer.max_size b;
     Buffer.ptr := Buffer.ptr b;
     Buffer.size := Buffer.size b;
     Buffer.state := Buffer.state b;
     Buffer.action := Buffer.action b;
     Buffer.next_state := Buffer.next_state b;
     Buffer.reward := Buffer.reward b;
     Buffer.not_done := Buffer.not_done b;
     Buffer.seeds := Buffer.seeds b;
     Buffer.prioritized := Buffer.prioritized b;
     Buffer.tree := Buffer.tree b;
     Buffer.max_priority := Buffer.max_priority b;
     Buffer.beta := beta |}.

(** ** Notions for the projection *)

(** The nudge as the specification words it: both adjustments decided
    independently, on the [low] and [up] that [floor] and [ceil] gave. *)
Definition spec_nudge (atoms low up : Z) : Z * Z :=
  (if (0 <? up)%Z && (low =? up)%Z then (low - 1)%Z else low,
   if (low <? atoms - 1)%Z && (low =? up)%Z then (up + 1)%Z else up).

(** The agent of the specification's example: 51 atoms on [[-10, 10]]. *)
Definition example_agent : Rainbow.t :=
  {| Rainbow.atoms := 51;
     Rainbow.V_min := -10;
     Rainbow.V_max := 10;
     Rainbow.delta_z := (10 - -10) / IZR (51 - 1);
     Rainbow.gamma := 0.99;
     Rainbow.multi_step := 3 |}.



(** ** Notions for the importance weights *)

(** The weights as the specification words them: each sampled priority
    divided by the total, raised to [-beta], then the batch divided by
    its maximum. *)
Definition spec_weights (priorities : list R) (total beta : R) : list R :=
  let raw := map (fun p => Rpower (p / total) (- beta)) priorities in
  match raw with
  | [] => []
  | x :: xs => map (fun y => (y / Buffer.max_of x xs)%R) raw
  end.

(** A prioritized buffer of capacity 2 with priorities 1 and 3. *)
Definition pair_buffer : Buffer.t :=
  {| Buffer.batch_size := 2;
     Buffer.max_size := 2;
     Buffer.ptr := 0;
     Buffer.size := 2;
     Buffer.state := [[7%R]; [8%R]];
     Buffer.action := [[2%R]; [0%R]];
     Buffer.next_state := [[8%R]; [9%R]];
     Buffer.reward := [[1%R]; [0%R]];
     Buffer.not_done := [[1%R]; [1%R]];
     Buffer.seeds := [[3%R]; [3%R]];
     Buffer.prioritized := true;
     Buffer.tree := {| SumTree.nodes := [[4%R]; [1%R; 3%R]] |};
     Buffer.max_priority := 3;
     Buffer.beta := 0.4 |}.

(** The keys of a table of [np.unique] grow strictly. *)
Fixpoint increasing (u : list (Z * nat)) : Prop :=
  match u with
  | [] => True
  | e :: u' => Forall (fun e' => (fst e < fst e')%Z) u' /\ increasing u'
  end.

(** The table while [np.unique] runs: every entry is the first
    occurrence of its value, and every value met so far has an entry. *)
Definition unique_table (xs : list Z) (pos : nat) (u : list (Z * nat))
  : Prop :=
  increasing u
  /\ (forall v q, (v, q) ∈ u ->
        q < pos /\ xs !! q = Some v
        /\ forall q', q' < q -> xs !! q' <> Some v)
  /\ (forall q v, q < pos -> xs !! q = Some v -> exists q0, (v, q0) ∈ u).

(** Calls of [add], one batch after the other. *)
Fixpoint add_all (b : Buffer.t) (bts : list batch) : result Buffer.t :=
  match bts with
  | [] => Ok b
  | bt :: bts' => b' ← add_batch b bt; add_all b' bts'
  end.

(** The number of transitions of a list of batches. *)
Definition transitions_of (bts : list batch) : Z :=
  foldr (fun bt n => (Z.of_nat (length (b_state bt)) + n)%Z) 0%Z bts.

(** Every batch has as many rows in each field as it has states, and no
    more than the buffer has slots. *)
Definition fits (capacity : Z) (bt : batch) : Prop :=
  batch_rows (length (b_state bt)) bt
  /\ (Z.of_nat (length (b_state bt)) <= capacity)%Z.

(** All the priorities of the tree are non-negative. *)
Definition nonneg_leaves (tr : SumTree.t) : Prop :=
  forall lf, SumTree.leaves tr = Ok lf -> Forall (fun y => (0 <= y)%R) lf.



(** An agent with the copy rule and period 2, the weights of its [Q]
    after three optimizer steps, and an agent with the Polyak rule whose
    target network has one weight more than [Q]. *)
Definition example_copy_agent : DDQN.t :=
  {| DDQN.Q := [0%R];
     DDQN.Q_target := [0%R];
     DDQN.iterations := 0;
     DDQN.target_update_frequency := 2;
     DDQN.tau := 0.005;
     DDQN.polyak := false |}.

Definition example_weights : list (list R) := [[1%R]; [2%R]; [3%R]].

Definition example_polyak_agent : DDQN.t :=
  {| DDQN.Q := [1%R];
     DDQN.Q_target := [0%R; 5%R];
     DDQN.iterations := 0;
     DDQN.target_update_frequency := 0;
     DDQN.tau := 0.5;
     DDQN.polyak := true |}.

(** Calls of [train], one per entry of [Qs], the weights of [Q] after
    each optimizer step. *)
Fixpoint train_updates (a : DDQN.t) (Qs : list (list R)) : result DDQN.t :=
  match Qs with
  | [] => Ok a
  | Q' :: Qs' => a' ← DDQN.train_update a Q'; train_updates a' Qs'
  end.

(** The weights of [Q] after call [n] of [train], [Q0] before the
    first. *)
Definition weights_at (Q0 : list R) (Qs : list (list R)) (n : nat)
  : list R :=
  match n with
  | 0 => Q0
  | S n' => default Q0 (Qs !! n')
  end.

(** What the loop over the batch adds to the entry of seed [s]. *)
Fixpoint tally (weighted : bool) (s : Z) (idx : nat) (seeds : list Z)
    (weights : list R) : R :=
  match seeds with
  | [] => 0%R
  | s' :: seeds' =>
      ((if (s' =? s)%Z
        then if weighted then default 0%R (weights !! idx) else 1%R
        else 0%R)
       + tally weighted s (S idx) seeds' weights)%R
  end.

(** The leaves beyond the capacity, which pad the leaf level to a power
    of two, are 0. *)
Definition padding_zero (capacity : Z) (tr : SumTree.t) : Prop :=
  forall lf k x,
    SumTree.leaves tr = Ok lf ->
    Z.to_nat capacity <= k -> lf !! k = Some x -> x = 0%R.



(** The six arrays of rows a call of [sample] returns. *)
Definition sampled_columns (r : Buffer.sampled) : list (list (list R)) :=
  [Buffer.s_state r; Buffer.s_action r; Buffer.s_next_state r;
   Buffer.s_reward r; Buffer.s_not_done r; Buffer.s_seeds r].

(** The buffer [pair_buffer] with its tree as [SumTree(2)], [set(0, 1)]
    and [set(1, 3)] leave it. *)
Definition built_buffer : Buffer.t :=
  {| Buffer.batch_size := 2;
     Buffer.max_size := 2;
     Buffer.ptr := 0;
     Buffer.size := 2;
     Buffer.state := [[7%R]; [8%R]];
     Buffer.action := [[2%R]; [0%R]];
     Buffer.next_state := [[8%R]; [9%R]];
     Buffer.reward := [[1%R]; [0%R]];
     Buffer.not_done := [[1%R]; [1%R]];
     Buffer.seeds := [[3%R]; [3%R]];
     Buffer.prioritized := true;
     Buffer.tree :=
       {| SumTree.nodes :=
            [[(0 + (1 - 0) + (3 - 0))%R];
             [(0 + (1 - 0))%R; (0 + (3 - 0))%R]] |};
     Buffer.max_priority := 3;
     Buffer.beta := 0.4 |}.

(** A call of one of the two methods that write to a buffer. *)
Inductive buffer_op : Type :=
| CallAdd (bt : batch)
| CallUpdate (ind : list Z) (priority : list R).

(** The buffer after a call, and after a sequence of calls. *)
Definition do_call (b : Buffer.t) (o : buffer_op) : result Buffer.t :=
  match o with
  | CallAdd bt => add_batch b bt
  | CallUpdate ind priority => Buffer.update_priority b ind priority
  end.

Fixpoint do_calls (b : Buffer.t) (os : list buffer_op) : result Buffer.t :=
  match os with
  | [] => Ok b
  | o :: os' => b' ← do_call b o; do_calls b' os'
  end.

(** The arguments a training loop hands over: batches that fit, for
    [update_priority] slots of the buffer with one priority each. *)
Definition valid_call (b : Buffer.t) (o : buffer_op) : Prop :=
  match o with
  | CallAdd bt => fits (Buffer.max_size b) bt
  | CallUpdate ind priority =>
      Forall (fun i => (0 <= i < Buffer.max_size b)%Z) ind
      /\ length priority = length ind
      /\ priority <> []
  end.

(** Every call of the sequence is valid for the buffer it meets. *)
Fixpoint valid_calls (b : Buffer.t) (os : list buffer_op) : Prop :=
  match os with
  | [] => True
  | o :: os' =>
      valid_call b o
      /\ forall b', do_call b o = Ok b' -> valid_calls b' os'
  end.

(** What the calls keep of a prioritized buffer of the given
    capacity. *)
Definition ready (capacity : Z) (b : Buffer.t) : Prop :=
  wf_buffer b
  /\ Buffer.max_size b = capacity
  /\ Buffer.prioritized b = true
  /\ reachable capacity (Buffer.tree b)
  /\ (1 <= Buffer.max_priority b)%R.

(** The buffer [Buffer(1, 2, 2, device, True)] builds. *)
Definition fresh_buffer : Buffer.t :=
  {| Buffer.batch_size := 2;
     Buffer.max_size := 2;
     Buffer.ptr := 0;
     Buffer.size := 0;
     Buffer.state := replicate 2 [0%R];
     Buffer.action := replicate 2 [0%R];
     Buffer.next_state := replicate 2 [0%R];
     Buffer.reward := replicate 2 [0%R];
     Buffer.not_done := replicate 2 [0%R];
     Buffer.seeds := replicate 2 [0%R];
     Buffer.prioritized := true;
     Buffer.tree := {| SumTree.nodes := SumTree.build_levels 2 1 |};
     Buffer.max_priority := 1;
     Buffer.beta := 0.4 |}.

(** The shape of a prioritized buffer of the given capacity: the write
    pointer inside the arrays, six arrays of [capacity] rows, a tree
    with the levels of [SumTree(capacity)], and [max_priority] not
    below its initial value 1. *)
Definition in_shape (capacity : Z) (b : Buffer.t) : Prop :=
  Buffer.max_size b = capacity
  /\ Buffer.prioritized b = true
  /\ (0 <= Buffer.ptr b < capacity)%Z
  /\ Forall (fun arr => length arr = Z.to_nat capacity) (columns b)
  /\ map length (SumTree.nodes (Buffer.tree b)) = level_sizes capacity
  /\ (1 <= Buffer.max_priority b)%R.

(** A call of [SumTree] as a call of [Tree] over [real]. *)
Definition as_call (o : tree_op) : Tree.call real :=
  match o with
  | OpSet i p => Tree.CallSet (A := real) i p
  | OpBatchSet ix ps => Tree.CallBatchSet (A := real) ix ps
  end.

(** One transition and a priority update for its slot. *)
Definition example_writes : list buffer_op :=
  [CallAdd (batch_of [{| t_state := [7%R]; t_action := [2%R];
                         t_next_state := [8%R]; t_reward := [1%R];
                         t_done := 0; t_seeds := [3%R] |}]);
   CallUpdate [0%Z] [2%R]].

(** * Properties *)

(** ** Results *)

Lemma bind_Ok {A B} (r : result A) (k : A -> result B) (y : B) :
  r ≫= k = Ok y -> exists a, r = Ok a /\ k a = Ok y.
Proof. destruct r as [a|e]; simpl; [eauto | discriminate]. Qed.

Ltac rsimpl := cbn [mbind result_bind mret result_ret].

Ltac inv_bind H :=
  let a := fresh "a" in
  let Ha := fresh "Ha" in
  apply bind_Ok in H; destruct H as (a & Ha & H).

(** ** NumPy indexing *)

Lemma index_unfold len i :
  Np.index len i =
    if decide (0 <= i < Z.of_nat len)%Z then Ok (Z.to_nat i)
    else if decide (- Z.of_nat len <= i < 0)%Z
         then Ok (Z.to_nat (i + Z.of_nat len))
         else Raise IndexError.
Proof.
  unfold Np.index.
  destruct (Z.leb_spec 0 i), (Z.ltb_spec i (Z.of_nat len)),
    (Z.ltb_spec i 0), (Z.leb_spec (- Z.of_nat len) i);
    repeat case_decide; simpl; (reflexivity || lia).
Qed.

Lemma index_Ok len i k :
  Np.index len i = Ok k ->
  (- Z.of_nat len <= i < Z.of_nat len)%Z /\ k < len.
Proof.
  rewrite index_unfold. intros H.
  repeat case_decide; inversion H; subst; lia.
Qed.

Lemma index_nonneg len i :
  (0 <= i < Z.of_nat len)%Z -> Np.index len i = Ok (Z.to_nat i).
Proof. intros H. rewrite index_unfold. case_decide; [reflexivity | lia]. Qed.

Lemma index_succeeds len i :
  (- Z.of_nat len <= i < Z.of_nat len)%Z -> exists k, Np.index len i = Ok k.
Proof.
  intros H. rewrite index_unfold. repeat case_decide; eauto; lia.
Qed.

Lemma index_fails len i :
  ~ (- Z.of_nat len <= i < Z.of_nat len)%Z -> Np.index len i = Raise IndexError.
Proof.
  intros H. rewrite index_unfold. repeat case_decide; (reflexivity || lia).
Qed.

(** Halving an index of a level of even length gives the index of its
    parent. *)
Lemma index_half len i k :
  Np.index (2 * len) i = Ok k -> Np.index len (i / 2) = Ok (k / 2).
Proof.
  rewrite !index_unfold. intros H.
  assert (Hdiv : forall z, (0 <= z)%Z ->
            Z.to_nat (z / 2) = Z.to_nat z / 2).
  { intros z Hz. apply Nat2Z.inj. rewrite Nat2Z.inj_div.
    rewrite !Z2Nat.id by (Z.div_mod_to_equations; lia). reflexivity. }
  repeat case_decide; inversion H; subst; clear H;
    try (exfalso; Z.div_mod_to_equations; lia).
  - f_equal. apply Hdiv. lia.
  - f_equal. rewrite <- Hdiv by lia. f_equal.
    Z.div_mod_to_equations. lia.
Qed.

Lemma get_Ok {A} (a : list A) i x :
  Np.get a i = Ok x -> exists k, Np.index (length a) i = Ok k /\ a !! k = Some x.
Proof.
  unfold Np.get. intros H. inv_bind H.
  exists a0. split; [assumption|].
  destruct (a !! a0); inversion H; reflexivity.
Qed.

Lemma get_succeeds {A} (a : list A) i :
  (- Z.of_nat (length a) <= i < Z.of_nat (length a))%Z ->
  exists x, Np.get a i = Ok x.
Proof.
  intros H. destruct (index_succeeds _ _ H) as [k Hk].
  unfold Np.get. rewrite Hk. simpl.
  apply index_Ok in Hk as [_ Hk].
  destruct (lookup_lt_is_Some_2 a k Hk) as [x Hx].
  rewrite Hx. eauto.
Qed.

Lemma take_at_succeeds {A} (a : list A) ind :
  Forall (fun i => (- Z.of_nat (length a) <= i < Z.of_nat (length a))%Z) ind ->
  exists xs, Np.take_at a ind = Ok xs /\ length xs = length ind.
Proof.
  induction 1 as [|i ind Hi _ IH]; simpl.
  - exists []. split; reflexivity.
  - destruct (get_succeeds a i Hi) as [x Hx]. destruct IH as (xs & Hxs & Hl).
    rewrite Hx. simpl. rewrite Hxs. simpl.
    exists (x :: xs). split; [reflexivity | simpl; congruence].
Qed.

Lemma add_at_Ok a i d a' :
  Np.add_at a i d = Ok a' ->
  exists k, Np.index (length a) i = Ok k
            /\ a' = alter (fun x => (x + d)%R) k a.
Proof.
  unfold Np.add_at. intros H. inv_bind H. inversion H. eauto.
Qed.

Lemma add_at_length a i d a' : Np.add_at a i d = Ok a' -> length a' = length a.
Proof.
  intros H. apply add_at_Ok in H as (k & _ & ->). apply length_alter.
Qed.

Lemma add_at_succeeds a i d :
  (- Z.of_nat (length a) <= i < Z.of_nat (length a))%Z ->
  exists a', Np.add_at a i d = Ok a'.
Proof.
  intros H. destruct (index_succeeds _ _ H) as [k Hk].
  unfold Np.add_at. rewrite Hk. simpl. eauto.
Qed.

Lemma add_at_many_length a ind ds a' :
  Np.add_at_many a ind ds = Ok a' -> length a' = length a.
Proof.
  revert a ds. induction ind as [|i ind IH]; intros a [|d ds] H;
    simpl in H; try discriminate.
  - inversion H. reflexivity.
  - inv_bind H. apply IH in H. apply add_at_length in Ha. congruence.
Qed.

Lemma add_at_many_succeeds a ind ds :
  Forall (fun i => (- Z.of_nat (length a) <= i < Z.of_nat (length a))%Z) ind ->
  length ds = length ind ->
  exists a', Np.add_at_many a ind ds = Ok a'.
Proof.
  intros Hall. revert a ds Hall.
  induction ind as [|i ind IH]; intros a [|d ds] Hall Hlen;
    simpl in *; try discriminate; eauto.
  inversion Hall as [|? ? Hi Hrest]; subst.
  destruct (add_at_succeeds a i d Hi) as [a1 Ha1]. rewrite Ha1. simpl.
  apply IH; [|lia].
  rewrite (add_at_length _ _ _ _ Ha1). assumption.
Qed.

(** ** Levels and their pair sums *)

Lemma pair_ind (P : list R -> Prop) :
  P [] -> (forall a, P [a]) ->
  (forall a c l, P l -> P (a :: c :: l)) ->
  forall l, P l.
Proof.
  intros H0 H1 H2.
  assert (H : forall l, P l /\ forall a, P (a :: l)).
  { induction l as [|x l [IH1 IH2]]; split; auto. }
  intros l. apply H.
Qed.

Lemma length_pair_sums l : length (pair_sums l) = length l / 2.
Proof.
  induction l as [| a | a c l IH] using pair_ind; try reflexivity.
  cbn [pair_sums length]. rewrite IH.
  change (S (S (length l))) with (1 * 2 + length l).
  rewrite Nat.div_add_l by lia. reflexivity.
Qed.

Lemma pair_sums_alter d l k :
  k < 2 * (length l / 2) ->
  pair_sums (alter (fun x => (x + d)%R) k l)
  = alter (fun x => (x + d)%R) (k / 2) (pair_sums l).
Proof.
  revert k. induction l as [| a | a c l IH] using pair_ind; intros k Hk.
  - simpl in Hk. lia.
  - simpl in Hk. lia.
  - destruct k as [|[|k]].
    + simpl. f_equal. lra.
    + simpl. f_equal. lra.
    + change (alter (fun x => (x + d)%R) (S (S k)) (a :: c :: l))
        with (a :: c :: alter (fun x => (x + d)%R) k l).
      cbn [pair_sums].
      change (S (S k)) with (1 * 2 + k).
      rewrite Nat.div_add_l by lia.
      change (1 + k / 2) with (S (k / 2)).
      cbn [alter list_alter]. f_equal. apply IH.
      cbn [length] in Hk.
      change (S (S (length l))) with (1 * 2 + length l) in Hk.
      rewrite Nat.div_add_l in Hk by lia. lia.
Qed.

Lemma pair_sums_lookup l i x :
  pair_sums l !! i = Some x ->
  exists a c, l !! (2 * i) = Some a /\ l !! (2 * i + 1) = Some c
              /\ x = (a + c)%R.
Proof.
  revert i. induction l as [| a | a c l IH] using pair_ind; intros i H;
    try discriminate.
  destruct i as [|i].
  - simpl in H. inversion H. exists a, c. auto.
  - cbn [pair_sums] in H. rewrite lookup_cons in H.
    destruct (IH _ H) as (a' & c' & H1 & H2 & H3).
    exists a', c'. replace (2 * S i) with (S (S (2 * i))) by lia.
    auto.
Qed.

Lemma sumR_pair_sums l n : length l = 2 * n -> sumR (pair_sums l) = sumR l.
Proof.
  revert n. induction l as [| a | a c l IH] using pair_ind; intros n Hn.
  - reflexivity.
  - simpl in Hn. lia.
  - cbn [pair_sums sumR foldr]. fold (sumR (pair_sums l)). fold (sumR l).
    rewrite (IH (n - 1)) by (simpl in Hn; lia). lra.
Qed.

Lemma add_at_child P C i d C' :
  child_of P C -> Np.add_at C i d = Ok C' ->
  Np.add_at P (i / 2) d = Ok (pair_sums C') /\ child_of (pair_sums C') C'.
Proof.
  intros [Hlen ->] H.
  pose proof (add_at_length _ _ _ _ H) as Hlen'.
  apply add_at_Ok in H as (k & Hk & ->).
  rewrite Hlen in Hk. pose proof (index_half _ _ _ Hk) as Hk2.
  apply index_Ok in Hk as [_ Hk].
  split.
  - unfold Np.add_at. rewrite Hk2. simpl. f_equal.
    symmetry. apply pair_sums_alter.
    rewrite length_pair_sums in Hlen, Hk. lia.
  - split; [|reflexivity].
    rewrite length_pair_sums, length_alter.
    rewrite length_pair_sums in Hlen. lia.
Qed.

Lemma add_at_many_child P C ind ds C' :
  child_of P C -> Np.add_at_many C ind ds = Ok C' ->
  Np.add_at_many P (map (fun i => (i / 2)%Z) ind) ds = Ok (pair_sums C')
  /\ child_of (pair_sums C') C'.
Proof.
  revert P C ds. induction ind as [|i ind IH]; intros P C [|d ds] HPC H;
    simpl in H; try discriminate.
  - inversion H; subst. destruct HPC as [Hl ->]. simpl.
    split; [reflexivity | split; [assumption | reflexivity]].
  - inv_bind H.
    destruct (add_at_child _ _ _ _ _ HPC Ha) as [H1 H2].
    simpl. rewrite H1. simpl. eapply IH; eassumption.
Qed.

(** ** Chains of levels *)

Lemma adjacent_nil {A} (Rel : A -> A -> Prop) : adjacent Rel [].
Proof. intros k x y H. discriminate. Qed.

Lemma adjacent_one {A} (Rel : A -> A -> Prop) x : adjacent Rel [x].
Proof. intros k a c _ H. discriminate. Qed.

Lemma adjacent_cons {A} (Rel : A -> A -> Prop) x y L :
  adjacent Rel (x :: y :: L) <-> Rel x y /\ adjacent Rel (y :: L).
Proof.
  split.
  - intros H. split.
    + apply (H 0); reflexivity.
    + intros k a c Ha Hc. apply (H (S k)); assumption.
  - intros [Hxy H] [|k] a c Ha Hc.
    + simpl in Ha, Hc. inversion Ha; inversion Hc; subst. assumption.
    + apply (H k); assumption.
Qed.

Lemma adjacent_reverse {A} (Rel : A -> A -> Prop) L :
  adjacent Rel L -> adjacent (flip Rel) (reverse L).
Proof.
  intros H k x y Hx Hy.
  assert (Hk : S k < length L).
  { apply lookup_lt_Some in Hy. rewrite length_reverse in Hy. assumption. }
  rewrite reverse_lookup in Hx, Hy by lia.
  apply (H (length L - S (S k))); [assumption|].
  replace (S (length L - S (S k))) with (length L - S k) by lia.
  assumption.
Qed.

Lemma adjacent_unreverse {A} (Rel : A -> A -> Prop) L :
  adjacent (flip Rel) (reverse L) -> adjacent Rel L.
Proof.
  intros H. apply adjacent_reverse in H.
  rewrite reverse_involutive in H. exact H.
Qed.

(** The loop of [set], on a chain of levels given from the leaves up. *)
Lemma add_up_chain c rest i d :
  adjacent (flip child_of) (c :: rest) ->
  (- Z.of_nat (length c) <= i < Z.of_nat (length c))%Z ->
  exists c' rest',
    SumTree.add_up (c :: rest) i d = Ok (c' :: rest')
    /\ Np.add_at c i d = Ok c'
    /\ adjacent (flip child_of) (c' :: rest')
    /\ map length (c' :: rest') = map length (c :: rest).
Proof.
  revert c i. induction rest as [|p rest IH]; intros c i Hadj Hi.
  - destruct (add_at_succeeds c i d Hi) as [c' Hc'].
    exists c', []. simpl. rewrite Hc'. simpl.
    split_and!; auto using adjacent_one.
    f_equal. eapply add_at_length; eassumption.
  - apply adjacent_cons in Hadj as [Hpc Hadj]. unfold flip in Hpc.
    destruct (add_at_succeeds c i d Hi) as [c' Hc'].
    destruct (add_at_child _ _ _ _ _ Hpc Hc') as [Hp' Hpc'].
    assert (Hi2 : (- Z.of_nat (length p) <= i / 2 < Z.of_nat (length p))%Z).
    { destruct Hpc as [Hl _]. rewrite Hl in Hi.
      Z.div_mod_to_equations. lia. }
    destruct (IH p (i / 2)%Z Hadj Hi2) as (p' & rest' & H1 & H2 & H3 & H4).
    rewrite Hp' in H2. inversion H2; subst p'.
    exists c', (pair_sums c' :: rest').
    change (SumTree.add_up (c :: p :: rest) i d)
      with (Np.add_at c i d ≫= fun nds' =>
            SumTree.add_up (p :: rest) (i / 2)%Z d ≫= fun rest' =>
            Ok (nds' :: rest')).
    rewrite Hc'. simpl. simpl in H1. rewrite H1. simpl.
    split_and!; auto.
    + apply adjacent_cons. split; assumption.
    + simpl. simpl in H4. rewrite H4.
      rewrite (add_at_length _ _ _ _ Hc'). reflexivity.
Qed.

(** The loop of [batch_set]. *)
Lemma add_up_many_chain c rest ind ds :
  adjacent (flip child_of) (c :: rest) ->
  Forall (fun i => (- Z.of_nat (length c) <= i < Z.of_nat (length c))%Z) ind ->
  length ds = length ind ->
  exists c' rest',
    SumTree.add_up_many (c :: rest) ind ds = Ok (c' :: rest')
    /\ Np.add_at_many c ind ds = Ok c'
    /\ adjacent (flip child_of) (c' :: rest')
    /\ map length (c' :: rest') = map length (c :: rest).
Proof.
  revert c ind. induction rest as [|p rest IH]; intros c ind Hadj Hi Hlen.
  - destruct (add_at_many_succeeds c ind ds Hi Hlen) as [c' Hc'].
    exists c', []. simpl. rewrite Hc'. simpl.
    split_and!; auto using adjacent_one.
    f_equal. eapply add_at_many_length; eassumption.
  - apply adjacent_cons in Hadj as [Hpc Hadj]. unfold flip in Hpc.
    destruct (add_at_many_succeeds c ind ds Hi Hlen) as [c' Hc'].
    destruct (add_at_many_child _ _ _ _ _ Hpc Hc') as [Hp' Hpc'].
    assert (Hi2 : Forall (fun i => (- Z.of_nat (length p) <= i
                                    < Z.of_nat (length p))%Z)
                    (map (fun i => (i / 2)%Z) ind)).
    { apply Forall_map. eapply Forall_impl; [exact Hi|].
      intros i Hi'. simpl. destruct Hpc as [Hl _]. rewrite Hl in Hi'.
      Z.div_mod_to_equations. lia. }
    destruct (IH p _ Hadj Hi2) as (p' & rest' & H1 & H2 & H3 & H4).
    { rewrite length_map. assumption. }
    rewrite Hp' in H2. inversion H2; subst p'.
    exists c', (pair_sums c' :: rest').
    change (SumTree.add_up_many (c :: p :: rest) ind ds)
      with (Np.add_at_many c ind ds ≫= fun nds' =>
            SumTree.add_up_many (p :: rest)
              (map (fun i => (i / 2)%Z) ind) ds ≫= fun rest' =>
            Ok (nds' :: rest')).
    rewrite Hc'. simpl. simpl in H1. rewrite H1. simpl.
    split_and!; auto.
    + apply adjacent_cons. split; assumption.
    + simpl. simpl in H4. rewrite H4.
      rewrite (add_at_many_length _ _ _ _ Hc'). reflexivity.
Qed.

(** ** The tree *)

Lemma map_reverse {A B} (f : A -> B) l : map f (reverse l) = reverse (map f l).
Proof.
  induction l as [|x l IH]; [reflexivity|].
  simpl. rewrite !reverse_cons, map_app, IH. reflexivity.
Qed.

Lemma wf_leaves tr :
  wf_tree tr ->
  exists lf rest, reverse (SumTree.nodes tr) = lf :: rest
                  /\ SumTree.leaves tr = Ok lf
                  /\ leaf_count tr = length lf.
Proof.
  intros [Hroot _]. unfold SumTree.leaves, leaf_count.
  rewrite <- head_reverse. rewrite <- (head_reverse (map length _)).
  rewrite <- map_reverse.
  destruct (reverse (SumTree.nodes tr)) as [|lf rest] eqn:E.
  - apply (f_equal reverse) in E. rewrite reverse_involutive in E.
    rewrite E in Hroot. discriminate.
  - exists lf, rest. simpl. auto.
Qed.

Lemma wf_total tr :
  wf_tree tr -> exists x rest, SumTree.nodes tr = [x] :: rest
                               /\ SumTree.total tr = Ok x.
Proof.
  intros [Hroot _]. unfold SumTree.total.
  destruct (SumTree.nodes tr) as [|[|x [|y l]] rest]; try discriminate.
  eauto.
Qed.

Lemma wf_of_reverse tr lv :
  SumTree.nodes tr = reverse lv ->
  adjacent (flip child_of) lv ->
  head (map length (reverse lv)) = Some 1 ->
  wf_tree tr.
Proof.
  intros E Hadj Hroot. split; rewrite E; [assumption|].
  apply adjacent_unreverse. rewrite reverse_involutive. assumption.
Qed.

(** [set] on a well-formed tree: any index NumPy accepts for the leaf
    level succeeds, the leaf gets the new priority, the shape and the
    sums are kept. *)
Lemma set_wf tr i p :
  wf_tree tr ->
  (- Z.of_nat (leaf_count tr) <= i < Z.of_nat (leaf_count tr))%Z ->
  exists tr' lf k,
    SumTree.set tr i p = Ok tr'
    /\ SumTree.leaves tr = Ok lf
    /\ Np.index (length lf) i = Ok k
    /\ SumTree.leaves tr' = Ok (<[k := p]> lf)
    /\ wf_tree tr'
    /\ map length (SumTree.nodes tr') = map length (SumTree.nodes tr).
Proof.
  intros Hwf Hi.
  destruct (wf_leaves tr Hwf) as (lf & rest & Erev & Hlf & Hcount).
  rewrite Hcount in Hi.
  destruct (index_succeeds _ _ Hi) as [k Hk].
  pose proof (index_Ok _ _ _ Hk) as [_ Hklt].
  destruct (lookup_lt_is_Some_2 lf k Hklt) as [old Hold].
  assert (Hadj : adjacent (flip child_of) (lf :: rest)).
  { rewrite <- Erev. apply adjacent_reverse. apply Hwf. }
  destruct (add_up_chain lf rest i (p - old) Hadj Hi)
    as (c' & rest' & Hup & Hc' & Hadj' & Hlens).
  exists {| SumTree.nodes := reverse (c' :: rest') |}, lf, k.
  assert (Hmap : map length (reverse (c' :: rest'))
                 = map length (SumTree.nodes tr)).
  { rewrite map_reverse, Hlens, <- map_reverse, <- Erev.
    rewrite reverse_involutive. reflexivity. }
  split_and!; auto.
  - unfold SumTree.set. rewrite Hlf. rsimpl.
    unfold Np.get. rewrite Hk. rsimpl. rewrite Hold. rsimpl.
    rewrite Erev, Hup. reflexivity.
  - unfold SumTree.leaves. simpl. rewrite last_reverse. simpl.
    f_equal. apply add_at_Ok in Hc' as (k' & Hk' & ->).
    rewrite Hk in Hk'. inversion Hk'; subst k'.
    apply list_eq. intros j.
    destruct (decide (j = k)) as [->|Hne].
    + rewrite list_lookup_alter, list_lookup_insert_eq by assumption.
      rewrite decide_True by reflexivity.
      rewrite Hold. simpl. f_equal. lra.
    + rewrite list_lookup_alter_ne, list_lookup_insert_ne by congruence.
      reflexivity.
  - eapply wf_of_reverse; [reflexivity | assumption |].
    rewrite Hmap. apply Hwf.
Qed.

Lemma insert_first_Forall (Q : Z * nat -> Prop) v pos u :
  Q (v, pos) -> Forall Q u -> Forall Q (Np.insert_first v pos u).
Proof.
  intros Hv. induction 1 as [|[w q] u Hw Hu IH]; simpl.
  - constructor; [assumption | constructor].
  - destruct (v <? w)%Z; [repeat constructor; assumption|].
    destruct (v =? w)%Z; constructor; assumption.
Qed.

Lemma unique_from_Forall (Q : Z * nat -> Prop) xs :
  forall pos u,
    Forall Q u ->
    (forall k x, xs !! k = Some x -> Q (x, pos + k)) ->
    Forall Q (Np.unique_from pos xs u).
Proof.
  induction xs as [|x xs IH]; intros pos u Hu Hxs; simpl; [assumption|].
  apply IH.
  - apply insert_first_Forall; [|assumption].
    replace pos with (pos + 0) by lia. apply Hxs. reflexivity.
  - intros k y Hy. replace (S pos + k) with (pos + S k) by lia.
    apply Hxs. assumption.
Qed.

Lemma unique_spec (Q : Z -> Prop) xs uix upos :
  Np.unique xs = (uix, upos) ->
  Forall Q xs ->
  Forall Q uix
  /\ Forall (fun j => (0 <= j < Z.of_nat (length xs))%Z) upos
  /\ length upos = length uix.
Proof.
  unfold Np.unique. intros E HQ. inversion E; subst; clear E.
  assert (H : Forall (fun p => Q (fst p) /\ snd p < length xs)
                (Np.unique_from 0 xs [])).
  { apply unique_from_Forall; [constructor|].
    intros k x Hx. simpl. split.
    - rewrite Forall_forall in HQ. apply HQ.
      eapply list_elem_of_lookup_2. eassumption.
    - apply lookup_lt_Some in Hx. assumption. }
  split_and!.
  - apply Forall_map. eapply Forall_impl; [exact H|]. simpl. tauto.
  - apply Forall_map. eapply Forall_impl; [exact H|]. simpl. lia.
  - rewrite !length_map. reflexivity.
Qed.

(** [batch_set] on a well-formed tree, with indices NumPy accepts for
    the leaf level and one priority per index. *)
Lemma batch_set_wf tr ix ps :
  wf_tree tr ->
  Forall (fun i => (- Z.of_nat (leaf_count tr) <= i
                    < Z.of_nat (leaf_count tr))%Z) ix ->
  length ps = length ix ->
  exists tr',
    SumTree.batch_set tr ix ps = Ok tr'
    /\ wf_tree tr'
    /\ map length (SumTree.nodes tr') = map length (SumTree.nodes tr).
Proof.
  intros Hwf Hix Hlen.
  destruct (wf_leaves tr Hwf) as (lf & rest & Erev & Hlf & Hcount).
  rewrite Hcount in Hix.
  unfold SumTree.batch_set.
  destruct (Np.unique ix) as [uix upos] eqn:Eu.
  destruct (unique_spec _ _ _ _ Eu Hix) as (Huix & Hupos & Hul).
  destruct (take_at_succeeds ps upos) as (newp & Hnewp & Hnl).
  { rewrite Hlen. eapply Forall_impl; [exact Hupos|]. simpl. lia. }
  destruct (take_at_succeeds lf uix Huix) as (old & Hold & Hol).
  assert (Hadj : adjacent (flip child_of) (lf :: rest)).
  { rewrite <- Erev. apply adjacent_reverse. apply Hwf. }
  destruct (add_up_many_chain lf rest uix (zip_with Rminus newp old)
              Hadj Huix)
    as (c' & rest' & Hup & Hc' & Hadj' & Hlens).
  { rewrite length_zip_with. lia. }
  exists {| SumTree.nodes := reverse (c' :: rest') |}.
  assert (Hmap : map length (reverse (c' :: rest'))
                 = map length (SumTree.nodes tr)).
  { rewrite map_reverse, Hlens, <- map_reverse, <- Erev.
    rewrite reverse_involutive. reflexivity. }
  split_and!; auto.
  - rewrite Hnewp. rsimpl. rewrite Hlf. rsimpl. rewrite Hold. rsimpl.
    rewrite Erev, Hup. reflexivity.
  - eapply wf_of_reverse; [reflexivity | assumption |].
    rewrite Hmap. apply Hwf.
Qed.

(** Construction. *)
Lemma pair_sums_zeros n :
  pair_sums (replicate (n * 2) 0%R) = replicate n 0%R.
Proof.
  induction n as [|n IH]; [reflexivity|].
  simpl. rewrite IH. f_equal. lra.
Qed.

Lemma build_levels_adjacent n s :
  adjacent child_of (SumTree.build_levels n s).
Proof.
  revert s. induction n as [|[|n] IH]; intros s.
  - apply adjacent_nil.
  - apply adjacent_one.
  - change (SumTree.build_levels (S (S n)) s)
      with (replicate s 0%R :: SumTree.build_levels (S n) (s * 2)).
    change (SumTree.build_levels (S n) (s * 2))
      with (replicate (s * 2) 0%R :: SumTree.build_levels n (s * 2 * 2)).
    apply adjacent_cons. split.
    + split; [rewrite !length_replicate; lia|].
      symmetry. apply pair_sums_zeros.
    + apply (IH (s * 2)).
Qed.

Lemma build_levels_last n s :
  last (map length (SumTree.build_levels (S n) s)) = Some (s * 2 ^ n).
Proof.
  revert s. induction n as [|n IH]; intros s.
  - simpl. rewrite length_replicate. f_equal. lia.
  - change (SumTree.build_levels (S (S n)) s)
      with (replicate s 0%R :: SumTree.build_levels (S n) (s * 2)).
    change (map length (replicate s 0%R :: SumTree.build_levels (S n) (s * 2)))
      with (length (replicate s 0%R)
            :: map length (SumTree.build_levels (S n) (s * 2))).
    destruct (map length (SumTree.build_levels (S n) (s * 2))) as [|y l] eqn:E.
    + specialize (IH (s * 2)). rewrite E in IH. discriminate.
    + rewrite last_cons_cons. rewrite <- E, IH. f_equal.
      rewrite Nat.pow_succ_r'. lia.
Qed.

Lemma init_wf capacity :
  (1 <= capacity)%Z ->
  exists tr, SumTree.init capacity = Ok tr
             /\ wf_tree tr
             /\ (capacity <= Z.of_nat (leaf_count tr))%Z.
Proof.
  intros Hcap. unfold SumTree.init.
  destruct (Z.eqb_spec capacity 0); [lia|].
  destruct (Z.ltb_spec capacity 0); [lia|].
  eexists. split; [reflexivity|].
  pose proof (Z.log2_up_nonneg capacity) as Hnn.
  replace (Z.to_nat (Z.log2_up capacity + 1))
    with (S (Z.to_nat (Z.log2_up capacity))) by lia.
  split_and!.
  - split; [|apply build_levels_adjacent].
    simpl. rewrite ?length_replicate. reflexivity.
  - unfold leaf_count. cbn [SumTree.nodes].
    rewrite build_levels_last. simpl.
    rewrite Nat.add_0_r, Nat2Z.inj_pow, Z2Nat.id by assumption.
    destruct (Z.eq_dec capacity 1%Z) as [->|Hne]; [simpl; lia|].
    apply Z.log2_up_spec. lia.
Qed.

(** From the chain of levels to the invariant, node by node. *)
Lemma wf_children_sum tr : wf_tree tr -> children_sum tr.
Proof.
  intros [_ Hadj] l P C i x HP HC Hx.
  destruct (Hadj l P C HP HC) as [_ ->].
  apply pair_sums_lookup. assumption.
Qed.

Lemma chain_sum L :
  forall P lf,
    adjacent child_of (P :: L) -> last (P :: L) = Some lf ->
    sumR P = sumR lf.
Proof.
  induction L as [|C L IH]; intros P lf Hadj Hlast.
  - simpl in Hlast. inversion Hlast. reflexivity.
  - apply adjacent_cons in Hadj as [[Hlen ->] Hadj].
    rewrite last_cons_cons in Hlast.
    rewrite (sumR_pair_sums C (length (pair_sums C))) by assumption.
    apply IH; assumption.
Qed.

Lemma wf_root_sum tr : wf_tree tr -> root_sum tr.
Proof.
  intros Hwf.
  destruct (wf_total tr Hwf) as (x & rest & E & Htot).
  destruct (wf_leaves tr Hwf) as (lf & rest' & _ & Hlf & _).
  exists x, lf. split_and!; [assumption | assumption |].
  assert (Hlast : last (SumTree.nodes tr) = Some lf).
  { unfold SumTree.leaves in Hlf.
    destruct (last (SumTree.nodes tr)); inversion Hlf; reflexivity. }
  destruct Hwf as [_ Hadj]. rewrite E in Hadj, Hlast.
  rewrite <- (chain_sum rest [x] lf Hadj Hlast). simpl. lra.
Qed.

Lemma leaf_count_lengths tr tr' :
  map length (SumTree.nodes tr') = map length (SumTree.nodes tr) ->
  leaf_count tr' = leaf_count tr.
Proof. unfold leaf_count. intros ->. reflexivity. Qed.

Lemma run_ops_wf capacity ops :
  forall tr0,
    wf_tree tr0 ->
    (capacity <= Z.of_nat (leaf_count tr0))%Z ->
    Forall (in_range capacity) ops ->
    exists tr,
      run_ops tr0 ops = Ok tr
      /\ wf_tree tr
      /\ map length (SumTree.nodes tr) = map length (SumTree.nodes tr0).
Proof.
  induction ops as [|o ops IH]; intros tr0 Hwf Hcap Hops.
  - exists tr0. simpl. auto.
  - inversion Hops as [|? ? Ho Hrest]; subst.
    assert (Hstep : exists tr1,
               run_op tr0 o = Ok tr1 /\ wf_tree tr1
               /\ map length (SumTree.nodes tr1)
                  = map length (SumTree.nodes tr0)).
    { destruct o as [i p | ix ps]; simpl in Ho |- *.
      - destruct (set_wf tr0 i p Hwf) as (tr1 & lf & k & H1 & _ & _ & _ & H2 & H3);
          [lia | eauto].
      - destruct Ho as [Hix Hlen].
        apply batch_set_wf; [assumption | | assumption].
        eapply Forall_impl; [exact Hix|]. simpl. lia. }
    destruct Hstep as (tr1 & Hrun & Hwf1 & Hlen1).
    destruct (IH tr1 Hwf1) as (tr & H1 & H2 & H3); [|assumption|].
    { rewrite (leaf_count_lengths _ _ Hlen1). assumption. }
    exists tr. simpl. rewrite Hrun. rsimpl.
    split_and!; [assumption | assumption | congruence].
Qed.

Lemma reachable_wf capacity tr :
  (1 <= capacity)%Z -> reachable capacity tr ->
  wf_tree tr /\ leaf_count tr = Z.to_nat (2 ^ Z.log2_up capacity).
Proof.
  intros Hcap (tr0 & ops & Hinit & Hops & Hrun).
  destruct (init_wf capacity Hcap) as (tr0' & Hinit' & Hwf0 & Hcount0).
  rewrite Hinit in Hinit'. inversion Hinit'; subst tr0'.
  destruct (run_ops_wf capacity ops tr0 Hwf0 Hcount0 Hops)
    as (tr' & Hrun' & Hwf & Hlens).
  rewrite Hrun in Hrun'. inversion Hrun'; subst tr'.
  split; [assumption|].
  rewrite (leaf_count_lengths _ _ Hlens).
  unfold SumTree.init in Hinit.
  destruct (Z.eqb_spec capacity 0); [lia|].
  destruct (Z.ltb_spec capacity 0); [lia|].
  inversion Hinit; subst tr0. unfold leaf_count. cbn [SumTree.nodes].
  pose proof (Z.log2_up_nonneg capacity) as Hnn.
  replace (Z.to_nat (Z.log2_up capacity + 1))
    with (S (Z.to_nat (Z.log2_up capacity))) by lia.
  rewrite build_levels_last. simpl.
  apply Nat2Z.inj.
  rewrite Nat.add_0_r, Nat2Z.inj_pow, !Z2Nat.id; lia.
Qed.

(** ** The tree in any arithmetic *)

Section AnyArithmetic.

Variable A : arith.

Lemma tree_add_at_nonneg (a : list (num A)) i d :
  (0 <= i < Z.of_nat (length a))%Z ->
  Tree.add_at A a i d = Ok (alter (fun x => plus A x d) (Z.to_nat i) a).
Proof.
  intros Hi. unfold Tree.add_at. rewrite index_nonneg by assumption.
  reflexivity.
Qed.

(** The loop of [set]: every level on the way up gets the difference
    added at the index of the leaf halved once per level. *)
Lemma tree_add_up_path (d : num A) (levels : list (list (num A))) :
  forall i,
    adjacent halves levels ->
    (forall c, head levels = Some c -> (0 <= i < Z.of_nat (length c))%Z) ->
    exists levels',
      Tree.add_up A levels i d = Ok levels'
      /\ length levels' = length levels
      /\ forall k lev,
           levels !! k = Some lev ->
           levels' !! k
           = Some (alter (fun x => plus A x d)
                     (Z.to_nat (i / 2 ^ Z.of_nat k)) lev).
Proof.
  induction levels as [|c rest IH]; intros i Hadj Hi.
  - exists []. split_and!; [reflexivity | reflexivity |].
    intros k lev Hk. discriminate.
  - specialize (Hi c eq_refl).
    destruct (IH (i / 2)%Z) as (rest' & Hrest & Hlen & Hpath).
    { intros k x y Hx Hy. apply (Hadj (S k)); assumption. }
    { intros p Hp. destruct rest as [|p' rest]; [discriminate|].
      inversion Hp; subst p'.
      assert (Hcp : halves c p) by (apply (Hadj 0); reflexivity).
      unfold halves in Hcp. Z.div_mod_to_equations. lia. }
    exists (alter (fun x => plus A x d) (Z.to_nat i) c :: rest').
    cbn [Tree.add_up]. rewrite tree_add_at_nonneg by assumption. rsimpl.
    rewrite Hrest. rsimpl.
    split_and!; [reflexivity | simpl; congruence |].
    intros [|k] lev Hk.
    + inversion Hk; subst lev. cbn [lookup list_lookup].
      change (Z.of_nat 0) with 0%Z. rewrite Z.pow_0_r, Z.div_1_r.
      reflexivity.
    + assert (Hk' : rest !! k = Some lev) by exact Hk.
      transitivity (rest' !! k); [reflexivity|].
      rewrite (Hpath k lev Hk'). f_equal. f_equal. f_equal.
      rewrite Z.div_div by lia. f_equal.
      rewrite Nat2Z.inj_succ, Z.pow_succ_r by lia. reflexivity.
Qed.

Lemma tree_add_at_many_length (ind : list Z) :
  forall (a : list (num A)) ds,
    Forall (fun i => (0 <= i < Z.of_nat (length a))%Z) ind ->
    length ds = length ind ->
    exists a', Tree.add_at_many A a ind ds = Ok a' /\ length a' = length a.
Proof.
  induction ind as [|i ind IH]; intros a [|d ds] Hall Hlen;
    simpl in Hlen; try discriminate.
  - exists a. split; reflexivity.
  - inversion Hall as [|? ? Hi Hrest]; subst.
    cbn [Tree.add_at_many]. rewrite tree_add_at_nonneg by assumption. rsimpl.
    destruct (IH (alter (fun x => plus A x d) (Z.to_nat i) a) ds)
      as (a' & Ha' & Hl).
    { rewrite length_alter. assumption. }
    { lia. }
    exists a'. split; [assumption|]. rewrite Hl. apply length_alter.
Qed.

(** The loop of [batch_set] runs to the end and keeps the sizes. *)
Lemma tree_add_up_many_shape (ds : list (num A))
    (levels : list (list (num A))) :
  forall ind,
    adjacent halves levels ->
    (forall c, head levels = Some c ->
               Forall (fun i => (0 <= i < Z.of_nat (length c))%Z) ind) ->
    length ds = length ind ->
    exists levels',
      Tree.add_up_many A levels ind ds = Ok levels'
      /\ map length levels' = map length levels
      /\ forall c, head levels = Some c ->
           exists c', head levels' = Some c'
                      /\ Tree.add_at_many A c ind ds = Ok c'.
Proof.
  induction levels as [|c rest IH]; intros ind Hadj Hi Hlen.
  - exists []. split_and!; [reflexivity | reflexivity |].
    intros c Hc. discriminate.
  - specialize (Hi c eq_refl).
    destruct (tree_add_at_many_length ind c ds Hi Hlen) as (c' & Hc' & Hl').
    destruct (IH (map (fun i => (i / 2)%Z) ind)) as (rest' & Hrest & Hls & _).
    { intros k x y Hx Hy. apply (Hadj (S k)); assumption. }
    { intros p Hp. destruct rest as [|p' rest]; [discriminate|].
      inversion Hp; subst p'.
      assert (Hcp : halves c p) by (apply (Hadj 0); reflexivity).
      unfold halves in Hcp.
      apply Forall_map. eapply Forall_impl; [exact Hi|].
      cbn beta. intros i Hi'. Z.div_mod_to_equations. lia. }
    { rewrite length_map. assumption. }
    exists (c' :: rest'). cbn [Tree.add_up_many].
    rewrite Hc'. rsimpl. rewrite Hrest. rsimpl.
    split_and!; [reflexivity | simpl; congruence |].
    intros c0 Hc0. inversion Hc0; subst c0. exists c'. auto.
Qed.

(** What the shape says level by level. *)
Lemma shaped_lookup capacity (tr : Tree.t A) l lev :
  shaped capacity tr -> Tree.nodes tr !! l = Some lev -> length lev = 2 ^ l.
Proof.
  unfold shaped, level_sizes. intros Hs Hl.
  assert (H : map length (Tree.nodes tr) !! l = Some (length lev)).
  { change (map length (Tree.nodes tr)) with (length <$> Tree.nodes tr).
    rewrite list_lookup_fmap, Hl. reflexivity. }
  rewrite Hs in H.
  change (map (Nat.pow 2) (seq 0 (Z.to_nat (Z.log2_up capacity + 1))))
    with (Nat.pow 2 <$> seq 0 (Z.to_nat (Z.log2_up capacity + 1))) in H.
  rewrite list_lookup_fmap in H.
  destruct (seq 0 (Z.to_nat (Z.log2_up capacity + 1)) !! l) as [l'|] eqn:E;
    [|discriminate].
  apply lookup_seq in E as [-> _]. inversion H. reflexivity.
Qed.

Lemma shaped_length capacity (tr : Tree.t A) :
  shaped capacity tr ->
  length (Tree.nodes tr) = Z.to_nat (Z.log2_up capacity + 1).
Proof.
  unfold shaped, level_sizes. intros Hs.
  apply (f_equal (@length nat)) in Hs.
  rewrite !length_map, length_seq in Hs. assumption.
Qed.

Lemma shaped_halves capacity (tr : Tree.t A) :
  shaped capacity tr -> adjacent halves (reverse (Tree.nodes tr)).
Proof.
  intros Hs. apply (adjacent_reverse (flip halves)).
  intros k x y Hx Hy. unfold flip, halves.
  rewrite (shaped_lookup _ _ _ _ Hs Hx), (shaped_lookup _ _ _ _ Hs Hy).
  rewrite Nat.pow_succ_r'. reflexivity.
Qed.

(** The leaf level of a shaped tree. *)
Lemma shaped_leaves capacity (tr : Tree.t A) :
  (1 <= capacity)%Z ->
  shaped capacity tr ->
  exists lf rest,
    reverse (Tree.nodes tr) = lf :: rest
    /\ Tree.leaves tr = Ok lf
    /\ Z.of_nat (length lf) = (2 ^ Z.log2_up capacity)%Z
    /\ (capacity <= Z.of_nat (length lf))%Z.
Proof.
  intros Hcap Hs.
  pose proof (shaped_length _ _ Hs) as Hn.
  pose proof (Z.log2_up_nonneg capacity) as Hnn.
  destruct (reverse (Tree.nodes tr)) as [|lf rest] eqn:E.
  { apply (f_equal (@length _)) in E. rewrite length_reverse in E.
    simpl in E. lia. }
  exists lf, rest.
  assert (Hlast : last (Tree.nodes tr) = Some lf).
  { rewrite <- head_reverse, E. reflexivity. }
  assert (Hlen : length lf = 2 ^ Z.to_nat (Z.log2_up capacity)).
  { rewrite last_lookup in Hlast.
    rewrite (shaped_lookup _ _ _ _ Hs Hlast). f_equal. lia. }
  assert (HZ : Z.of_nat (length lf) = (2 ^ Z.log2_up capacity)%Z).
  { rewrite Hlen, Nat2Z.inj_pow, Z2Nat.id by lia. reflexivity. }
  split_and!; [reflexivity | | assumption |].
  - unfold Tree.leaves. rewrite Hlast. reflexivity.
  - rewrite HZ. destruct (Z.eq_dec capacity 1%Z) as [->|Hne];
      [rewrite Z.log2_up_1; lia|].
    apply Z.log2_up_spec. lia.
Qed.

Lemma tree_build_levels_sizes n :
  forall s, map length (Tree.build_levels A n s)
            = map (fun l => s * 2 ^ l) (seq 0 n).
Proof.
  induction n as [|n IH]; intros s; [reflexivity|].
  cbn [Tree.build_levels map seq]. rewrite length_replicate, IH.
  rewrite Nat.pow_0_r, Nat.mul_1_r. f_equal.
  rewrite <- seq_shift, map_map. apply map_ext. intros l.
  rewrite Nat.pow_succ_r'. lia.
Qed.

Lemma tree_init_shaped capacity :
  (1 <= capacity)%Z ->
  exists tr, Tree.init A capacity = Ok tr /\ shaped capacity tr.
Proof.
  intros Hcap. unfold Tree.init.
  destruct (Z.eqb_spec capacity 0); [lia|].
  destruct (Z.ltb_spec capacity 0); [lia|].
  eexists. split; [reflexivity|].
  unfold shaped, level_sizes. cbn [Tree.nodes].
  rewrite tree_build_levels_sizes. apply map_ext. intros l. lia.
Qed.

(** [set] on a shaped tree. *)
Lemma tree_set_path capacity (tr : Tree.t A) (i : Z) (p : num A) :
  (1 <= capacity)%Z ->
  shaped capacity tr ->
  (0 <= i < capacity)%Z ->
  exists tr' old,
    Tree.set tr i p = Ok tr'
    /\ Tree.leaf_priority tr i = Ok old
    /\ shaped capacity tr'
    /\ forall l lev,
         Tree.nodes tr !! l = Some lev ->
         Tree.nodes tr' !! l
         = Some (alter (fun x => plus A x (minus A p old))
                   (Z.to_nat (i / 2 ^ (Z.log2_up capacity - Z.of_nat l)))
                   lev).
Proof.
  intros Hcap Hs Hi.
  destruct (shaped_leaves capacity tr Hcap Hs)
    as (lf & rest & Erev & Hlf & Hlen & Hcl).
  pose proof (shaped_length _ _ Hs) as Hn.
  pose proof (Z.log2_up_nonneg capacity) as Hnn.
  destruct (lookup_lt_is_Some_2 lf (Z.to_nat i)) as [old Hold]; [lia|].
  assert (Hget : Np.get lf i = Ok old).
  { unfold Np.get. rewrite index_nonneg by lia. rsimpl. rewrite Hold.
    reflexivity. }
  destruct (tree_add_up_path (minus A p old) (reverse (Tree.nodes tr)) i)
    as (lv & Hup & Hlv & Hpath).
  { apply (shaped_halves capacity). assumption. }
  { rewrite Erev. intros c Hc. inversion Hc; subst c. lia. }
  exists {| Tree.nodes := reverse lv |}, old.
  assert (Hnodes : forall l lev,
             Tree.nodes tr !! l = Some lev ->
             reverse lv !! l
             = Some (alter (fun x => plus A x (minus A p old))
                       (Z.to_nat (i / 2 ^ (Z.log2_up capacity - Z.of_nat l)))
                       lev)).
  { intros l lev Hl.
    pose proof (lookup_lt_Some _ _ _ Hl) as Hlt.
    rewrite length_reverse in Hlv.
    rewrite reverse_lookup by lia.
    rewrite (Hpath (length lv - S l) lev).
    - f_equal. f_equal. f_equal. f_equal. f_equal. lia.
    - rewrite reverse_lookup by lia. rewrite <- Hl. f_equal. lia. }
  split_and!.
  - unfold Tree.set. rewrite Hlf. rsimpl. rewrite Hget. rsimpl.
    rewrite Hup. reflexivity.
  - unfold Tree.leaf_priority. rewrite Hlf. rsimpl. exact Hget.
  - unfold shaped. cbn [Tree.nodes]. rewrite <- Hs.
    apply list_eq. intros l.
    change (map length (reverse lv)) with (length <$> reverse lv).
    change (map length (Tree.nodes tr)) with (length <$> Tree.nodes tr).
    rewrite !list_lookup_fmap.
    destruct (Tree.nodes tr !! l) as [lev|] eqn:El.
    + rewrite (Hnodes l lev El). cbn. rewrite length_alter. reflexivity.
    + apply lookup_ge_None in El.
      rewrite lookup_ge_None_2; [reflexivity|].
      rewrite length_reverse, Hlv, length_reverse. assumption.
  - exact Hnodes.
Qed.

(** [batch_set] on a shaped tree runs to the end and keeps the shape;
    its last level is what [np.add.at] makes of the leaves. *)
Lemma tree_batch_set_shaped capacity (tr : Tree.t A) ix (ps : list (num A)) :
  (1 <= capacity)%Z ->
  shaped capacity tr ->
  Forall (fun i => (0 <= i < capacity)%Z) ix ->
  length ps = length ix ->
  exists tr' uix upos newp lf old lf',
    Tree.batch_set tr ix ps = Ok tr'
    /\ shaped capacity tr'
    /\ Np.unique ix = (uix, upos)
    /\ Np.take_at ps upos = Ok newp
    /\ Tree.leaves tr = Ok lf
    /\ Np.take_at lf uix = Ok old
    /\ Tree.add_at_many A lf uix (zip_with (minus A) newp old) = Ok lf'
    /\ Tree.leaves tr' = Ok lf'.
Proof.
  intros Hcap Hs Hix Hlen.
  destruct (shaped_leaves capacity tr Hcap Hs)
    as (lf & rest & Erev & Hlf & Hll & Hcl).
  destruct (Np.unique ix) as [uix upos] eqn:Eu.
  destruct (unique_spec (fun i => (0 <= i < capacity)%Z) _ _ _ Eu Hix)
    as (Huix & Hupos & Hul).
  destruct (take_at_succeeds ps upos) as (newp & Hnewp & Hnl).
  { rewrite Hlen. eapply Forall_impl; [exact Hupos|]. simpl. lia. }
  destruct (take_at_succeeds lf uix) as (old & Hold & Hol).
  { eapply Forall_impl; [exact Huix|]. simpl. lia. }
  destruct (tree_add_up_many_shape (zip_with (minus A) newp old)
              (reverse (Tree.nodes tr)) uix)
    as (lv & Hup & Hlens & Hhead).
  { apply (shaped_halves capacity). assumption. }
  { rewrite Erev. intros c Hc. inversion Hc; subst c.
    eapply Forall_impl; [exact Huix|]. simpl. lia. }
  { rewrite length_zip_with. lia. }
  destruct (Hhead lf) as (lf' & Hlf' & Hadd); [rewrite Erev; reflexivity|].
  exists {| Tree.nodes := reverse lv |}, uix, upos, newp, lf, old, lf'.
  split_and!; try assumption; try reflexivity.
  - unfold Tree.batch_set. rewrite Eu, Hnewp. rsimpl. rewrite Hlf. rsimpl.
    rewrite Hold. rsimpl. rewrite Hup. reflexivity.
  - unfold shaped. cbn [Tree.nodes]. rewrite <- Hs.
    rewrite map_reverse, Hlens, <- map_reverse, reverse_involutive.
    reflexivity.
  - unfold Tree.leaves. cbn [Tree.nodes]. rewrite last_reverse, Hlf'.
    reflexivity.
Qed.

(** Every sequence of in-range calls runs to the end and keeps the
    shape, in whatever arithmetic. *)
Lemma tree_run_calls_shaped capacity (cs : list (Tree.call A)) :
  (1 <= capacity)%Z ->
  Forall (call_in_range capacity) cs ->
  forall tr,
    shaped capacity tr ->
    exists tr', Tree.run_calls tr cs = Ok tr' /\ shaped capacity tr'.
Proof.
  intros Hcap. induction 1 as [|c cs Hc _ IH]; intros tr Hs.
  - exists tr. split; [reflexivity | assumption].
  - assert (Hstep : exists tr1, Tree.run_call tr c = Ok tr1
                                /\ shaped capacity tr1).
    { destruct c as [i p | ix ps]; cbn [call_in_range Tree.run_call] in *.
      - destruct (tree_set_path capacity tr i p Hcap Hs Hc)
          as (tr1 & old & H1 & _ & H2 & _). eauto.
      - destruct Hc as [Hix Hlen].
        destruct (tree_batch_set_shaped capacity tr ix ps Hcap Hs Hix Hlen)
          as (tr1 & ? & ? & ? & ? & ? & ? & H1 & H2 & _). eauto. }
    destruct Hstep as (tr1 & Hrun & Hs1).
    destruct (IH tr1 Hs1) as (tr' & Hrest & Hs').
    exists tr'. cbn [Tree.run_calls]. rewrite Hrun. rsimpl.
    split; assumption.
Qed.

End AnyArithmetic.

(** ** The tree in exact arithmetic *)

(** At [real], [Tree] is [SumTree]. *)
Lemma real_add_up levels i d :
  Tree.add_up real levels i d = SumTree.add_up levels i d.
Proof.
  revert i. induction levels as [|c rest IH]; intros i; [reflexivity|].
  cbn [Tree.add_up SumTree.add_up]. rewrite IH. reflexivity.
Qed.

Lemma real_add_at_many ind :
  forall a ds, Tree.add_at_many real a ind ds = Np.add_at_many a ind ds.
Proof.
  induction ind as [|i ind IH]; intros a [|d ds]; reflexivity.
Qed.

Lemma real_add_up_many levels :
  forall ind ds,
    Tree.add_up_many real levels ind ds = SumTree.add_up_many levels ind ds.
Proof.
  induction levels as [|c rest IH]; intros ind ds; [reflexivity|].
  cbn [Tree.add_up_many SumTree.add_up_many].
  rewrite real_add_at_many, IH. reflexivity.
Qed.

Lemma real_set tr i p :
  Tree.set (as_real tr) i p = as_real_result (SumTree.set tr i p).
Proof.
  unfold Tree.set, SumTree.set, Tree.leaves, SumTree.leaves.
  cbn [Tree.nodes as_real num real minus].
  destruct (last (SumTree.nodes tr)) as [lf|]; [|reflexivity]. rsimpl.
  destruct (Np.get lf i) as [old|]; [|reflexivity]. rsimpl.
  rewrite real_add_up.
  destruct (SumTree.add_up _ _ _); reflexivity.
Qed.

Lemma real_batch_set tr ix ps :
  Tree.batch_set (as_real tr) ix ps
  = as_real_result (SumTree.batch_set tr ix ps).
Proof.
  unfold Tree.batch_set, SumTree.batch_set, Tree.leaves, SumTree.leaves.
  change (list (num real)) with (list R) in ps.
  cbn [Tree.nodes as_real num real minus].
  change (@Np.take_at (num real)) with (@Np.take_at R).
  destruct (Np.unique ix) as [uix upos].
  destruct (Np.take_at ps upos) as [newp|]; [|reflexivity]. rsimpl.
  destruct (last (SumTree.nodes tr)) as [lf|]; [|reflexivity]. rsimpl.
  destruct (Np.take_at lf uix) as [old|]; [|reflexivity]. rsimpl.
  rewrite real_add_up_many.
  destruct (SumTree.add_up_many _ _ _); reflexivity.
Qed.

Lemma real_run_calls cs :
  forall tr,
    Tree.run_calls (as_real tr) cs
    = as_real_result (run_ops tr (map as_op cs)).
Proof.
  induction cs as [|c cs IH]; intros tr; [reflexivity|].
  cbn [Tree.run_calls run_ops map].
  assert (Hc : Tree.run_call (as_real tr) c
               = as_real_result (run_op tr (as_op c))).
  { destruct c; [apply real_set | apply real_batch_set]. }
  rewrite Hc. destruct (run_op tr (as_op c)) as [tr1|e]; [|reflexivity].
  cbn [as_real_result]. rsimpl. apply IH.
Qed.

Lemma real_init capacity :
  Tree.init real capacity = as_real_result (SumTree.init capacity).
Proof.
  unfold Tree.init, SumTree.init.
  destruct (capacity =? 0)%Z; [reflexivity|].
  destruct (capacity <? 0)%Z; [reflexivity|].
  cbn [as_real_result]. unfold as_real. cbn [SumTree.nodes]. do 3 f_equal.
Qed.

(** In exact arithmetic the sums are an invariant. *)
Lemma real_sums capacity (cs : list (Tree.call real)) :
  (1 <= capacity)%Z ->
  Forall (call_in_range capacity) cs ->
  exists tr0 tr,
    Tree.init real capacity = Ok tr0
    /\ Tree.run_calls tr0 cs = Ok tr
    /\ node_sums tr /\ root_is_sum tr.
Proof.
  intros Hcap Hcs.
  destruct (init_wf capacity Hcap) as (tr0 & Hinit & Hwf0 & Hcount0).
  destruct (run_ops_wf capacity (map as_op cs) tr0 Hwf0 Hcount0)
    as (tr & Hrun & Hwf & _).
  { apply Forall_map. eapply Forall_impl; [exact Hcs|].
    intros [i p | ix ps]; simpl; auto. }
  exists (as_real tr0), (as_real tr).
  rewrite real_init, Hinit, real_run_calls, Hrun.
  split_and!; [reflexivity | reflexivity | |].
  - exact (wf_children_sum tr Hwf).
  - exact (wf_root_sum tr Hwf).
Qed.

Lemma absorbing_calls_run :
  exists tr0,
    Tree.init float64 3 = Ok tr0
    /\ Tree.run_calls tr0 absorbing_calls = Ok absorbed_tree.
Proof. eexists. split; [reflexivity | vm_compute; reflexivity]. Qed.

(** C4, as the code computes: from the all-zero tree of
    [SumTree(capacity)], every finite sequence of [set] and [batch_set]
    calls with indices in [[0, capacity)] runs to the end and keeps the
    shape of the tree, in float64 as in any arithmetic; in exact
    arithmetic every internal node of the tree it leaves is the sum of
    its two children and the root is the sum of all leaves. *)
Theorem sum_tree_invariant (capacity : Z) :
  (1 <= capacity)%Z ->
  (forall (A : arith) (cs : list (Tree.call A)),
      Forall (call_in_range capacity) cs ->
      exists tr0 tr,
        Tree.init A capacity = Ok tr0
        /\ Tree.run_calls tr0 cs = Ok tr
        /\ shaped capacity tr)
  /\ (forall cs : list (Tree.call real),
        Forall (call_in_range capacity) cs ->
        exists tr0 tr,
          Tree.init real capacity = Ok tr0
          /\ Tree.run_calls tr0 cs = Ok tr
          /\ node_sums tr
          /\ root_is_sum tr).
Proof.
  intros Hcap. split.
  - intros A cs Hcs.
    destruct (tree_init_shaped A capacity Hcap) as (tr0 & Hinit & Hs0).
    destruct (tree_run_calls_shaped A capacity cs Hcap Hcs tr0 Hs0)
      as (tr & Hrun & Hs).
    exists tr0, tr. auto.
  - intros cs Hcs. apply real_sums; assumption.
Qed.

Lemma sum_tree_invariant_witness :
  (exists tr0 tr,
      Tree.init float64 3 = Ok tr0
      /\ Tree.run_calls tr0 absorbing_calls = Ok tr
      /\ shaped 3 tr)
  /\ (exists tr0 tr,
        Tree.init real 3 = Ok tr0
        /\ Tree.run_calls tr0
             [Tree.CallSet (A := real) 0 1%R;
              Tree.CallBatchSet (A := real) [2; 0; 2]%Z [3; 4; 5]%R;
              Tree.CallSet (A := real) 1 0.5%R;
              Tree.CallSet (A := real) 0 2%R]
           = Ok tr
        /\ node_sums tr
        /\ root_is_sum tr).
Proof.
  destruct (sum_tree_invariant 3) as [Hany Hreal]; [lia|].
  split.
  - apply (Hany float64). repeat constructor; simpl; lia.
  - apply Hreal. repeat constructor; simpl; lia.
Defined.

(** C4 as the specification has it fails in float64: after the calls
    [absorbing_calls] on [SumTree(3)], all with slots as indices, node
    0 of the middle level holds 2 over children 0 and 1, and the root
    holds 4 over leaves that sum to 2. *)
Lemma sum_tree_float64_counterexample :
  exists tr0 tr,
    Forall (call_in_range 3) absorbing_calls
    /\ Tree.init float64 3 = Ok tr0
    /\ Tree.run_calls tr0 absorbing_calls = Ok tr
    /\ ~ node_sums tr
    /\ ~ root_is_sum tr.
Proof.
  destruct absorbing_calls_run as (tr0 & Hinit & Hrun).
  exists tr0, absorbed_tree.
  split_and!; [repeat constructor; simpl; lia | assumption | assumption | |].
  - intros H.
    destruct (H 1 [2; 1]%float [0; 1; 1; 0]%float 0 2%float)
      as (a & c & Ha & Hc & Hsum); try reflexivity.
    injection Ha as Ea. injection Hc as Ec. rewrite <- Ea, <- Ec in Hsum.
    apply (f_equal (PrimFloat.eqb 2)) in Hsum. vm_compute in Hsum.
    discriminate.
  - intros (x & lf & Hx & Hlf & Hsum).
    injection Hx as Ex. injection Hlf as El. rewrite <- Ex, <- El in Hsum.
    apply (f_equal (PrimFloat.eqb 4)) in Hsum. vm_compute in Hsum.
    discriminate.
Qed.

(** C8, as the code has it: [set] checks nothing itself.  On a tree of
    the given capacity it succeeds for every index in [[0, capacity)]
    and every priority, negative ones included; the only failure is the
    [IndexError] of NumPy, raised exactly for an index outside
    [[-n, n)], where [n = 2 ^ ceil(log2 capacity) >= capacity] is the
    number of leaves. *)
Theorem set_succeeds_iff (capacity : Z) (tr : SumTree.t) (i : Z) (p : R) :
  (1 <= capacity)%Z ->
  reachable capacity tr ->
  let n := (2 ^ Z.log2_up capacity)%Z in
  (capacity <= n)%Z
  /\ ((0 <= i < capacity)%Z -> exists tr', SumTree.set tr i p = Ok tr')
  /\ ((- n <= i < n)%Z -> exists tr', SumTree.set tr i p = Ok tr')
  /\ (~ (- n <= i < n)%Z -> SumTree.set tr i p = Raise IndexError).
Proof.
  intros Hcap Hreach n.
  destruct (reachable_wf capacity tr Hcap Hreach) as [Hwf Hcount].
  assert (Hn : (capacity <= n)%Z).
  { subst n.
    destruct (Z.eq_dec capacity 1%Z) as [->|Hne];
      [rewrite Z.log2_up_1; lia|].
    apply Z.log2_up_spec. lia. }
  assert (Hnat : Z.of_nat (leaf_count tr) = n).
  { rewrite Hcount. apply Z2Nat.id. subst n. lia. }
  assert (Hok : (- n <= i < n)%Z -> exists tr', SumTree.set tr i p = Ok tr').
  { intros Hi. destruct (set_wf tr i p Hwf) as (tr' & ? & ? & H & _); [lia|].
    eauto. }
  split_and!; [assumption | | assumption |].
  - intros Hi. apply Hok. lia.
  - intros Hi.
    destruct (wf_leaves tr Hwf) as (lf & rest & _ & Hlf & Hlen).
    unfold SumTree.set. rewrite Hlf. rsimpl.
    unfold Np.get. rewrite index_fails; [reflexivity|].
    rewrite <- Hlen. lia.
Qed.

Lemma set_succeeds_iff_witness :
  let tr := {| SumTree.nodes := SumTree.build_levels 3 1 |} in
  let n := (2 ^ Z.log2_up 3)%Z in
  (3 <= n)%Z
  /\ ((0 <= 3 < 3)%Z -> exists tr', SumTree.set tr 3 (-1) = Ok tr')
  /\ ((- n <= 3 < n)%Z -> exists tr', SumTree.set tr 3 (-1) = Ok tr')
  /\ (~ (- n <= 3 < n)%Z -> SumTree.set tr 3 (-1) = Raise IndexError).
Proof.
  apply set_succeeds_iff; [lia|].
  exists {| SumTree.nodes := SumTree.build_levels 3 1 |}, [].
  split_and!; [reflexivity | constructor | reflexivity].
Defined.

(** C8 as the specification words it fails on the code: on
    [SumTree(3)], index 3 lies outside [[0, 3)] and priority [-1] is
    negative, and both calls succeed. *)
Lemma set_unchecked_counterexample :
  exists tr0 tr1 tr2,
    SumTree.init 3 = Ok tr0
    /\ ~ (0 <= 3 < 3)%Z
    /\ SumTree.set tr0 3 1 = Ok tr1
    /\ (-1 < 0)%R
    /\ SumTree.set tr0 0 (-1) = Ok tr2.
Proof.
  eexists _, _, _.
  split_and!; [reflexivity | lia | reflexivity | lra | reflexivity].
Qed.

(** ** Slices *)

Lemma clip_small len i :
  (0 <= i <= Z.of_nat len)%Z -> Np.clip len i = Z.to_nat i.
Proof.
  intros H. unfold Np.clip. destruct (Z.ltb_spec i 0); [lia|].
  rewrite Z.min_l by lia. reflexivity.
Qed.

Lemma cyclic_offset cap p j :
  p < cap -> j < cap ->
  (j + cap - p) mod cap = if decide (p <= j) then j - p else j + cap - p.
Proof.
  intros Hp Hj. case_decide.
  - replace (j + cap - p) with ((j - p) + 1 * cap) by lia.
    rewrite Nat.Div0.mod_add. apply Nat.mod_small. lia.
  - apply Nat.mod_small. lia.
Qed.

Lemma slice_assign_rows {A} (a v : list A) start stop lo n :
  Np.slice_start (length a) start = lo ->
  Np.slice_stop (length a) stop = lo + n ->
  length v = n ->
  Np.slice_assign a start stop v = Ok (take lo a ++ v ++ drop (lo + n) a).
Proof.
  intros Hlo Hhi Hv. unfold Np.slice_assign. rewrite Hlo, Hhi.
  replace (lo + n - lo) with n by lia.
  rewrite decide_True by assumption. reflexivity.
Qed.

Lemma write_run_spec (arr v : list (list R)) (p : nat) :
  p + length v <= length arr ->
  Buffer.write_run arr (Z.of_nat p) (Z.of_nat (length v)) v
  = Ok (take p arr ++ v ++ drop (p + length v) arr).
Proof.
  intros H. unfold Buffer.write_run.
  apply slice_assign_rows; [| |reflexivity]; simpl.
  - rewrite clip_small by lia. lia.
  - rewrite clip_small by lia. lia.
Qed.

Lemma write_split_spec (arr v : list (list R)) (p : nat) :
  p < length arr -> length v <= length arr -> length arr < p + length v ->
  Buffer.write_split arr (Z.of_nat p) (Z.of_nat (length v))
    (Z.of_nat (p + length v - length arr)) v
  = Ok (drop (length arr - p) v
        ++ drop (p + length v - length arr)
             (take p arr ++ take (length arr - p) v)).
Proof.
  intros Hp Hk Hwrap. unfold Buffer.write_split.
  replace (Z.of_nat (length v) - Z.of_nat (p + length v - length arr))%Z
    with (Z.of_nat (length arr - p)) by lia.
  assert (Hhead : Np.slice v None (Some (Z.of_nat (length arr - p)))
                  = take (length arr - p) v).
  { unfold Np.slice. simpl. rewrite clip_small by lia.
    rewrite Nat2Z.id, Nat.sub_0_r. reflexivity. }
  assert (Htail : Np.slice v (Some (Z.of_nat (length arr - p))) None
                  = drop (length arr - p) v).
  { unfold Np.slice. simpl. rewrite clip_small by lia.
    rewrite Nat2Z.id. apply take_ge. rewrite length_drop. lia. }
  rewrite Hhead, Htail.
  rewrite (slice_assign_rows arr _ _ _ p (length arr - p)).
  - rsimpl.
    replace (p + (length arr - p)) with (length arr) by lia.
    rewrite drop_all, app_nil_r.
    rewrite (slice_assign_rows _ _ _ _ 0 (p + length v - length arr)).
    + reflexivity.
    + reflexivity.
    + simpl. rewrite clip_small; [lia|].
      rewrite length_app, !length_take. lia.
    + rewrite length_drop. lia.
  - simpl. rewrite clip_small by lia. lia.
  - simpl. lia.
  - rewrite length_take. lia.
Qed.

Lemma run_written (arr v : list (list R)) (p : nat) :
  p + length v <= length arr ->
  written (length arr) p (length v) arr v
    (take p arr ++ v ++ drop (p + length v) arr).
Proof.
  intros H. split.
  - rewrite !length_app, length_take, length_drop. lia.
  - intros j Hj.
    destruct (decide (length v = 0)) as [Hv0|Hv0].
    { rewrite decide_False by lia.
      destruct v; [|discriminate]. simpl. rewrite Nat.add_0_r.
      rewrite take_drop. reflexivity. }
    rewrite cyclic_offset by lia.
    destruct (decide (j < p)) as [Hlt|Hge].
    + rewrite lookup_app_l by (rewrite length_take; lia).
      rewrite lookup_take_lt by assumption.
      rewrite (decide_False (P := p <= j)) by lia.
      rewrite decide_False by lia. reflexivity.
    + rewrite lookup_app_r by (rewrite length_take; lia).
      rewrite length_take, Nat.min_l by lia.
      rewrite (decide_True (P := p <= j)) by lia.
      destruct (decide (j - p < length v)) as [Hin|Hout].
      * rewrite lookup_app_l by assumption. reflexivity.
      * rewrite lookup_app_r by lia. rewrite lookup_drop.
        f_equal. lia.
Qed.

Lemma split_written (arr v : list (list R)) (p : nat) :
  p < length arr -> length v <= length arr -> length arr < p + length v ->
  written (length arr) p (length v) arr v
    (drop (length arr - p) v
     ++ drop (p + length v - length arr)
          (take p arr ++ take (length arr - p) v)).
Proof.
  intros Hp Hk Hwrap. split.
  - rewrite length_app, !length_drop, length_app, !length_take. lia.
  - intros j Hj. rewrite cyclic_offset by lia.
    destruct (decide (j < p + length v - length arr)) as [Hlt|Hge].
    + rewrite lookup_app_l by (rewrite length_drop; lia).
      rewrite lookup_drop.
      rewrite (decide_False (P := p <= j)) by lia.
      rewrite decide_True by lia. f_equal. lia.
    + rewrite lookup_app_r by (rewrite length_drop; lia).
      rewrite length_drop, lookup_drop.
      replace (p + length v - length arr
               + (j - (length v - (length arr - p)))) with j by lia.
      destruct (decide (p <= j)) as [Hpj|Hpj].
      * rewrite lookup_app_r by (rewrite length_take; lia).
        rewrite length_take, Nat.min_l by lia.
        rewrite lookup_take_lt by lia.
        rewrite decide_True by lia. reflexivity.
      * rewrite lookup_app_l by (rewrite length_take; lia).
        rewrite lookup_take_lt by lia.
        rewrite decide_False by lia. reflexivity.
Qed.

(** The write of one field in [add], in either branch. *)
Lemma write_written (mx pt : Z) (arr v : list (list R)) :
  (0 <= pt < mx)%Z ->
  length arr = Z.to_nat mx ->
  length v <= Z.to_nat mx ->
  exists res,
    (if (pt + Z.of_nat (length v) >? mx)%Z
     then Buffer.write_split arr pt (Z.of_nat (length v))
            ((pt + Z.of_nat (length v)) mod mx)%Z v
     else Buffer.write_run arr pt (Z.of_nat (length v)) v) = Ok res
    /\ written (Z.to_nat mx) (Z.to_nat pt) (length v) arr v res.
Proof.
  intros Hpt Harr Hv.
  assert (Hp : exists p, pt = Z.of_nat p) by (exists (Z.to_nat pt); lia).
  destruct Hp as [p ->]. rewrite Nat2Z.id, <- Harr.
  destruct (Z.gtb_spec (Z.of_nat p + Z.of_nat (length v)) mx)
    as [Hwrap|Hfit].
  - eexists. split; [|apply split_written; lia].
    replace ((Z.of_nat p + Z.of_nat (length v)) mod mx)%Z
      with (Z.of_nat (p + length v - length arr)).
    + apply write_split_spec; lia.
    + rewrite <- (Z.mod_add _ (-1) mx) by lia.
      rewrite Z.mod_small by lia. lia.
  - eexists. split; [|apply run_written; lia].
    apply write_run_spec. lia.
Qed.

(** ** The buffer *)

Lemma length_not_done_of done :
  length (Buffer.not_done_of done) = length done.
Proof. apply length_map. Qed.

Lemma written_length cap p k arr v res :
  written cap p k arr v res -> length res = cap.
Proof. intros [H _]. exact H. Qed.

(** [add] of a batch of at most [max_size] transitions to a well-formed
    buffer: it returns, every field is written cyclically from [ptr]
    on, [ptr] advances by the batch size, [size] by one, and the tree
    receives one [set], at [ptr]. *)
Lemma add_spec (b : Buffer.t) (bt : batch) (k : nat) :
  wf_buffer b -> batch_rows k bt -> k <= Z.to_nat (Buffer.max_size b) ->
  exists b',
    add_batch b bt = Ok b'
    /\ Forall3 (written (Z.to_nat (Buffer.max_size b))
                  (Z.to_nat (Buffer.ptr b)) k)
         (columns b) (batch_columns bt) (columns b')
    /\ Buffer.ptr b' = ((Buffer.ptr b + Z.of_nat k) mod Buffer.max_size b)%Z
    /\ Buffer.size b' = Z.min (Buffer.size b + 1) (Buffer.max_size b)
    /\ Buffer.max_size b' = Buffer.max_size b
    /\ Buffer.prioritized b' = Buffer.prioritized b
    /\ Buffer.max_priority b' = Buffer.max_priority b
    /\ Buffer.beta b' = Buffer.beta b
    /\ (if Buffer.prioritized b
        then SumTree.set (Buffer.tree b) (Buffer.ptr b) (Buffer.max_priority b)
             = Ok (Buffer.tree b')
        else Buffer.tree b' = Buffer.tree b)
    /\ wf_buffer b'.
Proof.
  intros (Hptr & Hcols & Htree) (H1 & H2 & H3 & H4 & H5 & H6) Hk.
  unfold columns in Hcols.
  repeat match goal with
         | H : Forall _ (_ :: _) |- _ => inversion_clear H
         end.
  assert (Htr : exists tr',
             (if Buffer.prioritized b
              then SumTree.set (Buffer.tree b) (Buffer.ptr b)
                     (Buffer.max_priority b)
              else Ok (Buffer.tree b)) = Ok tr'
             /\ (Buffer.prioritized b = true ->
                 wf_tree tr'
                 /\ (Buffer.max_size b <= Z.of_nat (leaf_count tr'))%Z)).
  { destruct (Buffer.prioritized b) eqn:Epr.
    - destruct (Htree eq_refl) as [Hwf Hcap].
      destruct (set_wf (Buffer.tree b) (Buffer.ptr b) (Buffer.max_priority b)
                  Hwf) as (tr' & lf & j & Hset & _ & _ & _ & Hwf' & Hlens);
        [lia|].
      exists tr'. split; [assumption|]. intros _. split; [assumption|].
      rewrite (leaf_count_lengths _ _ Hlens). assumption.
    - exists (Buffer.tree b). split; [reflexivity | discriminate]. }
  destruct Htr as (tr' & Htr & Hwf').
  unfold add_batch, Buffer.add.
  destruct (Z.eqb_spec (Buffer.max_size b) 0) as [E0|_]; [lia|].
  pose proof (length_not_done_of (b_done bt)) as Hnd.
  destruct (write_written (Buffer.max_size b) (Buffer.ptr b)
              (Buffer.state b) (b_state bt)) as (r1 & E1 & W1); try lia.
  destruct (write_written (Buffer.max_size b) (Buffer.ptr b)
              (Buffer.action b) (b_action bt)) as (r2 & E2 & W2); try lia.
  destruct (write_written (Buffer.max_size b) (Buffer.ptr b)
              (Buffer.next_state b) (b_next_state bt))
    as (r3 & E3 & W3); try lia.
  destruct (write_written (Buffer.max_size b) (Buffer.ptr b)
              (Buffer.reward b) (b_reward bt)) as (r4 & E4 & W4); try lia.
  destruct (write_written (Buffer.max_size b) (Buffer.ptr b)
              (Buffer.not_done b) (Buffer.not_done_of (b_done bt)))
    as (r5 & E5 & W5); try lia.
  destruct (write_written (Buffer.max_size b) (Buffer.ptr b)
              (Buffer.seeds b) (b_seeds bt)) as (r6 & E6 & W6); try lia.
  rewrite H2 in E2. rewrite H3 in E3. rewrite H4 in E4.
  rewrite Hnd, H5 in E5. rewrite H6 in E6. rewrite H1 in E1.
  rewrite H1. rewrite E1. rsimpl. rewrite E2. rsimpl. rewrite E3. rsimpl.
  rewrite E4. rsimpl. rewrite E5. rsimpl. rewrite E6. rsimpl.
  rewrite Htr. rsimpl.
  eexists. split; [reflexivity|]. cbn.
  rewrite H1 in W1. rewrite H2 in W2. rewrite H3 in W3. rewrite H4 in W4.
  rewrite Hnd, H5 in W5. rewrite H6 in W6.
  split_and!; try reflexivity.
  - repeat (apply Forall3_cons; [assumption|]). apply Forall3_nil.
  - destruct (Buffer.prioritized b); [exact Htr|].
    inversion Htr. reflexivity.
  - split; [|split].
    + cbn. apply Z.mod_pos_bound. lia.
    + unfold columns. cbn.
      repeat (apply Forall_cons_2; [eapply written_length; eassumption|]).
      apply Forall_nil_2.
    + cbn. assumption.
Qed.

Lemma Forall3_drop_mid {A B C} (P : A -> B -> C -> Prop) (Q : A -> C -> Prop)
    l1 l2 l3 :
  (forall x y z, P x y z -> Q x z) ->
  Forall3 P l1 l2 l3 -> Forall2 Q l1 l3.
Proof. intros HPQ. induction 1; constructor; eauto. Qed.

Lemma Forall3_drop_left {A B C} (P : A -> B -> C -> Prop) (Q : B -> C -> Prop)
    l1 l2 l3 :
  (forall x y z, P x y z -> Q y z) ->
  Forall3 P l1 l2 l3 -> Forall2 Q l2 l3.
Proof. intros HPQ. induction 1; constructor; eauto. Qed.

Lemma written_outside cap p k arr v res j :
  written cap p k arr v res -> p < cap -> j < cap ->
  (forall t, t < k -> j <> (p + t) mod cap) ->
  res !! j = arr !! j.
Proof.
  intros [_ Hw] Hp Hj Hout. rewrite (Hw j Hj).
  case_decide as Hin; [|reflexivity].
  exfalso. apply (Hout _ Hin).
  rewrite cyclic_offset by assumption. case_decide.
  - replace (p + (j - p)) with j by lia. symmetry. apply Nat.mod_small. lia.
  - replace (p + (j + cap - p)) with (j + 1 * cap) by lia.
    rewrite Nat.Div0.mod_add. symmetry. apply Nat.mod_small. lia.
Qed.

Lemma written_split cap p k arr v res :
  written cap p k arr v res -> p < cap -> k <= cap -> cap < p + k ->
  holds_split cap p k v res.
Proof.
  intros [_ Hw] Hp Hk Hwrap. split; intros t Ht.
  - rewrite Hw by lia. rewrite cyclic_offset by lia.
    rewrite (decide_True (P := p <= p + t)) by lia.
    rewrite decide_True by lia. f_equal. lia.
  - rewrite Hw by lia. rewrite cyclic_offset by lia.
    rewrite (decide_False (P := p <= t)) by lia.
    rewrite decide_True by lia. f_equal. lia.
Qed.

Lemma init_wf_buffer state_dim batch_size capacity prioritized :
  (1 <= capacity)%Z ->
  exists b,
    Buffer.init state_dim batch_size capacity prioritized = Ok b
    /\ wf_buffer b
    /\ Buffer.max_size b = capacity
    /\ Buffer.ptr b = 0%Z
    /\ Buffer.size b = 0%Z
    /\ Buffer.prioritized b = prioritized
    /\ Buffer.max_priority b = 1%R
    /\ Buffer.beta b = 0.4%R.
Proof.
  intros Hcap. unfold Buffer.init.
  destruct (Z.ltb_spec capacity 0); [lia|].
  assert (Htr : exists tr,
             (if prioritized then SumTree.init capacity
              else Ok {| SumTree.nodes := [] |}) = Ok tr
             /\ (prioritized = true ->
                 wf_tree tr /\ (capacity <= Z.of_nat (leaf_count tr))%Z)).
  { destruct prioritized.
    - destruct (init_wf capacity Hcap) as (tr & Hinit & Hwf & Hc). eauto.
    - eexists. split; [reflexivity | discriminate]. }
  destruct Htr as (tr & -> & Htr). rsimpl.
  eexists. split; [reflexivity|]. cbn.
  split_and!; try reflexivity.
  split; [|split]; cbn.
  - lia.
  - unfold columns. cbn.
    repeat (apply Forall_cons_2; [apply length_replicate|]).
    apply Forall_nil_2.
  - assumption.
Qed.

(** C10: [add] of a batch of [k] transitions, [1 <= k <= capacity],
    leaves every slot [j] outside the cyclic range [[ptr, ptr + k)]
    (mod capacity) as it was, in each of the six arrays. *)
Theorem add_frame (b : Buffer.t) (bt : batch) (k j : nat) :
  wf_buffer b ->
  batch_rows k bt ->
  1 <= k <= Z.to_nat (Buffer.max_size b) ->
  (Z.of_nat j < Buffer.max_size b)%Z ->
  (forall t, (0 <= t < Z.of_nat k)%Z ->
             Z.of_nat j <> ((Buffer.ptr b + t) mod Buffer.max_size b)%Z) ->
  exists b',
    add_batch b bt = Ok b'
    /\ Forall2 (fun old new => new !! j = old !! j) (columns b) (columns b').
Proof.
  intros Hwf Hbt Hk Hj Hout.
  destruct (add_spec b bt k Hwf Hbt) as (b' & Hadd & Hw & _); [lia|].
  exists b'. split; [assumption|].
  destruct Hwf as (Hptr & _ & _).
  eapply Forall3_drop_mid; [|exact Hw].
  intros arr v res Hwr. simpl.
  apply (written_outside _ _ _ _ _ _ _ Hwr); [lia | lia |].
  intros t Ht Heq.
  apply (Hout (Z.of_nat t)); [lia|].
  rewrite Heq. rewrite Nat2Z.inj_mod, Nat2Z.inj_add.
  rewrite !Z2Nat.id by lia. reflexivity.
Qed.

Lemma build_levels_wf n :
  wf_tree {| SumTree.nodes := SumTree.build_levels (S n) 1 |}.
Proof. split; [reflexivity | apply build_levels_adjacent]. Qed.

Lemma example_buffer_wf : wf_buffer example_buffer.
Proof.
  split; [|split].
  - simpl. lia.
  - repeat (apply Forall_cons_2; [reflexivity|]). apply Forall_nil_2.
  - intros _. split; [apply build_levels_wf|].
    vm_compute. discriminate.
Qed.

Lemma example_batch_rows : batch_rows 4 example_batch.
Proof. repeat split. Qed.

Lemma add_frame_witness :
  exists b',
    add_batch example_buffer example_batch = Ok b'
    /\ Forall2 (fun old new => new !! 2 = old !! 2)
         (columns example_buffer) (columns b').
Proof.
  apply (add_frame example_buffer example_batch 4 2).
  - exact example_buffer_wf.
  - exact example_batch_rows.
  - simpl. lia.
  - simpl. lia.
  - intros t Ht. simpl.
    assert (Hcases : t = 0%Z \/ t = 1%Z \/ t = 2%Z \/ t = 3%Z) by lia.
    destruct Hcases as [-> | [-> | [-> | ->]]]; vm_compute; discriminate.
Defined.

(** C3: [add] of a batch of [k] transitions, [1 <= k <= capacity], with
    [ptr + k > capacity]: in every field the first [capacity - ptr] rows
    of the batch go to slots [[ptr, capacity)], the others to slots
    [[0, end)] with [end = (ptr + k) mod capacity], and [ptr] becomes
    [end].  And for capacity 5, a batch of three transitions followed by
    a batch of four leaves in slots 0 to 4 the transitions 5, 6, 2, 3, 4
    (counted from 0): the five most recent ones, one slot each. *)
Theorem add_wraps :
  (forall (b : Buffer.t) (bt : batch) (k : nat),
      wf_buffer b ->
      batch_rows k bt ->
      1 <= k <= Z.to_nat (Buffer.max_size b) ->
      (Buffer.ptr b + Z.of_nat k > Buffer.max_size b)%Z ->
      exists b',
        add_batch b bt = Ok b'
        /\ Forall2 (holds_split (Z.to_nat (Buffer.max_size b))
                      (Z.to_nat (Buffer.ptr b)) k)
             (batch_columns bt) (columns b')
        /\ Buffer.ptr b'
           = ((Buffer.ptr b + Z.of_nat k) mod Buffer.max_size b)%Z
        /\ Buffer.ptr b'
           = (Buffer.ptr b + Z.of_nat k - Buffer.max_size b)%Z)
  /\ (forall (state_dim : nat) (batch_size : Z) (prioritized : bool)
             (t0 t1 t2 t3 t4 t5 t6 : transition),
         exists b0 b1 b2,
           Buffer.init state_dim batch_size 5 prioritized = Ok b0
           /\ add_batch b0 (batch_of [t0; t1; t2]) = Ok b1
           /\ add_batch b1 (batch_of [t3; t4; t5; t6]) = Ok b2
           /\ map (slot b2) [0; 1; 2; 3; 4]
              = map stored_rows [t5; t6; t2; t3; t4]
           /\ Buffer.ptr b2 = 2%Z).
Proof.
  split.
  - intros b bt k Hwf Hbt Hk Hwrap.
    destruct (add_spec b bt k Hwf Hbt) as (b' & Hadd & Hw & Hptr & _); [lia|].
    destruct Hwf as (Hp & _ & _).
    exists b'. split_and!; [assumption | | assumption |].
    + eapply Forall3_drop_left; [|exact Hw].
      intros arr v res Hwr. apply (written_split _ _ _ _ _ _ Hwr); lia.
    + rewrite Hptr.
      rewrite <- (Z.mod_add _ (-1)) by lia.
      rewrite Z.mod_small by lia. lia.
  - intros state_dim batch_size prioritized t0 t1 t2 t3 t4 t5 t6.
    destruct prioritized.
    + eexists _, _, _.
      split_and!; [reflexivity | reflexivity | reflexivity | | ];
        reflexivity.
    + eexists _, _, _.
      split_and!; [reflexivity | reflexivity | reflexivity | | ];
        reflexivity.
Qed.

Lemma add_wraps_witness :
  exists b',
    add_batch example_buffer example_batch = Ok b'
    /\ Forall2 (holds_split 5 3 4) (batch_columns example_batch) (columns b')
    /\ Buffer.ptr b' = ((3 + 4) mod 5)%Z
    /\ Buffer.ptr b' = (3 + 4 - 5)%Z.
Proof.
  apply (proj1 add_wraps example_buffer example_batch 4).
  - exact example_buffer_wf.
  - exact example_batch_rows.
  - simpl. lia.
  - simpl. lia.
Defined.

(** A successful prioritized [sample] changes [beta] and nothing else. *)
Lemma sample_prioritized b qs u r b' :
  Buffer.prioritized b = true ->
  Buffer.sample b qs u = Ok (r, b') ->
  b' = with_beta b (Rmin (Buffer.beta b + 2e-7) 1).
Proof.
  intros Hpr H. unfold Buffer.sample in H. rewrite Hpr in H.
  repeat inv_bind H. inversion H. unfold with_beta. rewrite Hpr.
  reflexivity.
Qed.

Lemma anneal_step (x inc : R) (n : nat) :
  (0 <= inc)%R ->
  Rmin (Rmin (x + INR n * inc) 1 + inc) 1 = Rmin (x + INR (S n) * inc) 1.
Proof.
  intros Hinc. rewrite S_INR. unfold Rmin.
  repeat destruct (Rle_dec _ _); lra.
Qed.

Lemma sample_run_beta b n b' :
  sample_run b n b' ->
  Buffer.prioritized b = true ->
  forall x k, Buffer.beta b = Rmin (x + INR k * 2e-7) 1 ->
  Buffer.beta b' = Rmin (x + INR (k + n) * 2e-7) 1.
Proof.
  induction 1 as [b | b qs u r b1 n b2 Hs _ IH]; intros Hpr x k Hb.
  - rewrite Nat.add_0_r. assumption.
  - apply (sample_prioritized _ _ _ _ _ Hpr) in Hs. subst b1.
    replace (k + S n) with (S k + n) by lia.
    apply IH; [exact Hpr|]. simpl. rewrite Hb.
    apply anneal_step. lra.
Qed.

(** C9, as the code has it: [sample] takes no increment; it adds the
    constant [2e-7].  After [N] prioritized [sample] calls, [beta] is
    [min(beta_0 + N * 2e-7, 1)] for every starting value [beta_0] in
    [(0, 1]] (exact arithmetic); hence it never exceeds 1. *)
Theorem beta_annealing (b b' : Buffer.t) (N : nat) :
  Buffer.prioritized b = true ->
  (0 < Buffer.beta b <= 1)%R ->
  sample_run b N b' ->
  Buffer.beta b' = Rmin (Buffer.beta b + INR N * 2e-7) 1
  /\ (Buffer.beta b' <= 1)%R.
Proof.
  intros Hpr Hb Hrun.
  assert (E : Buffer.beta b' = Rmin (Buffer.beta b + INR N * 2e-7) 1).
  { apply (sample_run_beta b N b' Hrun Hpr (Buffer.beta b) 0).
    simpl. rewrite Rmult_0_l, Rplus_0_r. symmetry. apply Rmin_left. lra. }
  split; [exact E|]. rewrite E. apply Rmin_r.
Qed.

Lemma single_buffer_sample (beta q : R) :
  exists r,
    Buffer.sample (with_beta single_buffer beta) [q] []
    = Ok (r, with_beta single_buffer (Rmin (beta + 2e-7) 1)).
Proof. eexists. reflexivity. Qed.

Lemma beta_annealing_witness :
  let b' := with_beta single_buffer
              (Rmin (Rmin (0.4 + 2e-7) 1 + 2e-7) 1) in
  Buffer.beta b' = Rmin (Buffer.beta single_buffer + INR 2 * 2e-7) 1
  /\ (Buffer.beta b' <= 1)%R.
Proof.
  apply (beta_annealing single_buffer).
  - reflexivity.
  - simpl. lra.
  - destruct (single_buffer_sample 0.4 0.3) as [r1 H1].
    destruct (single_buffer_sample (Rmin (0.4 + 2e-7) 1) 0.9) as [r2 H2].
    eapply run_call; [exact H1|].
    eapply run_call; [exact H2|].
    apply run_done.
Defined.

(** C9 as the specification has it, for every increment, fails: with
    [beta_0 = 0.4] and [inc = 0.1], one call leaves [beta] at
    [0.4 + 2e-7], not at [min(0.4 + 1 * 0.1, 1) = 0.5]. *)
Lemma beta_increment_counterexample :
  exists (inc : R) (b' : Buffer.t),
    (0 < inc)%R
    /\ Buffer.prioritized single_buffer = true
    /\ (0 < Buffer.beta single_buffer <= 1)%R
    /\ sample_run single_buffer 1 b'
    /\ Buffer.beta b' <> spec_beta (Buffer.beta single_buffer) inc 1.
Proof.
  exists 0.1%R, (with_beta single_buffer (Rmin (0.4 + 2e-7) 1)).
  split; [lra|]. split; [reflexivity|]. split; [simpl; lra|]. split.
  - destruct (single_buffer_sample 0.4 0.3) as [r1 H1].
    eapply run_call; [exact H1 | apply run_done].
  - unfold spec_beta. simpl. unfold Rmin.
    repeat destruct (Rle_dec _ _); lra.
Qed.

(** In float64 the sum accumulates its rounding: five calls from 0.4
    leave [0.40000100000000005], where [0.4 + 5 * 2e-7] is
    [0.400001]. *)
Example beta_float64_rounding :
  Nat.iter 5 anneal_float64 0.4%float = 0.40000100000000005%float
  /\ (0.4 + 5 * 0.0000002)%float = 0.400001%float
  /\ PrimFloat.eqb (Nat.iter 5 anneal_float64 0.4%float) 0.400001%float
     = false.
Proof. split_and!; vm_compute; reflexivity. Qed.

(** C2, on the code: [add] raises [size] by one whatever the number of
    transitions of the batch.  After a batch of two transitions added to
    an empty buffer of capacity 5, [size] is 1 and not
    [min(0 + 2, 5) = 2]. *)
Theorem add_size_two_transitions
    (state_dim : nat) (batch_size : Z) (prioritized : bool)
    (t0 t1 : transition) :
  exists b0 b1,
    Buffer.init state_dim batch_size 5 prioritized = Ok b0
    /\ add_batch b0 (batch_of [t0; t1]) = Ok b1
    /\ Buffer.size b0 = 0%Z
    /\ Buffer.size b1 = 1%Z
    /\ Z.min (Buffer.size b0 + 2) (Buffer.max_size b0) = 2%Z
    /\ map (slot b1) [0; 1] = map stored_rows [t0; t1].
Proof.
  destruct prioritized; eexists _, _;
    (split_and!; [reflexivity | reflexivity | reflexivity | reflexivity
                 | reflexivity | reflexivity]).
Qed.

(** C1, on the code: [add] calls [SumTree.set] once, at [ptr].  After a
    batch of two transitions added to an empty prioritized buffer of
    capacity 4, both slots 0 and 1 hold their transition, slot 0 has
    priority [max_priority = 1] and slot 1 still has priority 0. *)
Theorem add_sets_first_slot_only
    (state_dim : nat) (batch_size : Z) (t0 t1 : transition) :
  exists b0 b1,
    Buffer.init state_dim batch_size 4 true = Ok b0
    /\ add_batch b0 (batch_of [t0; t1]) = Ok b1
    /\ map (slot b1) [0; 1] = map stored_rows [t0; t1]
    /\ Buffer.max_priority b1 = 1%R
    /\ SumTree.leaf_priority (Buffer.tree b1) 0 = Ok (0 + (1 - 0))%R
    /\ SumTree.leaf_priority (Buffer.tree b1) 1 = Ok 0%R
    /\ (0 + (1 - 0))%R = Buffer.max_priority b1
    /\ 0%R <> Buffer.max_priority b1.
Proof.
  eexists _, _.
  split_and!; [reflexivity | reflexivity | reflexivity | reflexivity
              | reflexivity | reflexivity | simpl; lra | simpl; lra].
Qed.

(** ** The projection *)

Lemma example_agent_init :
  Rainbow.init 51 (-10) 10 0.99 3 = Ok example_agent.
Proof. reflexivity. Qed.

Lemma floor_spec (x : R) :
  (IZR (Rainbow.floor x) <= x < IZR (Rainbow.floor x) + 1)%R.
Proof.
  unfold Rainbow.floor. destruct (base_Int_part x) as [H1 H2]. lra.
Qed.


Lemma floor_IZR (k : Z) : Rainbow.floor (IZR k) = k.
Proof.
  unfold Rainbow.floor. symmetry. apply Int_part_spec. lra.
Qed.

Lemma ceil_IZR (k : Z) : Rainbow.ceil (IZR k) = k.
Proof.
  unfold Rainbow.ceil. rewrite <- opp_IZR.
  change (Int_part (IZR (- k))) with (Rainbow.floor (IZR (- k))).
  rewrite floor_IZR. lia.
Qed.

Lemma nudge_integer (atoms k : Z) :
  Rainbow.nudge atoms k k
  = if (0 <? k)%Z then ((k - 1)%Z, k)
    else if (k <? atoms - 1)%Z then (k, (k + 1)%Z) else (k, k).
Proof.
  unfold Rainbow.nudge. rewrite Z.eqb_refl, andb_true_r.
  destruct (Z.ltb_spec 0 k).
  - destruct (Z.eqb_spec (k - 1) k); [lia|].
    rewrite andb_false_r. reflexivity.
  - rewrite Z.eqb_refl, andb_true_r.
    destruct (k <? atoms - 1)%Z; reflexivity.
Qed.

Lemma low_up_integer (ag : Rainbow.t) (reward not_done p : R) (k : Z) :
  Rainbow.b ag reward not_done p = IZR k ->
  Rainbow.low_up ag reward not_done p = Rainbow.nudge (Rainbow.atoms ag) k k.
Proof.
  intros Hb. unfold Rainbow.low_up. rewrite Hb, floor_IZR, ceil_IZR.
  reflexivity.
Qed.

(** C5, as the code has it: when [b_i] is an integer [k], [low_i] is
    decremented when [k > 0], and [up_i] is incremented only when [low_i]
    was not decremented (so [k <= 0]) and [k < atoms - 1]: the second
    masked update reads the [low] the first one wrote, so the two
    adjustments never both apply. *)
Theorem nudge_at_integer (ag : Rainbow.t) (reward not_done p : R) (k : Z) :
  Rainbow.b ag reward not_done p = IZR k ->
  Rainbow.low_up ag reward not_done p
  = if (0 <? k)%Z then ((k - 1)%Z, k)
    else if (k <? Rainbow.atoms ag - 1)%Z then (k, (k + 1)%Z) else (k, k).
Proof.
  intros Hb. rewrite (low_up_integer ag reward not_done p k Hb).
  apply nudge_integer.
Qed.

Lemma example_b_is_5 (p : R) : Rainbow.b example_agent (-8) 0 p = IZR 5.
Proof.
  unfold Rainbow.b, Rainbow.target_Q, Rainbow.clamp.
  cbn [example_agent Rainbow.V_min Rainbow.V_max Rainbow.delta_z
       Rainbow.gamma Rainbow.multi_step].
  rewrite Rmult_0_l, Rmult_0_l, Rplus_0_r.
  rewrite Rmax_left by lra. rewrite Rmin_left by lra.
  change (51 - 1)%Z with 50%Z. field.
Qed.

Lemma nudge_at_integer_witness :
  Rainbow.low_up example_agent (-8) 0 0.3
  = if (0 <? 5)%Z then ((5 - 1)%Z, 5%Z)
    else if (5 <? Rainbow.atoms example_agent - 1)%Z
         then (5%Z, (5 + 1)%Z) else (5%Z, 5%Z).
Proof.
  apply (nudge_at_integer example_agent (-8) 0 0.3 5).
  apply example_b_is_5.
Defined.

(** C5 as the specification words it fails on the code: with 51 atoms
    and [b = 5], an interior integer, both conditions of the
    specification hold, yet [up] stays 5 where the independent nudges
    would give 6. *)
Lemma independent_nudges_counterexample :
  Rainbow.b example_agent (-8) 0 0.3 = IZR 5
  /\ (0 < 5 < Rainbow.atoms example_agent - 1)%Z
  /\ spec_nudge (Rainbow.atoms example_agent) 5 5 = (4, 6)%Z
  /\ Rainbow.low_up example_agent (-8) 0 0.3 = (4, 5)%Z
  /\ Rainbow.low_up example_agent (-8) 0 0.3
     <> spec_nudge (Rainbow.atoms example_agent)
          (Rainbow.floor (Rainbow.b example_agent (-8) 0 0.3))
          (Rainbow.ceil (Rainbow.b example_agent (-8) 0 0.3)).
Proof.
  assert (Hlu : Rainbow.low_up example_agent (-8) 0 0.3 = (4, 5)%Z).
  { rewrite (low_up_integer _ _ _ _ 5 (example_b_is_5 0.3)). reflexivity. }
  split_and!.
  - apply example_b_is_5.
  - simpl. lia.
  - simpl. lia.
  - reflexivity.
  - exact Hlu.
  - rewrite Hlu, example_b_is_5, floor_IZR, ceil_IZR. discriminate.
Qed.





Lemma sumR_app l1 l2 : sumR (l1 ++ l2) = (sumR l1 + sumR l2)%R.
Proof.
  induction l1 as [|x l1 IH]; simpl; [lra|].
  fold (sumR (l1 ++ l2)). fold (sumR l1). rewrite IH. lra.
Qed.


Lemma sumR_cons x l : sumR (x :: l) = (x + sumR l)%R.
Proof. reflexivity. Qed.




Section Rows.

Variable ag : Rainbow.t.
Variable pick : R -> R -> R -> Z.
Variable val : R -> R -> R -> R.
Hypothesis pick_range :
  forall r nd p, (0 <= pick r nd p < Rainbow.atoms ag)%Z.

Let A : nat := Z.to_nat (Rainbow.atoms ag).





End Rows.








(** ** Sampling and importance weights *)

Lemma descend_range (levels : list (list R)) :
  forall P idx q,
    adjacent child_of (P :: levels) ->
    (0 <= idx < Z.of_nat (length P))%Z ->
    exists i lf,
      SumTree.descend levels idx q = Ok i
      /\ last (P :: levels) = Some lf
      /\ (0 <= i < Z.of_nat (length lf))%Z.
Proof.
  induction levels as [|C rest IH]; intros P idx q Hadj Hidx.
  - exists idx, P. simpl. auto.
  - apply adjacent_cons in Hadj as [[Hlen _] Hadj].
    destruct (get_succeeds C (idx * 2)%Z) as [left_sum Hget]; [lia|].
    rewrite last_cons_cons.
    cbn [SumTree.descend]. cbn zeta. rewrite Hget. rsimpl.
    destruct (Rgt_dec q left_sum).
    + apply (IH C (idx * 2 + 1)%Z); [assumption | lia].
    + apply (IH C (idx * 2)%Z); [assumption | lia].
Qed.

Lemma descend_all_range (levels : list (list R)) P qs :
  adjacent child_of (P :: levels) -> 0 < length P ->
  exists ind lf,
    SumTree.descend_all levels qs = Ok ind
    /\ length ind = length qs
    /\ last (P :: levels) = Some lf
    /\ Forall (fun i => (0 <= i < Z.of_nat (length lf))%Z) ind.
Proof.
  intros Hadj HP. induction qs as [|q qs IH].
  - destruct (descend_range levels P 0 0%R Hadj) as (_ & lf & _ & Hl & _);
      [lia|].
    exists [], lf. simpl. auto.
  - destruct IH as (ind & lf & Hind & Hlen & Hlast & Hall).
    destruct (descend_range levels P 0 q Hadj) as (i & lf' & Hi & Hl & Hr);
      [lia|].
    rewrite Hlast in Hl. inversion Hl; subst lf'.
    exists (i :: ind), lf. simpl. rewrite Hi. rsimpl. rewrite Hind. rsimpl.
    split_and!; auto.
Qed.

(** [SumTree.sample] on a well-formed tree returns one leaf index per
    draw. *)
Lemma tree_sample_range tr qs :
  wf_tree tr ->
  exists ind lf,
    SumTree.sample tr qs = Ok ind
    /\ length ind = length qs
    /\ SumTree.leaves tr = Ok lf
    /\ Forall (fun i => (0 <= i < Z.of_nat (length lf))%Z) ind.
Proof.
  intros Hwf.
  destruct (wf_total tr Hwf) as (x & rest & E & Htot).
  destruct Hwf as [_ Hadj]. rewrite E in Hadj.
  destruct (descend_all_range rest [x] qs Hadj) as (ind & lf & H1 & H2 & H3 & H4);
    [simpl; lia|].
  exists ind, lf. unfold SumTree.sample, SumTree.leaves.
  rewrite Htot, E. rsimpl. simpl tail. rewrite H3.
  split_and!; auto.
Qed.

Lemma take_at_Forall2 {A} (a : list A) ind xs :
  Np.take_at a ind = Ok xs -> Forall2 (fun i x => Np.get a i = Ok x) ind xs.
Proof.
  revert xs. induction ind as [|i ind IH]; intros xs H; simpl in H.
  - inversion H. constructor.
  - inv_bind H. inv_bind H. inversion H; subst. constructor; auto.
Qed.


(** The maximum of an array. *)
Lemma Rmax_scale (x y c : R) :
  (0 <= c)%R -> Rmax (x * c) (y * c) = (Rmax x y * c)%R.
Proof.
  intros Hc. unfold Rmax. repeat destruct (Rle_dec _ _); nra.
Qed.

Lemma max_of_scale (c : R) (xs : list R) :
  (0 <= c)%R ->
  forall x,
    Buffer.max_of (x * c) (map (fun y => (y * c)%R) xs)
    = (Buffer.max_of x xs * c)%R.
Proof.
  intros Hc. unfold Buffer.max_of.
  induction xs as [|y xs IH]; intros x; simpl; [reflexivity|].
  rewrite Rmax_scale by assumption. apply IH.
Qed.

Lemma max_of_ge_first (xs : list R) :
  forall x, (x <= Buffer.max_of x xs)%R.
Proof.
  unfold Buffer.max_of. induction xs as [|y xs IH]; intros x; simpl; [lra|].
  eapply Rle_trans; [apply (Rmax_l x y) | apply IH].
Qed.

Lemma mapM_power (y : R) (ps : list R) :
  Forall (fun p => (0 < p)%R) ps ->
  mapM (fun p => Buffer.power p y) ps
  = Some (map (fun p => Rpower p y) ps).
Proof.
  induction 1 as [|p ps Hp _ IH]; [reflexivity|].
  cbn [mapM]. rewrite IH. unfold Buffer.power.
  destruct (Rlt_dec 0 p); [reflexivity | contradiction].
Qed.

Lemma Rpower_pos (x y : R) : (0 < Rpower x y)%R.
Proof. unfold Rpower. apply exp_pos. Qed.

Lemma power_ratio (p T beta : R) :
  (0 < p)%R -> (0 < T)%R ->
  Rpower (p / T) (- beta)
  = (Rpower p (- beta) * Rpower (/ T) (- beta))%R.
Proof.
  intros Hp HT. unfold Rdiv.
  rewrite Rpower_mult_distr; [reflexivity | assumption |].
  apply Rinv_0_lt_compat. assumption.
Qed.

(** The weights of the code are those of the specification: the factor
    [total ^ beta] of the latter cancels in the normalisation. *)
Lemma max_of_bounds (xs : list R) :
  forall x,
    Forall (fun y => (y <= Buffer.max_of x xs)%R) (x :: xs)
    /\ Buffer.max_of x xs ∈ x :: xs.
Proof.
  unfold Buffer.max_of.
  induction xs as [|y xs IH]; intros x; simpl.
  - split; [repeat constructor; lra | apply list_elem_of_singleton; reflexivity].
  - destruct (IH (Rmax x y)) as [Hall Hin].
    apply Forall_cons in Hall as [Hm Hall].
    pose proof (Rmax_l x y). pose proof (Rmax_r x y).
    split.
    + repeat (apply Forall_cons_2; [lra|]). assumption.
    + apply elem_of_cons in Hin as [Heq|Hin].
      * rewrite Heq. unfold Rmax. destruct (Rle_dec x y).
        -- apply elem_of_cons. right. apply elem_of_cons. auto.
        -- apply elem_of_cons. auto.
      * apply elem_of_cons. right. apply elem_of_cons. auto.
Qed.

Lemma weights_of_spec (ps : list R) (T beta : R) :
  ps <> [] ->
  Forall (fun p => (0 < p)%R) ps ->
  (0 < T)%R ->
  exists w ws,
    Buffer.weights_of ps beta = Ok (Some (w :: ws))
    /\ w :: ws = spec_weights ps T beta
    /\ Buffer.max_of w ws = 1%R
    /\ Forall (fun x => (0 < x)%R) (w :: ws).
Proof.
  intros Hne Hpos HT. destruct ps as [|p ps]; [contradiction|].
  unfold Buffer.weights_of. rewrite (mapM_power _ _ Hpos). cbn [map].
  set (pw := fun q => Rpower q (- beta)).
  set (w0 := Rpower p (- beta)). set (ws0 := map pw ps).
  set (M := Buffer.max_of w0 ws0).
  set (c := Rpower (/ T) (- beta)).
  assert (Hw0 : (0 < w0)%R) by apply Rpower_pos.
  assert (HM : (0 < M)%R).
  { eapply Rlt_le_trans; [exact Hw0 | apply max_of_ge_first]. }
  assert (Hc : (0 < c)%R) by apply Rpower_pos.
  inversion Hpos as [|? ? Hp Hps]; subst.
  exists (w0 / M)%R, (map (fun x => (x / M)%R) ws0).
  split_and!.
  - reflexivity.
  - unfold spec_weights. cbn [map].
    assert (Hraw : map (fun q => Rpower (q / T) (- beta)) ps
                   = map (fun y => (y * c)%R) ws0).
    { unfold ws0. rewrite map_map.
      clear -Hps HT. induction Hps as [|q ps Hq _ IH]; [reflexivity|].
      simpl. rewrite IH. f_equal. apply power_ratio; assumption. }
    rewrite Hraw, (power_ratio p T beta Hp HT). fold w0 c.
    rewrite max_of_scale by lra. fold M.
    f_equal.
    + field. lra.
    + rewrite map_map. apply map_ext. intros y. field. lra.
  - change (w0 / M)%R with (w0 * / M)%R.
    change (map (fun x => (x / M)%R) ws0)
      with (map (fun x => (x * / M)%R) ws0).
    rewrite max_of_scale.
    + fold M. apply Rinv_r. lra.
    + left. apply Rinv_0_lt_compat. assumption.
  - constructor.
    + apply Rdiv_lt_0_compat; assumption.
    + apply Forall_map. apply Forall_map. apply Forall_forall.
      intros q _. simpl. apply Rdiv_lt_0_compat; [apply Rpower_pos | assumption].
Qed.


Lemma pair_buffer_wf : wf_buffer pair_buffer.
Proof.
  split; [|split].
  - simpl. lia.
  - repeat (apply Forall_cons_2; [reflexivity|]). apply Forall_nil_2.
  - intros _. split; [|vm_compute; discriminate].
    split; [reflexivity|]. simpl.
    apply adjacent_cons. split; [|apply adjacent_one].
    split; [reflexivity|]. simpl. f_equal. lra.
Qed.




(** ** The invariant of the buffer under the other methods *)

Lemma sample_wf b qs u r b' :
  wf_buffer b -> Buffer.sample b qs u = Ok (r, b') -> wf_buffer b'.
Proof.
  intros Hwf H. destruct (Buffer.prioritized b) eqn:Hpr.
  - rewrite (sample_prioritized _ _ _ _ _ Hpr H). exact Hwf.
  - unfold Buffer.sample in H. rewrite Hpr in H.
    repeat inv_bind H. inversion H; subst. exact Hwf.
Qed.

Lemma update_priority_wf b ind priority :
  wf_buffer b ->
  Forall (fun i => (0 <= i < Buffer.max_size b)%Z) ind ->
  length priority = length ind ->
  priority <> [] ->
  exists b', Buffer.update_priority b ind priority = Ok b' /\ wf_buffer b'.
Proof.
  intros (Hptr & Hcols & Htree) Hind Hlen Hne.
  unfold Buffer.update_priority.
  destruct (Buffer.prioritized b) eqn:Hpr.
  - destruct priority as [|p ps]; [contradiction|].
    destruct (Htree eq_refl) as [Hwf Hcap].
    destruct (batch_set_wf (Buffer.tree b) ind (p :: ps) Hwf)
      as (tr' & Hset & Hwf' & Hlens); [|assumption|].
    { eapply Forall_impl; [exact Hind|]. simpl. lia. }
    rewrite Hset. rsimpl. eexists. split; [reflexivity|].
    split; [|split]; cbn; [assumption | assumption |].
    intros _. split; [assumption|].
    rewrite (leaf_count_lengths _ _ Hlens). assumption.
  - exists b. split; [reflexivity|].
    split; [|split]; [assumption | assumption |].
    rewrite Hpr. discriminate.
Qed.

(** ** The embedding on small inputs *)

Ltac rows_eq :=
  repeat match goal with
         | |- _ :: _ = _ :: _ => f_equal
         | |- @eq R _ _ => lra
         | |- _ => reflexivity
         end.

Example index_from_the_end : Np.index 4 (-1) = Ok 3.
Proof. reflexivity. Qed.

Example index_out_of_bounds : Np.index 4 4 = Raise IndexError.
Proof. reflexivity. Qed.

Example unique_first_occurrence :
  Np.unique [3; 1; 3; 0; 1]%Z = ([0; 1; 3]%Z, [3; 1; 0]%Z).
Proof. reflexivity. Qed.

Example slice_negative_stop :
  Np.slice [10; 20; 30; 40; 50]%Z None (Some (-2)%Z) = [10; 20; 30]%Z.
Proof. reflexivity. Qed.

Example slice_assign_tail :
  Np.slice_assign [1; 2; 3; 4; 5]%Z (Some 3%Z) None [8; 9]%Z
  = Ok [1; 2; 3; 8; 9]%Z.
Proof. reflexivity. Qed.

Example slice_assign_broadcast :
  Np.slice_assign [1; 2; 3; 4; 5]%Z (Some 1%Z) (Some 4%Z) [0]%Z
  = Ok [1; 0; 0; 0; 5]%Z.
Proof. reflexivity. Qed.

Example slice_assign_mismatch :
  Np.slice_assign [1; 2; 3; 4; 5]%Z (Some 1%Z) (Some 4%Z) [7; 8]%Z
  = Raise ValueError.
Proof. reflexivity. Qed.

Example init_levels :
  SumTree.init 3
  = Ok {| SumTree.nodes := [[0]; [0; 0]; [0; 0; 0; 0]]%R |}.
Proof. reflexivity. Qed.

Example set_twice :
  exists tr0 tr1 tr2,
    SumTree.init 3 = Ok tr0
    /\ SumTree.set tr0 0 1 = Ok tr1
    /\ SumTree.set tr1 2 3 = Ok tr2
    /\ SumTree.nodes tr2 = [[4]; [1; 3]; [1; 0; 3; 0]]%R.
Proof.
  eexists _, _, _.
  split_and!; [reflexivity | reflexivity | reflexivity |].
  vm_compute. rows_eq.
Qed.

Example batch_set_repeated_index :
  exists tr0 tr1,
    SumTree.init 3 = Ok tr0
    /\ SumTree.batch_set tr0 [2; 0; 2]%Z [3; 4; 5]%R = Ok tr1
    /\ SumTree.nodes tr1 = [[7]; [4; 3]; [4; 0; 3; 0]]%R.
Proof.
  eexists _, _.
  split_and!; [reflexivity | reflexivity |].
  vm_compute. rows_eq.
Qed.

Example nudge_at_zero : Rainbow.nudge 51 0 0 = (0, 1)%Z.
Proof. reflexivity. Qed.

Example nudge_at_last : Rainbow.nudge 51 50 50 = (49, 50)%Z.
Proof. reflexivity. Qed.

Example nudge_between : Rainbow.nudge 51 7 8 = (7, 8)%Z.
Proof. reflexivity. Qed.

(** * Further properties of the code *)

(** ** [SumTree]: construction, [set], [batch_set], [sample] *)

Lemma build_levels_lookup n :
  forall s l,
    l < n ->
    SumTree.build_levels n s !! l = Some (replicate (s * 2 ^ l) 0%R).
Proof.
  induction n as [|n IH]; intros s l Hl; [lia|].
  change (SumTree.build_levels (S n) s)
    with (replicate s 0%R :: SumTree.build_levels n (s * 2)).
  destruct l as [|l].
  - rewrite Nat.pow_0_r, Nat.mul_1_r. reflexivity.
  - rewrite lookup_cons, IH by lia. f_equal. f_equal.
    rewrite Nat.pow_succ_r'. lia.
Qed.

Lemma build_levels_length n s : length (SumTree.build_levels n s) = n.
Proof.
  revert s. induction n as [|n IH]; intros s; simpl; [reflexivity|].
  rewrite IH. reflexivity.
Qed.

(** X1: [SumTree(capacity)] for a positive capacity: [ceil(log2 capacity) +
    1] levels, level [l] made of [2 ^ l] zeros, so that the number of
    leaves is the least power of two that is at least the capacity, and
    the total is 0. *)
Theorem init_shape (capacity : Z) :
  (1 <= capacity)%Z ->
  exists tr,
    SumTree.init capacity = Ok tr
    /\ Z.of_nat (length (SumTree.nodes tr)) = (Z.log2_up capacity + 1)%Z
    /\ (forall l, l < length (SumTree.nodes tr) ->
                  SumTree.nodes tr !! l = Some (replicate (2 ^ l) 0%R))
    /\ Z.of_nat (leaf_count tr) = (2 ^ Z.log2_up capacity)%Z
    /\ (capacity <= Z.of_nat (leaf_count tr) < 2 * capacity)%Z
    /\ SumTree.total tr = Ok 0%R.
Proof.
  intros Hcap.
  destruct (init_wf capacity Hcap) as (tr & Hinit & Hwf & Hcount).
  assert (Hreach : reachable capacity tr).
  { exists tr, []. split_and!; [assumption | constructor | reflexivity]. }
  destruct (reachable_wf capacity tr Hcap Hreach) as [_ Hleaves].
  pose proof (Z.log2_up_nonneg capacity) as Hnn.
  exists tr. split; [assumption|].
  unfold SumTree.init in Hinit.
  destruct (Z.eqb_spec capacity 0); [lia|].
  destruct (Z.ltb_spec capacity 0); [lia|].
  inversion Hinit as [Htr]. clear Hinit. rewrite <- Htr in *.
  cbn [SumTree.nodes]. rewrite build_levels_length.
  split_and!.
  - lia.
  - intros l Hl. rewrite build_levels_lookup by assumption.
    f_equal. f_equal. lia.
  - rewrite Hleaves. apply Z2Nat.id. lia.
  - assumption.
  - rewrite Hleaves, Z2Nat.id by lia.
    destruct (Z.eq_dec capacity 1%Z) as [->|Hne];
      [rewrite Z.log2_up_1; simpl; lia|].
    pose proof (Z.log2_up_spec capacity ltac:(lia)) as [Hlow _].
    replace (Z.log2_up capacity) with (Z.succ (Z.pred (Z.log2_up capacity)))
      by lia.
    rewrite Z.pow_succ_r; [lia|].
    assert (0 < Z.log2_up capacity)%Z by (apply Z.log2_up_pos; lia). lia.
  - unfold SumTree.total. cbn [SumTree.nodes].
    replace (Z.to_nat (Z.log2_up capacity + 1))
      with (S (Z.to_nat (Z.log2_up capacity))) by lia.
    reflexivity.
Qed.

Lemma init_shape_witness :
  exists tr,
    SumTree.init 5 = Ok tr
    /\ Z.of_nat (length (SumTree.nodes tr)) = (Z.log2_up 5 + 1)%Z
    /\ (forall l, l < length (SumTree.nodes tr) ->
                  SumTree.nodes tr !! l = Some (replicate (2 ^ l) 0%R))
    /\ Z.of_nat (leaf_count tr) = (2 ^ Z.log2_up 5)%Z
    /\ (5 <= Z.of_nat (leaf_count tr) < 2 * 5)%Z
    /\ SumTree.total tr = Ok 0%R.
Proof. apply init_shape. lia. Defined.

Lemma leaf_priority_lookup tr lf i :
  SumTree.leaves tr = Ok lf ->
  (0 <= i < Z.of_nat (length lf))%Z ->
  forall x, SumTree.leaf_priority tr i = Ok x <-> lf !! Z.to_nat i = Some x.
Proof.
  intros Hlf Hi x. unfold SumTree.leaf_priority, Np.get.
  rewrite Hlf. rsimpl. rewrite index_nonneg by assumption. rsimpl.
  destruct (lf !! Z.to_nat i) as [y|] eqn:E; split; intros H;
    inversion H; reflexivity.
Qed.

Lemma tree_leaves_lookup {A} capacity (tr : Tree.t A) lf :
  shaped capacity tr ->
  Tree.leaves tr = Ok lf ->
  Tree.nodes tr !! Z.to_nat (Z.log2_up capacity) = Some lf.
Proof.
  intros Hs Hlf. unfold Tree.leaves in Hlf.
  destruct (last (Tree.nodes tr)) as [l|] eqn:E; [|discriminate].
  inversion Hlf; subst l. rewrite last_lookup in E.
  rewrite (shaped_length _ _ _ Hs) in E.
  pose proof (Z.log2_up_nonneg capacity).
  replace (Z.to_nat (Z.log2_up capacity))
    with (Init.Nat.pred (Z.to_nat (Z.log2_up capacity + 1))) by lia.
  exact E.
Qed.

Lemma tree_leaf_priority_lookup {A} (tr : Tree.t A) lf i :
  Tree.leaves tr = Ok lf ->
  (0 <= i < Z.of_nat (length lf))%Z ->
  forall x, Tree.leaf_priority tr i = Ok x <-> lf !! Z.to_nat i = Some x.
Proof.
  intros Hlf Hi x. unfold Tree.leaf_priority, Np.get.
  rewrite Hlf. rsimpl. rewrite index_nonneg by assumption. rsimpl.
  destruct (lf !! Z.to_nat i) as [y|] eqn:E; split; intros H;
    inversion H; reflexivity.
Qed.

Lemma tree_leaf_priority_get {A} (tr : Tree.t A) lf i :
  Tree.leaves tr = Ok lf ->
  (0 <= i < Z.of_nat (length lf))%Z ->
  Tree.leaf_priority tr i
  = match lf !! Z.to_nat i with Some x => Ok x | None => Raise IndexError end.
Proof.
  intros Hlf Hi. unfold Tree.leaf_priority, Np.get.
  rewrite Hlf. rsimpl. rewrite index_nonneg by assumption. rsimpl.
  destruct (lf !! Z.to_nat i); reflexivity.
Qed.

(** X2: [set(i, p)] on a tree of the shape [SumTree(capacity)] builds,
    [i] a slot, in whatever arithmetic: the call returns and keeps the
    shape; with [old] the priority of leaf [i] before the call, it adds
    the difference [p - old] to leaf [i], to the root, and on every
    level to the one node above leaf [i], and leaves every other node
    as it is.  So leaf [i] ends as [old + (p - old)] and the total as
    [total + (p - old)], computed in the arithmetic of the tree. *)
Theorem set_adds_difference (A : arith) (capacity : Z) (tr : Tree.t A)
    (i : Z) (p : num A) :
  (1 <= capacity)%Z ->
  shaped capacity tr ->
  (0 <= i < capacity)%Z ->
  exists tr' old T,
    Tree.set tr i p = Ok tr'
    /\ Tree.leaf_priority tr i = Ok old
    /\ Tree.total tr = Ok T
    /\ shaped capacity tr'
    /\ Tree.leaf_priority tr' i = Ok (plus A old (minus A p old))
    /\ (forall j, (0 <= j < capacity)%Z -> j <> i ->
                  Tree.leaf_priority tr' j = Tree.leaf_priority tr j)
    /\ Tree.total tr' = Ok (plus A T (minus A p old))
    /\ (forall l lev,
          Tree.nodes tr !! l = Some lev ->
          Tree.nodes tr' !! l
          = Some (alter (fun x => plus A x (minus A p old))
                    (Z.to_nat (i / 2 ^ (Z.log2_up capacity - Z.of_nat l)))
                    lev)).
Proof.
  intros Hcap Hs Hi.
  destruct (tree_set_path A capacity tr i p Hcap Hs Hi)
    as (tr' & old & Hset & Hold & Hs' & Hpath).
  destruct (shaped_leaves A capacity tr Hcap Hs)
    as (lf & rest & _ & Hlf & Hlen & Hcl).
  destruct (shaped_leaves A capacity tr' Hcap Hs')
    as (lf' & rest' & _ & Hlf' & Hlen' & Hcl').
  pose proof (Z.log2_up_nonneg capacity) as Hnn.
  pose proof (tree_leaves_lookup capacity tr lf Hs Hlf) as Hl.
  pose proof (tree_leaves_lookup capacity tr' lf' Hs' Hlf') as Hl'.
  rewrite (Hpath _ _ Hl) in Hl'. inversion Hl' as [Elf']. clear Hl'.
  rewrite Z2Nat.id, Z.sub_diag, Z.pow_0_r, Z.div_1_r in Elf' by lia.
  apply (tree_leaf_priority_lookup tr lf i Hlf) in Hold as Hold'; [|lia].
  destruct (Tree.nodes tr) as [|root levels] eqn:En.
  { apply (f_equal (@length _)) in En.
    rewrite (shaped_length _ _ _ Hs) in En. simpl in En. lia. }
  assert (Hroot : length root = 1).
  { apply (shaped_lookup A capacity tr 0 root Hs). rewrite En. reflexivity. }
  destruct root as [|T [|]]; try discriminate.
  exists tr', old, T.
  assert (Hzero : (i / 2 ^ Z.log2_up capacity = 0)%Z).
  { apply Z.div_small. lia. }
  split_and!; try assumption.
  - unfold Tree.total. rewrite En. reflexivity.
  - apply (tree_leaf_priority_lookup tr' lf' i Hlf'); [lia|].
    rewrite <- Elf', list_lookup_alter, decide_True by reflexivity.
    rewrite Hold'. reflexivity.
  - intros j Hj Hne.
    rewrite (tree_leaf_priority_get tr' lf' j Hlf') by lia.
    rewrite (tree_leaf_priority_get tr lf j Hlf) by lia.
    rewrite <- Elf', list_lookup_alter_ne by lia. reflexivity.
  - unfold Tree.total.
    assert (H0 : Tree.nodes tr !! 0 = Some [T]) by (rewrite En; reflexivity).
    rewrite <- En in Hpath.
    pose proof (Hpath 0 [T] H0) as H0'.
    change (Z.of_nat 0) with 0%Z in H0'.
    rewrite Z.sub_0_r, Hzero in H0'.
    destruct (Tree.nodes tr') as [|root' levels']; [discriminate|].
    inversion H0'. reflexivity.
Qed.

Lemma set_adds_difference_witness :
  let tr : Tree.t float64 :=
    Tree.Build_t (A := float64) [[10000000000000000]; [10000000000000000; 0]]%float in
  exists tr' old T,
    Tree.set tr 0 1%float = Ok tr'
    /\ Tree.leaf_priority tr 0 = Ok old
    /\ Tree.total tr = Ok T
    /\ shaped 2 tr'
    /\ Tree.leaf_priority tr' 0 = Ok (plus float64 old (minus float64 1%float old))
    /\ (forall j, (0 <= j < 2)%Z -> j <> 0%Z ->
                  Tree.leaf_priority tr' j = Tree.leaf_priority tr j)
    /\ Tree.total tr' = Ok (plus float64 T (minus float64 1%float old))
    /\ (forall l lev,
          Tree.nodes tr !! l = Some lev ->
          Tree.nodes tr' !! l
          = Some (alter (fun x => plus float64 x (minus float64 1%float old))
                    (Z.to_nat (0 / 2 ^ (Z.log2_up 2 - Z.of_nat l)))
                    lev)).
Proof.
  apply (set_adds_difference float64 2); [lia | reflexivity | lia].
Defined.

(** In float64 the leaf need not end as the priority given: over an old
    priority of [1e16], [set(0, 1.0)] leaves 0, since [1.0 - 1e16]
    rounds to [-1e16]. *)
Example set_float64_absorbed :
  let tr : Tree.t float64 :=
    Tree.Build_t (A := float64) [[10000000000000000]; [10000000000000000; 0]]%float in
  Tree.set tr 0 1%float = Ok (Tree.Build_t (A := float64) [[0]; [0; 0]]%float).
Proof. vm_compute. reflexivity. Qed.

(** The sums of the leaves in front of a node. *)
Lemma prefix_pair_sums (C : list R) :
  forall i, 2 * i <= length C ->
            sumR (take i (pair_sums C)) = sumR (take (2 * i) C).
Proof.
  induction C as [| a | a c C IH] using pair_ind; intros i Hi.
  - simpl in Hi. assert (i = 0) by lia. subst. reflexivity.
  - simpl in Hi. assert (i = 0) by lia. subst. reflexivity.
  - destruct i as [|i]; [reflexivity|].
    replace (2 * S i) with (S (S (2 * i))) by lia.
    cbn [pair_sums take]. rewrite !sumR_cons.
    rewrite IH by (simpl in Hi; lia). lra.
Qed.

Lemma sumR_take_S (l : list R) (i : nat) (x : R) :
  l !! i = Some x -> sumR (take (S i) l) = (sumR (take i l) + x)%R.
Proof.
  revert i. induction l as [|y l IH]; intros i Hi; [discriminate|].
  destruct i as [|i]; simpl in Hi.
  - inversion Hi; subst. cbn [take]. rewrite take_0.
    rewrite !sumR_cons. unfold sumR. simpl. lra.
  - cbn [take]. rewrite !sumR_cons. rewrite (IH i Hi). lra.
Qed.

(** The search of [sample], from a node down: a draw that lies in the
    interval of the node ends in the leaf whose interval holds it. *)
Lemma descend_interval (levels : list (list R)) :
  forall P idx q x,
    adjacent child_of (P :: levels) ->
    (0 <= idx)%Z ->
    P !! Z.to_nat idx = Some x ->
    (0 < q <= x)%R ->
    exists i lf v q',
      SumTree.descend levels idx q = Ok i
      /\ last (P :: levels) = Some lf
      /\ (0 <= i)%Z
      /\ lf !! Z.to_nat i = Some v
      /\ (0 < q' <= v)%R
      /\ (sumR (take (Z.to_nat i) lf) + q'
          = sumR (take (Z.to_nat idx) P) + q)%R.
Proof.
  induction levels as [|C rest IH]; intros P idx q x Hadj Hidx Hx Hq.
  - exists idx, P, x, q. simpl. split_and!; auto; lra.
  - apply adjacent_cons in Hadj as [[Hlen HP] Hadj].
    pose proof (lookup_lt_Some _ _ _ Hx) as Hlt.
    rewrite HP in Hx.
    destruct (pair_sums_lookup _ _ _ Hx) as (a & c & Ha & Hc & Hsum).
    rewrite last_cons_cons.
    cbn [SumTree.descend]. cbn zeta.
    unfold Np.get. rewrite index_nonneg by lia. rsimpl.
    replace (Z.to_nat (idx * 2)) with (2 * Z.to_nat idx) by lia.
    rewrite Ha. rsimpl.
    assert (Hpre : sumR (take (Z.to_nat idx) P)
                   = sumR (take (2 * Z.to_nat idx) C)).
    { rewrite HP. apply prefix_pair_sums. lia. }
    destruct (Rgt_dec q a) as [Hgt|Hle].
    + destruct (IH C (idx * 2 + 1)%Z (q - a)%R c Hadj) as
        (i & lf & v & q' & H1 & H2 & H3 & H4 & H5 & H6).
      { lia. }
      { replace (Z.to_nat (idx * 2 + 1)) with (2 * Z.to_nat idx + 1) by lia.
        assumption. }
      { lra. }
      replace (Z.to_nat (idx * 2 + 1)) with (S (2 * Z.to_nat idx)) in H6
        by lia.
      rewrite (sumR_take_S _ _ _ Ha) in H6.
      exists i, lf, v, q'. split_and!; auto; try lra.
    + destruct (IH C (idx * 2)%Z q a Hadj) as
        (i & lf & v & q' & H1 & H2 & H3 & H4 & H5 & H6).
      { lia. }
      { replace (Z.to_nat (idx * 2)) with (2 * Z.to_nat idx) by lia.
        assumption. }
      { lra. }
      replace (Z.to_nat (idx * 2)) with (2 * Z.to_nat idx) in H6 by lia.
      exists i, lf, v, q'. split_and!; auto; try lra.
Qed.

(** X3: [sample] as a search in the cumulative priorities, in exact
    arithmetic: on a tree in which every node is the sum of its two
    children, a draw [q] with [0 < q <= total] returns the leaf [i]
    with [sum(leaves[:i]) < q <= sum(leaves[:i+1])].  So the priority
    of the returned leaf is strictly positive: on such a tree a slot of
    priority 0 is never returned for a positive draw. *)
Theorem sample_interval (tr : SumTree.t) (q T : R) :
  wf_tree tr ->
  SumTree.total tr = Ok T ->
  (0 < q <= T)%R ->
  exists i lf v,
    SumTree.sample tr [q] = Ok [i]
    /\ SumTree.leaves tr = Ok lf
    /\ (0 <= i)%Z
    /\ lf !! Z.to_nat i = Some v
    /\ (sumR (take (Z.to_nat i) lf) < q
        <= sumR (take (S (Z.to_nat i)) lf))%R
    /\ (0 < v)%R.
Proof.
  intros Hwf HT Hq.
  destruct (wf_total tr Hwf) as (x & rest & E & Htot).
  rewrite HT in Htot. inversion Htot; subst x.
  destruct (wf_leaves tr Hwf) as (lf & _ & _ & Hlf & _).
  destruct Hwf as [_ Hadj]. rewrite E in Hadj.
  destruct (descend_interval rest [T] 0 q T Hadj)
    as (i & lf' & v & q' & H1 & H2 & H3 & H4 & H5 & H6);
    [lia | reflexivity | assumption |].
  assert (lf' = lf).
  { unfold SumTree.leaves in Hlf. rewrite E, H2 in Hlf.
    inversion Hlf. reflexivity. }
  subst lf'.
  exists i, lf, v. unfold SumTree.sample. rewrite HT, E. rsimpl.
  cbn [tail SumTree.descend_all]. rewrite H1. rsimpl.
  change (sumR (take (Z.to_nat 0) [T])) with 0%R in H6.
  split_and!; auto.
  - lra.
  - rewrite (sumR_take_S _ _ _ H4). lra.
  - lra.
Qed.

Lemma sample_interval_witness :
  let tr := {| SumTree.nodes := [[4%R]; [1%R; 3%R]] |} in
  exists i lf v,
    SumTree.sample tr [2.5%R] = Ok [i]
    /\ SumTree.leaves tr = Ok lf
    /\ (0 <= i)%Z
    /\ lf !! Z.to_nat i = Some v
    /\ (sumR (take (Z.to_nat i) lf) < 2.5
        <= sumR (take (S (Z.to_nat i)) lf))%R
    /\ (0 < v)%R.
Proof.
  apply (sample_interval _ 2.5 4).
  - split; [reflexivity|]. simpl.
    apply adjacent_cons. split; [|apply adjacent_one].
    split; [reflexivity|]. simpl. f_equal. lra.
  - reflexivity.
  - lra.
Defined.

(** X4: [sample] never fails on a tree of the given capacity: it returns one
    leaf index per draw, each inside the leaf level, whatever the
    draws. *)
Theorem sample_in_range (capacity : Z) (tr : SumTree.t) (qs : list R) :
  (1 <= capacity)%Z ->
  reachable capacity tr ->
  exists ind,
    SumTree.sample tr qs = Ok ind
    /\ length ind = length qs
    /\ Forall (fun i => (0 <= i < 2 ^ Z.log2_up capacity)%Z) ind.
Proof.
  intros Hcap Hreach.
  destruct (reachable_wf capacity tr Hcap Hreach) as [Hwf Hcount].
  destruct (tree_sample_range tr qs Hwf) as (ind & lf & H1 & H2 & H3 & H4).
  destruct (wf_leaves tr Hwf) as (lf' & _ & _ & Hlf & Hlen).
  rewrite H3 in Hlf. inversion Hlf; subst lf'.
  exists ind. split_and!; [assumption | assumption |].
  eapply Forall_impl; [exact H4|]. simpl. intros i Hi.
  rewrite <- Hlen, Hcount, Z2Nat.id in Hi; [lia|].
  pose proof (Z.log2_up_nonneg capacity). lia.
Qed.

Lemma sample_in_range_witness :
  exists ind,
    SumTree.sample {| SumTree.nodes := SumTree.build_levels 3 1 |}
      [0; 7; -1]%R = Ok ind
    /\ length ind = length [0; 7; -1]%R
    /\ Forall (fun i => (0 <= i < 2 ^ Z.log2_up 3)%Z) ind.
Proof.
  apply sample_in_range; [lia|].
  exists {| SumTree.nodes := SumTree.build_levels 3 1 |}, [].
  split_and!; [reflexivity | constructor | reflexivity].
Defined.

Lemma insert_first_increasing v pos u :
  increasing u -> increasing (Np.insert_first v pos u).
Proof.
  induction u as [|[w q] u IH]; intros Hu; simpl.
  - split; [constructor | exact I].
  - destruct Hu as [Hw Hu].
    destruct (Z.ltb_spec v w) as [Hlt|Hge].
    + split; [|split; assumption].
      apply Forall_cons_2; [simpl; lia|].
      eapply Forall_impl; [exact Hw|]. simpl. intros e He. lia.
    + destruct (Z.eqb_spec v w) as [->|Hne]; [split; assumption|].
      split; [|apply IH; assumption].
      apply insert_first_Forall; [simpl; lia | assumption].
Qed.

Lemma insert_first_present v pos u q0 :
  increasing u -> (v, q0) ∈ u -> Np.insert_first v pos u = u.
Proof.
  induction u as [|[w q] u IH]; intros Hu Hin.
  - inversion Hin.
  - destruct Hu as [Hw Hu]. simpl.
    apply elem_of_cons in Hin as [Heq|Hin].
    + inversion Heq; subst.
      rewrite Z.ltb_irrefl, Z.eqb_refl. reflexivity.
    + rewrite Forall_forall in Hw. specialize (Hw _ Hin). simpl in Hw.
      destruct (Z.ltb_spec v w); [lia|].
      destruct (Z.eqb_spec v w); [lia|].
      rewrite IH by assumption. reflexivity.
Qed.

Lemma insert_first_elem v pos u e :
  e ∈ Np.insert_first v pos u -> e = (v, pos) \/ e ∈ u.
Proof.
  induction u as [|[w q] u IH]; simpl.
  - intros H. apply list_elem_of_singleton in H. auto.
  - destruct (v <? w)%Z.
    + intros H. apply elem_of_cons in H as [->|H]; auto.
    + destruct (v =? w)%Z; [auto|].
      intros H. apply elem_of_cons in H as [->|H].
      * right. apply elem_of_cons. auto.
      * destruct (IH H) as [->|H']; [auto|].
        right. apply elem_of_cons. auto.
Qed.

Lemma insert_first_keeps v pos u e :
  e ∈ u -> e ∈ Np.insert_first v pos u.
Proof.
  induction u as [|[w q] u IH]; simpl; intros H.
  - inversion H.
  - destruct (v <? w)%Z; [apply elem_of_cons; auto|].
    destruct (v =? w)%Z; [assumption|].
    apply elem_of_cons in H as [->|H]; apply elem_of_cons; auto.
Qed.

Lemma insert_first_key v pos u :
  exists q0, (v, q0) ∈ Np.insert_first v pos u
             /\ (q0 = pos \/ (v, q0) ∈ u).
Proof.
  induction u as [|[w q] u IH]; simpl.
  - exists pos. split; [apply list_elem_of_singleton; reflexivity | auto].
  - destruct (Z.ltb_spec v w).
    + exists pos. split; [apply elem_of_cons; auto | auto].
    + destruct (Z.eqb_spec v w) as [->|Hne].
      * exists q. split; [apply elem_of_cons; auto|].
        right. apply elem_of_cons. auto.
      * destruct IH as (q0 & H1 & H2). exists q0.
        split; [apply elem_of_cons; auto|].
        destruct H2; [auto|]. right. apply elem_of_cons. auto.
Qed.

Lemma unique_from_table (xs : list Z) :
  forall rest pos u,
    xs = take pos xs ++ rest ->
    pos + length rest = length xs ->
    unique_table xs pos u ->
    unique_table xs (length xs) (Np.unique_from pos rest u).
Proof.
  induction rest as [|x rest IH]; intros pos u Hxs Hlen (Hinc & Hent & Hcov).
  - simpl in *. rewrite Nat.add_0_r in Hlen. subst pos.
    split_and!; assumption.
  - simpl. simpl in Hlen.
    assert (Hx : xs !! pos = Some x).
    { rewrite Hxs. rewrite lookup_app_r by (rewrite length_take; lia).
      rewrite length_take, Nat.min_l by lia.
      rewrite Nat.sub_diag. reflexivity. }
    apply IH.
    + rewrite (take_S_r _ _ _ Hx), <- app_assoc. exact Hxs.
    + lia.
    + split_and!.
      * apply insert_first_increasing. assumption.
      * intros v q Hin. pose proof Hin as Hin0.
        apply insert_first_elem in Hin as [Heq|Hin].
        -- inversion Heq; subst v q. split_and!; [lia | assumption |].
           intros q' Hq' Hq'x.
           destruct (Hcov q' x Hq' Hq'x) as [q0 Hq0].
           rewrite (insert_first_present x pos u q0 Hinc Hq0) in Hin0.
           destruct (Hent x pos Hin0) as [Hlt _]. lia.
        -- destruct (Hent v q Hin) as (H1 & H2 & H3).
           split_and!; [lia | assumption | assumption].
      * intros q v Hq Hv.
        destruct (decide (q = pos)) as [->|Hne].
        -- rewrite Hx in Hv. inversion Hv; subst v.
           destruct (insert_first_key x pos u) as (q0 & Hq0 & _). eauto.
        -- destruct (Hcov q v) as [q0 Hq0]; [lia | assumption |].
           exists q0. apply insert_first_keeps. assumption.
Qed.

Lemma increasing_NoDup u : increasing u -> NoDup (map fst u).
Proof.
  induction u as [|e u IH]; intros Hu; simpl.
  - constructor.
  - destruct Hu as [He Hu]. constructor; [|apply IH; assumption].
    intros Hin. apply list_elem_of_fmap in Hin as (e' & Heq & Hin').
    rewrite Forall_forall in He. specialize (He e' Hin'). lia.
Qed.

(** [np.unique(xs, return_index=True)]: distinct values, each with the
    position of its first occurrence in [xs], and no value of [xs] left
    out. *)
Lemma unique_first xs uix upos :
  Np.unique xs = (uix, upos) ->
  NoDup uix
  /\ length upos = length uix
  /\ (forall j v, uix !! j = Some v ->
        exists q, upos !! j = Some (Z.of_nat q)
                  /\ xs !! q = Some v
                  /\ forall q', q' < q -> xs !! q' <> Some v)
  /\ (forall q v, xs !! q = Some v -> v ∈ uix).
Proof.
  unfold Np.unique. intros E. inversion E; subst; clear E.
  destruct (unique_from_table xs xs 0 []) as (Hinc & Hent & Hcov).
  { rewrite take_0. reflexivity. }
  { reflexivity. }
  { split_and!; [exact I | |].
    - intros v q Hin. inversion Hin.
    - intros q v Hq. lia. }
  set (u := Np.unique_from 0 xs []) in *.
  split_and!.
  - apply increasing_NoDup. assumption.
  - rewrite !length_map. reflexivity.
  - intros j v Hj.
    apply list_lookup_fmap_Some in Hj as ([v' q] & Hv & Hu).
    simpl in Hv. subst v'.
    exists q. split.
    + change (map (fun p => Z.of_nat (snd p)) u)
        with ((fun p : Z * nat => Z.of_nat (snd p)) <$> u).
      rewrite list_lookup_fmap, Hu. reflexivity.
    + apply (Hent v q). eapply list_elem_of_lookup_2. eassumption.
  - intros q v Hq.
    destruct (Hcov q v) as [q0 Hq0]; [|assumption|].
    { eapply lookup_lt_Some. eassumption. }
    apply list_elem_of_fmap. exists (v, q0). auto.
Qed.

Lemma take_at_lookup {A} (a : list A) ind xs :
  Np.take_at a ind = Ok xs ->
  Forall (fun i => (0 <= i)%Z) ind ->
  Forall2 (fun i x => a !! Z.to_nat i = Some x) ind xs.
Proof.
  intros H Hnn. apply take_at_Forall2 in H.
  induction H as [|i x ind xs Hi _ IH]; constructor.
  - inversion Hnn as [|? ? Hi0 _]; subst.
    apply get_Ok in Hi as (k & Hk & Hx).
    pose proof (index_Ok _ _ _ Hk) as [Hrange _].
    rewrite index_nonneg in Hk by lia. inversion Hk; subst. assumption.
  - inversion Hnn; subst. apply IH. assumption.
Qed.

(** [np.add.at] with distinct indices and the differences to the old
    values: every indexed entry receives its new value, the others
    stay. *)
Lemma add_at_many_assign (ix : list Z) :
  forall ps olds a,
    NoDup ix ->
    Forall (fun i => (0 <= i < Z.of_nat (length a))%Z) ix ->
    length ps = length ix ->
    Forall2 (fun i o => a !! Z.to_nat i = Some o) ix olds ->
    exists a',
      Np.add_at_many a ix (zip_with Rminus ps olds) = Ok a'
      /\ length a' = length a
      /\ (forall j i p, ix !! j = Some i -> ps !! j = Some p ->
                        a' !! Z.to_nat i = Some p)
      /\ (forall k, (forall i, i ∈ ix -> Z.to_nat i <> k) ->
                    a' !! k = a !! k).
Proof.
  induction ix as [|i ix IH]; intros ps olds a Hnd Hr Hlen Hold.
  - inversion Hold; subst. destruct ps; [|discriminate].
    exists a. simpl. split_and!; auto. intros j i p Hj. discriminate.
  - inversion Hold as [|? o ? olds' Ho Hold']; subst.
    destruct ps as [|p ps]; [discriminate|].
    inversion Hnd as [|? ? Hnotin Hnd']; subst.
    inversion Hr as [|? ? Hi Hr']; subst.
    set (a1 := alter (fun x => (x + (p - o))%R) (Z.to_nat i) a).
    assert (Hlen1 : length a1 = length a) by apply length_alter.
    destruct (IH ps olds' a1 Hnd') as (a' & Hadd & Hl & Hset & Hkeep).
    { rewrite Hlen1. assumption. }
    { simpl in Hlen. lia. }
    { clear -Hold' Hnotin Hr' Hi. revert Hr' Hnotin.
      induction Hold' as [|i' o' ix olds Ho' _ IH']; intros Hr' Hnotin;
        constructor.
      - unfold a1. rewrite list_lookup_alter_ne; [assumption|].
        inversion Hr'; subst. intros Heq.
        apply Hnotin. apply elem_of_cons. left. lia.
      - inversion Hr'; subst. apply IH'; [assumption|].
        intros Hin. apply Hnotin. apply elem_of_cons. auto. }
    exists a'. simpl. unfold Np.add_at.
    rewrite index_nonneg by lia. rsimpl. fold a1. rewrite Hadd.
    split_and!; [reflexivity | congruence | |].
    + intros [|j] i0 p0 Hj Hp; simpl in Hj, Hp.
      * inversion Hj; inversion Hp; subst.
        rewrite Hkeep.
        -- unfold a1. rewrite list_lookup_alter, decide_True by reflexivity.
           rewrite Ho. simpl. f_equal. lra.
        -- intros i' Hi' Heq. apply Hnotin.
           rewrite Forall_forall in Hr'. specialize (Hr' _ Hi').
           replace i0 with i' by lia. assumption.
      * eapply Hset; eassumption.
    + intros k Hk. rewrite Hkeep.
      * unfold a1. apply list_lookup_alter_ne.
        apply Hk. apply elem_of_cons. auto.
      * intros i' Hi'. apply Hk. apply elem_of_cons. auto.
Qed.

(** [batch_set] on a well-formed tree with at least [capacity] leaves. *)
Lemma batch_set_leaves_wf (capacity : Z) (tr : SumTree.t)
    (ix : list Z) (ps : list R) :
  wf_tree tr ->
  (capacity <= Z.of_nat (leaf_count tr))%Z ->
  Forall (fun i => (0 <= i < capacity)%Z) ix ->
  length ps = length ix ->
  exists tr' lf lf',
    SumTree.batch_set tr ix ps = Ok tr'
    /\ SumTree.leaves tr = Ok lf
    /\ SumTree.leaves tr' = Ok lf'
    /\ length lf' = length lf
    /\ (forall f s p,
          ix !! f = Some s ->
          (forall f', f' < f -> ix !! f' <> Some s) ->
          ps !! f = Some p ->
          lf' !! Z.to_nat s = Some p)
    /\ (forall k, (forall s, s ∈ ix -> Z.to_nat s <> k) ->
                  lf' !! k = lf !! k)
    /\ (forall k x, lf' !! k = Some x -> lf !! k = Some x \/ x ∈ ps)
    /\ wf_tree tr'
    /\ leaf_count tr' = leaf_count tr.
Proof.
  intros Hwf Hn Hix Hlen.
  destruct (batch_set_wf tr ix ps Hwf) as (tr0 & Hset0 & Hwf0 & Hlens0);
    [eapply Forall_impl; [exact Hix|]; simpl; lia | assumption |].
  destruct (wf_leaves tr Hwf) as (lf & rest & Erev & Hlf & Hcnt).
  rewrite Hcnt in Hn.
  unfold SumTree.batch_set.
  destruct (Np.unique ix) as [uix upos] eqn:Eu.
  destruct (unique_spec (fun i => (0 <= i < capacity)%Z) _ _ _ Eu Hix)
    as (Huix & Hupos & Hul).
  destruct (unique_first _ _ _ Eu) as (Hnd & _ & Hfirst & Hcover).
  destruct (take_at_succeeds ps upos) as (newp & Hnewp & Hnl).
  { rewrite Hlen. eapply Forall_impl; [exact Hupos|]. simpl. lia. }
  destruct (take_at_succeeds lf uix) as (old & Hold & Hol).
  { eapply Forall_impl; [exact Huix|]. simpl. lia. }
  assert (Hadj : adjacent (flip child_of) (lf :: rest)).
  { rewrite <- Erev. apply adjacent_reverse. apply Hwf. }
  destruct (add_up_many_chain lf rest uix (zip_with Rminus newp old) Hadj)
    as (c' & rest' & Hup & Hc' & _ & _).
  { eapply Forall_impl; [exact Huix|]. simpl. lia. }
  { rewrite length_zip_with. lia. }
  destruct (add_at_many_assign uix newp old lf Hnd)
    as (c'' & Hc'' & Hl'' & Hset & Hkeep).
  { eapply Forall_impl; [exact Huix|]. simpl. lia. }
  { lia. }
  { apply take_at_lookup; [assumption|].
    eapply Forall_impl; [exact Huix|]. simpl. lia. }
  rewrite Hc' in Hc''. inversion Hc''; subst c''.
  assert (Hrun : SumTree.batch_set tr ix ps
                 = Ok {| SumTree.nodes := reverse (c' :: rest') |}).
  { unfold SumTree.batch_set. rewrite Eu.
    rewrite Hnewp. rsimpl. rewrite Hlf. rsimpl. rewrite Hold. rsimpl.
    rewrite Erev, Hup. reflexivity. }
  rewrite Hrun in Hset0. inversion Hset0; subst tr0.
  exists {| SumTree.nodes := reverse (c' :: rest') |}, lf, c'.
  split_and!;
    [ | assumption | | assumption | | | | assumption
    | apply leaf_count_lengths; assumption ].
  - unfold SumTree.batch_set in Hrun. rewrite Eu in Hrun. exact Hrun.
  - unfold SumTree.leaves. cbn [SumTree.nodes].
    rewrite last_reverse. reflexivity.
  - intros f s p Hf Hfirst_f Hp.
    pose proof (Hcover f s Hf) as Hin.
    apply list_elem_of_lookup in Hin as [j Hj].
    destruct (Hfirst j s Hj) as (q & Hq & Hxq & Hmin).
    assert (q = f).
    { destruct (Nat.lt_trichotomy q f) as [Hlt|[Heq|Hgt]];
        [exfalso; apply (Hfirst_f q Hlt Hxq) | assumption
        | exfalso; apply (Hmin f Hgt Hf)]. }
    subst q.
    apply (Hset j s p Hj).
    apply take_at_Forall2 in Hnewp.
    destruct (Forall2_lookup_l _ _ _ _ _ Hnewp Hq) as (p' & Hp' & Hget).
    apply get_Ok in Hget as (k & Hk & Hpk).
    rewrite index_nonneg in Hk.
    + inversion Hk; subst k. rewrite Nat2Z.id in Hpk.
      rewrite Hp in Hpk. inversion Hpk; subst. assumption.
    + apply lookup_lt_Some in Hp. lia.
  - intros k Hk. apply Hkeep.
    intros i Hi. apply list_elem_of_lookup in Hi as [j Hj].
    destruct (Hfirst j i Hj) as (q & _ & Hxq & _).
    apply Hk. eapply list_elem_of_lookup_2. eassumption.
  - intros k x Hx.
    destruct (decide (Exists (fun i => Z.to_nat i = k) uix)) as [Hex|Hno].
    + right. apply Exists_exists in Hex as (i & Hi & Hik).
      apply list_elem_of_lookup in Hi as [j Hj].
      destruct (lookup_lt_is_Some_2 newp j) as [p Hp].
      { rewrite Hnl, Hul. eapply lookup_lt_Some. eassumption. }
      rewrite <- Hik, (Hset j i p Hj Hp) in Hx.
      inversion Hx; subst x.
      apply take_at_Forall2 in Hnewp.
      destruct (Forall2_lookup_r _ _ _ _ _ Hnewp Hp) as (q & _ & Hget).
      apply get_Ok in Hget as (k' & _ & Hk').
      eapply list_elem_of_lookup_2. eassumption.
    + left. rewrite <- Hx. symmetry. apply Hkeep.
      intros i Hi Hik. apply Hno. apply Exists_exists. eauto.
Qed.

(** [np.add.at] with distinct indices and the differences to the old
    values, in any arithmetic: every indexed entry [o] becomes
    [o + (p - o)], the others stay. *)
Lemma tree_add_at_many_assign (A : arith) (ix : list Z) :
  forall (ps olds a : list (num A)),
    NoDup ix ->
    Forall (fun i => (0 <= i < Z.of_nat (length a))%Z) ix ->
    length ps = length ix ->
    Forall2 (fun i o => a !! Z.to_nat i = Some o) ix olds ->
    exists a',
      Tree.add_at_many A a ix (zip_with (minus A) ps olds) = Ok a'
      /\ length a' = length a
      /\ (forall j i p o, ix !! j = Some i -> ps !! j = Some p ->
                          a !! Z.to_nat i = Some o ->
                          a' !! Z.to_nat i = Some (plus A o (minus A p o)))
      /\ (forall k, (forall i, i ∈ ix -> Z.to_nat i <> k) ->
                    a' !! k = a !! k).
Proof.
  induction ix as [|i ix IH]; intros ps olds a Hnd Hr Hlen Hold.
  - inversion Hold; subst. destruct ps; [|discriminate].
    exists a. simpl. split_and!; auto. intros j i p o Hj. discriminate.
  - inversion Hold as [|? o ? olds' Ho Hold']; subst.
    destruct ps as [|p ps]; [discriminate|].
    inversion Hnd as [|? ? Hnotin Hnd']; subst.
    inversion Hr as [|? ? Hi Hr']; subst.
    set (a1 := alter (fun x => plus A x (minus A p o)) (Z.to_nat i) a).
    assert (Hlen1 : length a1 = length a) by apply length_alter.
    assert (Hother : forall i', i' ∈ ix -> a1 !! Z.to_nat i' = a !! Z.to_nat i').
    { intros i' Hi'. unfold a1. apply list_lookup_alter_ne.
      rewrite Forall_forall in Hr'. specialize (Hr' _ Hi').
      intros Heq. apply Hnotin. replace i with i' by lia. assumption. }
    destruct (IH ps olds' a1 Hnd') as (a' & Hadd & Hl & Hset & Hkeep).
    { rewrite Hlen1. assumption. }
    { simpl in Hlen. lia. }
    { clear -Hold' Hother. induction Hold' as [|i' o' ix olds Ho' _ IH'];
        constructor.
      - rewrite Hother; [assumption | apply elem_of_cons; auto].
      - apply IH'. intros i0 Hi0. apply Hother. apply elem_of_cons. auto. }
    exists a'. cbn [zip_with Tree.add_at_many].
    rewrite tree_add_at_nonneg by assumption. rsimpl. fold a1. rewrite Hadd.
    split_and!; [reflexivity | congruence | |].
    + intros [|j] i0 p0 o0 Hj Hp Ho0; simpl in Hj, Hp.
      * inversion Hj; inversion Hp; subst.
        rewrite Ho in Ho0. inversion Ho0; subst o0.
        rewrite Hkeep.
        -- unfold a1. rewrite list_lookup_alter, decide_True by reflexivity.
           rewrite Ho. reflexivity.
        -- intros i' Hi' Heq. apply Hnotin.
           rewrite Forall_forall in Hr'. specialize (Hr' _ Hi').
           replace i0 with i' by lia. assumption.
      * apply (Hset j i0 p0 o0 Hj Hp).
        rewrite Hother; [assumption|].
        eapply list_elem_of_lookup_2. eassumption.
    + intros k Hk. rewrite Hkeep.
      * unfold a1. apply list_lookup_alter_ne.
        apply Hk. apply elem_of_cons. auto.
      * intros i' Hi'. apply Hk. apply elem_of_cons. auto.
Qed.

(** X5: [batch_set(ind, priorities)] on a tree of the shape
    [SumTree(capacity)] builds, with slots as indices and one priority
    per index, in whatever arithmetic: the call returns and keeps the
    shape.  A slot that occurs in [ind] receives, once, the difference
    between the priority given at its first occurrence and its old
    priority, whatever later occurrences say, so it ends as
    [old + (p - old)] in the arithmetic of the tree; a slot that does
    not occur keeps its priority. *)
Theorem batch_set_first_occurrence (A : arith) (capacity : Z)
    (tr : Tree.t A) (ix : list Z) (ps : list (num A)) :
  (1 <= capacity)%Z ->
  shaped capacity tr ->
  Forall (fun i => (0 <= i < capacity)%Z) ix ->
  length ps = length ix ->
  exists tr',
    Tree.batch_set tr ix ps = Ok tr'
    /\ shaped capacity tr'
    /\ (forall f s p old,
          ix !! f = Some s ->
          (forall f', f' < f -> ix !! f' <> Some s) ->
          ps !! f = Some p ->
          Tree.leaf_priority tr s = Ok old ->
          Tree.leaf_priority tr' s = Ok (plus A old (minus A p old)))
    /\ (forall s, (0 <= s < capacity)%Z -> s ∉ ix ->
                  Tree.leaf_priority tr' s = Tree.leaf_priority tr s).
Proof.
  intros Hcap Hs Hix Hlen.
  destruct (tree_batch_set_shaped A capacity tr ix ps Hcap Hs Hix Hlen)
    as (tr' & uix & upos & newp & lf & old & lf'
        & Hset & Hs' & Eu & Hnewp & Hlf & Hold & Hadd & Hlf').
  destruct (shaped_leaves A capacity tr Hcap Hs)
    as (lf0 & _ & _ & Hlf0 & _ & Hcl).
  rewrite Hlf in Hlf0. inversion Hlf0; subst lf0.
  destruct (unique_spec (fun i => (0 <= i < capacity)%Z) _ _ _ Eu Hix)
    as (Huix & Hupos & Hul).
  destruct (unique_first _ _ _ Eu) as (Hnd & _ & Hfirst & Hcover).
  assert (Hnl : length newp = length uix).
  { apply take_at_Forall2 in Hnewp. apply Forall2_length in Hnewp. lia. }
  destruct (tree_add_at_many_assign A uix newp old lf Hnd)
    as (c & Hc & Hlc & Hnew & Hkeep).
  { eapply Forall_impl; [exact Huix|]. simpl. lia. }
  { assumption. }
  { apply take_at_lookup; [assumption|].
    eapply Forall_impl; [exact Huix|]. simpl. lia. }
  rewrite Hadd in Hc. inversion Hc; subst c.
  exists tr'. split_and!; [assumption | assumption | |].
  - intros f s p o Hf Hfirst_f Hp Ho.
    assert (Hsr : (0 <= s < capacity)%Z).
    { rewrite Forall_forall in Hix. apply Hix.
      eapply list_elem_of_lookup_2. eassumption. }
    apply (tree_leaf_priority_lookup tr lf s Hlf) in Ho; [|lia].
    apply (tree_leaf_priority_lookup tr' lf' s Hlf'); [lia|].
    pose proof (Hcover f s Hf) as Hin.
    apply list_elem_of_lookup in Hin as [j Hj].
    destruct (Hfirst j s Hj) as (q & Hq & Hxq & Hmin).
    assert (q = f).
    { destruct (Nat.lt_trichotomy q f) as [Hlt|[Heq|Hgt]];
        [exfalso; apply (Hfirst_f q Hlt Hxq) | assumption
        | exfalso; apply (Hmin f Hgt Hf)]. }
    subst q.
    apply (Hnew j s p o Hj); [|assumption].
    apply take_at_Forall2 in Hnewp.
    destruct (Forall2_lookup_l _ _ _ _ _ Hnewp Hq) as (p' & Hp' & Hget).
    apply get_Ok in Hget as (k & Hk & Hpk).
    rewrite index_nonneg in Hk.
    + inversion Hk; subst k. rewrite Nat2Z.id in Hpk.
      rewrite Hp in Hpk. inversion Hpk; subst. assumption.
    + apply lookup_lt_Some in Hp. lia.
  - intros s Hsr Hnot.
    rewrite (tree_leaf_priority_get tr' lf' s Hlf') by lia.
    rewrite (tree_leaf_priority_get tr lf s Hlf) by lia.
    rewrite Hkeep; [reflexivity|].
    intros i Hi Heq. apply Hnot.
    apply list_elem_of_lookup in Hi as [j Hj].
    destruct (Hfirst j i Hj) as (q & _ & Hxq & _).
    assert (i = s).
    { rewrite Forall_forall in Hix.
      pose proof (Hix i (list_elem_of_lookup_2 _ _ _ Hxq)). lia. }
    subst i. eapply list_elem_of_lookup_2. eassumption.
Qed.

Lemma batch_set_first_occurrence_witness :
  let tr : Tree.t float64 :=
    Tree.Build_t (A := float64)
      [[10000001]; [10000000; 1]; [10000000; 0; 1; 0]]%float in
  exists tr',
    Tree.batch_set tr [2; 0; 2]%Z [3; 0.0000000001; 5]%float = Ok tr'
    /\ shaped 3 tr'
    /\ (forall f s p old,
          [2; 0; 2]%Z !! f = Some s ->
          (forall f', f' < f -> [2; 0; 2]%Z !! f' <> Some s) ->
          [3; 0.0000000001; 5]%float !! f = Some p ->
          Tree.leaf_priority tr s = Ok old ->
          Tree.leaf_priority tr' s
          = Ok (plus float64 old (minus float64 p old)))
    /\ (forall s, (0 <= s < 3)%Z -> s ∉ [2; 0; 2]%Z ->
                  Tree.leaf_priority tr' s = Tree.leaf_priority tr s).
Proof.
  apply (batch_set_first_occurrence float64 3);
    [lia | reflexivity | repeat constructor; lia | reflexivity].
Defined.

(** In float64 a small priority written over a large one is lost: over
    an old priority of [1e7], the priority [1e-10] leaves 0 in the
    leaf. *)
Example batch_set_float64_absorbed :
  let tr : Tree.t float64 :=
    Tree.Build_t (A := float64)
      [[10000001]; [10000000; 1]; [10000000; 0; 1; 0]]%float in
  exists tr',
    Tree.batch_set tr [2; 0; 2]%Z [3; 0.0000000001; 5]%float = Ok tr'
    /\ Tree.leaves tr' = Ok [0; 0; 3; 0]%float.
Proof. eexists. split; vm_compute; reflexivity. Qed.

(** ** [Buffer]: [add], [sample], [update_priority] *)

Lemma add_all_spec (bts : list batch) :
  forall b,
    wf_buffer b ->
    (Buffer.size b <= Buffer.max_size b)%Z ->
    Forall (fits (Buffer.max_size b)) bts ->
    exists b',
      add_all b bts = Ok b'
      /\ wf_buffer b'
      /\ Buffer.max_size b' = Buffer.max_size b
      /\ Buffer.ptr b'
         = ((Buffer.ptr b + transitions_of bts) mod Buffer.max_size b)%Z
      /\ Buffer.size b'
         = Z.min (Buffer.size b + Z.of_nat (length bts)) (Buffer.max_size b).
Proof.
  induction bts as [|bt bts IH]; intros b Hwf Hsz Hfit.
  - exists b. simpl. split_and!; auto.
    + rewrite Z.add_0_r. symmetry. apply Z.mod_small. apply Hwf.
    + lia.
  - inversion Hfit as [|? ? [Hrows Hk] Hrest]; subst.
    destruct (add_spec b bt _ Hwf Hrows)
      as (b1 & Hadd & _ & Hptr & Hsize & Hmax & _ & _ & _ & _ & Hwf1);
      [lia|].
    destruct (IH b1 Hwf1) as (b' & Hall & Hwf' & Hmax' & Hptr' & Hsize').
    { rewrite Hsize, Hmax. lia. }
    { rewrite Hmax. assumption. }
    exists b'. simpl. rewrite Hadd. rsimpl.
    split_and!; [assumption | assumption | congruence | |].
    + rewrite Hptr', Hptr, Hmax.
      rewrite Zplus_mod_idemp_l. f_equal. lia.
    + rewrite Hsize', Hsize, Hmax. lia.
Qed.

(** X6: Calls of [add] on a fresh buffer, each with a batch of at most
    [capacity] transitions: all return, the write pointer is the number
    of transitions added so far modulo the capacity, and [size] is the
    number of calls, capped at the capacity. *)
Theorem add_sequence (state_dim : nat) (batch_size capacity : Z)
    (prioritized : bool) (bts : list batch) :
  (1 <= capacity)%Z ->
  Forall (fits capacity) bts ->
  exists b0 b,
    Buffer.init state_dim batch_size capacity prioritized = Ok b0
    /\ add_all b0 bts = Ok b
    /\ Buffer.ptr b = (transitions_of bts mod capacity)%Z
    /\ Buffer.size b = Z.min (Z.of_nat (length bts)) capacity
    /\ (0 <= Buffer.ptr b < capacity)%Z
    /\ Forall (fun arr => length arr = Z.to_nat capacity) (columns b).
Proof.
  intros Hcap Hfit.
  destruct (init_wf_buffer state_dim batch_size capacity prioritized Hcap)
    as (b0 & Hinit & Hwf0 & Hmax0 & Hptr0 & Hsize0 & _).
  destruct (add_all_spec bts b0 Hwf0) as (b & Hall & Hwf & Hmax & Hptr & Hsize).
  { rewrite Hsize0, Hmax0. lia. }
  { rewrite Hmax0. assumption. }
  exists b0, b.
  rewrite Hptr0, Hmax0 in Hptr. rewrite Hsize0, Hmax0 in Hsize.
  destruct Hwf as (Hp & Hcols & _). rewrite Hmax, Hmax0 in Hp, Hcols.
  split_and!; [assumption | assumption | | | lia | lia | assumption].
  - rewrite Hptr. f_equal.
  - rewrite Hsize. lia.
Qed.

Lemma add_sequence_witness :
  exists b0 b,
    Buffer.init 2 4 5 true = Ok b0
    /\ add_all b0 [example_batch; example_batch; example_batch] = Ok b
    /\ Buffer.ptr b
       = (transitions_of [example_batch; example_batch; example_batch]
          mod 5)%Z
    /\ Buffer.size b
       = Z.min (Z.of_nat (length [example_batch; example_batch;
                                  example_batch])) 5
    /\ (0 <= Buffer.ptr b < 5)%Z
    /\ Forall (fun arr => length arr = Z.to_nat 5) (columns b).
Proof.
  apply add_sequence; [lia|].
  repeat (apply Forall_cons_2;
          [split; [exact example_batch_rows | simpl; lia]|]).
  apply Forall_nil_2.
Defined.

Lemma write_split_refused (arr v : list (list R)) (pt e : Z) :
  (0 <= pt < Z.of_nat (length arr))%Z ->
  (0 <= e)%Z ->
  (2 * Z.of_nat (length arr) - pt <= Z.of_nat (length v) - e)%Z ->
  Buffer.write_split arr pt (Z.of_nat (length v)) e v = Raise ValueError.
Proof.
  intros Hpt He Hbig. unfold Buffer.write_split.
  set (src := Np.slice v None (Some (Z.of_nat (length v) - e)%Z)).
  assert (Hsrc : length src = Z.to_nat (Z.of_nat (length v) - e)).
  { unfold src, Np.slice. cbn [Np.slice_start Np.slice_stop].
    rewrite clip_small by lia.
    rewrite drop_0, Nat.sub_0_r, length_take. lia. }
  assert (Hfirst : Np.slice_assign arr (Some pt) None src = Raise ValueError).
  { unfold Np.slice_assign. cbn [Np.slice_start Np.slice_stop].
    rewrite clip_small by lia.
    rewrite decide_False by lia.
    destruct src as [|x [|y src']]; simpl in Hsrc;
      [reflexivity | lia | reflexivity]. }
  rewrite Hfirst. reflexivity.
Qed.

(** X7: A batch so large that it would wrap twice ([ptr + k >= 2 *
    max_size]) is refused: the first slice assignment of [add] does not
    fit and raises [ValueError]. *)
Theorem add_oversize (b : Buffer.t) (bt : batch) :
  wf_buffer b ->
  (Buffer.ptr b + Z.of_nat (length (b_state bt))
   >= 2 * Buffer.max_size b)%Z ->
  add_batch b bt = Raise ValueError.
Proof.
  intros (Hptr & Hcols & _) Hbig.
  unfold columns in Hcols. apply Forall_cons in Hcols as [Hst _].
  unfold add_batch, Buffer.add.
  destruct (Z.eqb_spec (Buffer.max_size b) 0) as [E|_]; [lia|].
  set (k := Z.of_nat (length (b_state bt))) in *.
  set (mx := Buffer.max_size b) in *. set (pt := Buffer.ptr b) in *.
  destruct (Z.gtb_spec (pt + k) mx) as [_|Hno]; [|lia].
  assert (Hq : (2 <= (pt + k) / mx)%Z)
    by (apply Z.div_le_lower_bound; lia).
  pose proof (Z.div_mod (pt + k) mx ltac:(lia)) as Hdm.
  pose proof (Z.mod_pos_bound (pt + k) mx ltac:(lia)) as Hmod.
  set (e := ((pt + k) mod mx)%Z) in *.
  assert (Hke : (2 * mx - pt <= k - e)%Z).
  { assert (mx * 2 <= mx * ((pt + k) / mx))%Z
      by (apply Z.mul_le_mono_nonneg_l; lia). lia. }
  unfold k. rewrite write_split_refused; [reflexivity | lia | lia |].
  fold k. lia.
Qed.

Lemma add_oversize_witness :
  add_batch example_buffer
    (batch_of (map example_transition [1; 2; 3; 4; 5; 6; 7]%R))
  = Raise ValueError.
Proof.
  apply add_oversize; [exact example_buffer_wf | simpl; lia].
Defined.

(** X8: [add] on a prioritized buffer gives slot [ptr] the priority
    [max_priority] and leaves the priority of every other slot as it
    was, whatever the size of the batch. *)
Theorem add_priority (b : Buffer.t) (bt : batch) (k : nat) :
  wf_buffer b ->
  Buffer.prioritized b = true ->
  batch_rows k bt ->
  k <= Z.to_nat (Buffer.max_size b) ->
  exists b',
    add_batch b bt = Ok b'
    /\ SumTree.leaf_priority (Buffer.tree b') (Buffer.ptr b)
       = Ok (Buffer.max_priority b)
    /\ (forall j, (0 <= j < Buffer.max_size b)%Z -> j <> Buffer.ptr b ->
                  SumTree.leaf_priority (Buffer.tree b') j
                  = SumTree.leaf_priority (Buffer.tree b) j).
Proof.
  intros Hwf Hpr Hbt Hk.
  destruct (add_spec b bt k Hwf Hbt Hk)
    as (b' & Hadd & _ & _ & _ & _ & _ & _ & _ & Htree & _).
  rewrite Hpr in Htree.
  destruct Hwf as (Hptr & _ & Hwft). destruct (Hwft Hpr) as [Hwf Hcap].
  destruct (set_wf (Buffer.tree b) (Buffer.ptr b) (Buffer.max_priority b) Hwf)
    as (tr' & lf & i & Hset & Hlf & Hi & Hlf' & _ & _); [lia|].
  rewrite Hset in Htree. inversion Htree as [Htr]. clear Htree.
  destruct (wf_leaves _ Hwf) as (lf0 & _ & _ & Hlf0 & Hcnt).
  rewrite Hlf in Hlf0. inversion Hlf0; subst lf0. rewrite Hcnt in Hcap.
  rewrite index_nonneg in Hi by lia. inversion Hi; subst i.
  exists b'. rewrite <- Htr. split_and!; [assumption | |].
  - apply (leaf_priority_lookup tr' _ _ Hlf');
      [rewrite length_insert; lia|].
    apply list_lookup_insert_eq. lia.
  - intros j Hj Hne.
    unfold SumTree.leaf_priority. rewrite Hlf, Hlf'. rsimpl.
    unfold Np.get. rewrite length_insert.
    rewrite index_nonneg by lia. rsimpl.
    rewrite list_lookup_insert_ne by lia. reflexivity.
Qed.

Lemma add_priority_witness :
  exists b',
    add_batch example_buffer example_batch = Ok b'
    /\ SumTree.leaf_priority (Buffer.tree b') (Buffer.ptr example_buffer)
       = Ok (Buffer.max_priority example_buffer)
    /\ (forall j, (0 <= j < Buffer.max_size example_buffer)%Z ->
                  j <> Buffer.ptr example_buffer ->
                  SumTree.leaf_priority (Buffer.tree b') j
                  = SumTree.leaf_priority (Buffer.tree example_buffer) j).
Proof.
  apply (add_priority example_buffer example_batch 4).
  - exact example_buffer_wf.
  - reflexivity.
  - exact example_batch_rows.
  - simpl. lia.
Defined.

Lemma written_read cap p k arr v res t :
  written cap p k arr v res -> p < cap -> k <= cap -> t < k ->
  res !! ((p + t) mod cap) = v !! t.
Proof.
  intros [_ Hw] Hp Hk Ht.
  assert (Hj : (p + t) mod cap < cap) by (apply Nat.mod_upper_bound; lia).
  rewrite (Hw _ Hj).
  assert (Hoff : ((p + t) mod cap + cap - p) mod cap = t).
  { destruct (Nat.lt_ge_cases (p + t) cap) as [Hlt|Hge].
    - rewrite (Nat.mod_small (p + t)) by assumption.
      replace (p + t + cap - p) with (t + 1 * cap) by lia.
      rewrite Nat.Div0.mod_add. apply Nat.mod_small. lia.
    - replace (p + t) with ((p + t - cap) + 1 * cap) by lia.
      rewrite Nat.Div0.mod_add.
      rewrite (Nat.mod_small (p + t - cap)) by lia.
      replace (p + t - cap + cap - p) with t by lia.
      apply Nat.mod_small. lia. }
  rewrite Hoff. rewrite decide_True by assumption. reflexivity.
Qed.

(** X9: What [add] stores can be read back: after a batch of [k]
    transitions, [k <= capacity], row [t] of the batch is in slot
    [(ptr + t) mod capacity] of each of the six arrays ([not_done]
    holding [1 - done]), whether the write wrapped or not. *)
Theorem add_then_read (b : Buffer.t) (bt : batch) (k t : nat) :
  wf_buffer b ->
  batch_rows k bt ->
  k <= Z.to_nat (Buffer.max_size b) ->
  t < k ->
  exists b',
    add_batch b bt = Ok b'
    /\ Forall2 (fun v res =>
                  res !! Z.to_nat ((Buffer.ptr b + Z.of_nat t)
                                   mod Buffer.max_size b)
                  = v !! t)
         (batch_columns bt) (columns b').
Proof.
  intros Hwf Hbt Hk Ht.
  destruct (add_spec b bt k Hwf Hbt Hk) as (b' & Hadd & Hw & _).
  destruct Hwf as (Hptr & _ & _).
  exists b'. split; [assumption|].
  eapply Forall3_drop_left; [|exact Hw].
  intros arr v res Hwr. simpl.
  rewrite <- (written_read _ _ _ _ _ _ t Hwr) by lia.
  f_equal. rewrite Z2Nat.inj_mod, Z2Nat.inj_add by lia.
  rewrite Nat2Z.id. reflexivity.
Qed.

Lemma add_then_read_witness :
  exists b',
    add_batch example_buffer example_batch = Ok b'
    /\ Forall2 (fun v res =>
                  res !! Z.to_nat ((Buffer.ptr example_buffer + Z.of_nat 3)
                                   mod Buffer.max_size example_buffer)
                  = v !! 3)
         (batch_columns example_batch) (columns b').
Proof.
  apply (add_then_read example_buffer example_batch 4 3).
  - exact example_buffer_wf.
  - exact example_batch_rows.
  - simpl. lia.
  - lia.
Defined.

(** X10: [update_priority] on a prioritized buffer, with slots as indices and
    one priority per index: [max_priority] becomes the largest of its
    old value and the given priorities, so it never decreases and bounds
    every priority handed in; the stored transitions, [ptr], [size] and
    [beta] stay as they are. *)
Theorem update_priority_max (b : Buffer.t) (ind : list Z)
    (priority : list R) :
  wf_buffer b ->
  Buffer.prioritized b = true ->
  Forall (fun i => (0 <= i < Buffer.max_size b)%Z) ind ->
  length priority = length ind ->
  priority <> [] ->
  exists b',
    Buffer.update_priority b ind priority = Ok b'
    /\ (Buffer.max_priority b <= Buffer.max_priority b')%R
    /\ Forall (fun p => (p <= Buffer.max_priority b')%R) priority
    /\ (Buffer.max_priority b' = Buffer.max_priority b
        \/ Buffer.max_priority b' ∈ priority)
    /\ columns b' = columns b
    /\ Buffer.ptr b' = Buffer.ptr b
    /\ Buffer.size b' = Buffer.size b
    /\ Buffer.beta b' = Buffer.beta b.
Proof.
  intros Hwf Hpr Hind Hlen Hne.
  destruct (update_priority_wf b ind priority Hwf Hind Hlen Hne)
    as (b' & Hup & _).
  exists b'. split; [assumption|].
  unfold Buffer.update_priority in Hup. rewrite Hpr in Hup.
  destruct priority as [|p ps]; [contradiction|].
  inv_bind Hup. inversion Hup; subst b'. cbn.
  destruct (max_of_bounds ps p) as [Hall Hin].
  pose proof (Rmax_l (Buffer.max_of p ps) (Buffer.max_priority b)).
  pose proof (Rmax_r (Buffer.max_of p ps) (Buffer.max_priority b)).
  split_and!; try reflexivity.
  - assumption.
  - eapply Forall_impl; [exact Hall|]. simpl. intros y Hy. lra.
  - unfold Rmax. destruct (Rle_dec _ _); [left; reflexivity | right; assumption].
Qed.

Lemma update_priority_max_witness :
  exists b',
    Buffer.update_priority pair_buffer [1; 0; 1]%Z [0.5; 7; 2]%R = Ok b'
    /\ (Buffer.max_priority pair_buffer <= Buffer.max_priority b')%R
    /\ Forall (fun p => (p <= Buffer.max_priority b')%R) [0.5; 7; 2]%R
    /\ (Buffer.max_priority b' = Buffer.max_priority pair_buffer
        \/ Buffer.max_priority b' ∈ [0.5; 7; 2]%R)
    /\ columns b' = columns pair_buffer
    /\ Buffer.ptr b' = Buffer.ptr pair_buffer
    /\ Buffer.size b' = Buffer.size pair_buffer
    /\ Buffer.beta b' = Buffer.beta pair_buffer.
Proof.
  apply update_priority_max.
  - exact pair_buffer_wf.
  - reflexivity.
  - repeat constructor; simpl; lia.
  - reflexivity.
  - discriminate.
Defined.

(** X11: Priorities stay non-negative: on a prioritized buffer whose
    priorities and [max_priority] are non-negative, [add] and
    [update_priority] with non-negative priorities leave a buffer of the
    same kind, so that the weights of [sample] stay defined. *)
Theorem priorities_stay_nonneg (b : Buffer.t) :
  wf_buffer b ->
  Buffer.prioritized b = true ->
  nonneg_leaves (Buffer.tree b) ->
  (0 <= Buffer.max_priority b)%R ->
  (forall bt k,
      batch_rows k bt -> k <= Z.to_nat (Buffer.max_size b) ->
      exists b',
        add_batch b bt = Ok b'
        /\ wf_buffer b' /\ Buffer.prioritized b' = true
        /\ nonneg_leaves (Buffer.tree b')
        /\ (0 <= Buffer.max_priority b')%R)
  /\ (forall ind priority,
        Forall (fun i => (0 <= i < Buffer.max_size b)%Z) ind ->
        length priority = length ind ->
        priority <> [] ->
        Forall (fun p => (0 <= p)%R) priority ->
        exists b',
          Buffer.update_priority b ind priority = Ok b'
          /\ wf_buffer b' /\ Buffer.prioritized b' = true
          /\ nonneg_leaves (Buffer.tree b')
          /\ (0 <= Buffer.max_priority b')%R).
Proof.
  intros Hwf Hpr Hnn Hmax. split.
  - intros bt k Hbt Hk.
    destruct (add_spec b bt k Hwf Hbt Hk)
      as (b' & Hadd & _ & _ & _ & _ & Hpr' & Hmp & _ & Htree & Hwf').
    rewrite Hpr in Htree.
    destruct Hwf as (Hptr & _ & Hwft). destruct (Hwft Hpr) as [Hwt Hcap].
    destruct (set_wf (Buffer.tree b) (Buffer.ptr b) (Buffer.max_priority b)
                Hwt) as (tr' & lf & i & Hset & Hlf & Hi & Hlf' & _ & _);
      [lia|].
    rewrite Hset in Htree. inversion Htree as [Htr].
    exists b'. split_and!; [assumption | assumption | congruence | | lra].
    intros lf' Hl'. rewrite <- Htr, Hlf' in Hl'. inversion Hl'; subst lf'.
    apply Forall_forall. intros x Hx.
    apply list_elem_of_lookup in Hx as [j Hj].
    pose proof (Hnn lf Hlf) as Hall. rewrite Forall_forall in Hall.
    apply list_lookup_insert_Some in Hj as [(_ & <- & _)|[_ Hj]].
    + assumption.
    + apply Hall. eapply list_elem_of_lookup_2. eassumption.
  - intros ind priority Hind Hlen Hne Hpos.
    destruct (update_priority_wf b ind priority Hwf Hind Hlen Hne)
      as (b' & Hup & Hwf').
    exists b'. split; [assumption|]. split; [assumption|].
    destruct Hwf as (Hptr & _ & Hwft). destruct (Hwft Hpr) as [Hwt Hcap].
    destruct (batch_set_leaves_wf (Buffer.max_size b) (Buffer.tree b)
                ind priority Hwt Hcap Hind Hlen)
      as (tr' & lf & lf' & Hset & Hlf & Hlf' & _ & _ & _ & Hmem & _).
    unfold Buffer.update_priority in Hup. rewrite Hpr in Hup.
    destruct priority as [|p ps]; [contradiction|].
    rewrite Hset in Hup. inversion Hup; subst b'. cbn.
    split_and!; [first [assumption | reflexivity] | |].
    + intros l Hl. rewrite Hlf' in Hl. inversion Hl; subst l.
      apply Forall_forall. intros x Hx.
      apply list_elem_of_lookup in Hx as [j Hj].
      destruct (Hmem j x Hj) as [Hold|Hnew].
      * pose proof (Hnn lf Hlf) as Hall. rewrite Forall_forall in Hall.
        apply Hall. eapply list_elem_of_lookup_2. eassumption.
      * rewrite Forall_forall in Hpos. apply Hpos. assumption.
    + pose proof (Rmax_r (Buffer.max_of p ps) (Buffer.max_priority b)). lra.
Qed.

Lemma priorities_stay_nonneg_witness :
  (forall bt k,
      batch_rows k bt -> k <= Z.to_nat (Buffer.max_size pair_buffer) ->
      exists b',
        add_batch pair_buffer bt = Ok b'
        /\ wf_buffer b' /\ Buffer.prioritized b' = true
        /\ nonneg_leaves (Buffer.tree b')
        /\ (0 <= Buffer.max_priority b')%R)
  /\ (forall ind priority,
        Forall (fun i => (0 <= i < Buffer.max_size pair_buffer)%Z) ind ->
        length priority = length ind ->
        priority <> [] ->
        Forall (fun p => (0 <= p)%R) priority ->
        exists b',
          Buffer.update_priority pair_buffer ind priority = Ok b'
          /\ wf_buffer b' /\ Buffer.prioritized b' = true
          /\ nonneg_leaves (Buffer.tree b')
          /\ (0 <= Buffer.max_priority b')%R).
Proof.
  apply priorities_stay_nonneg.
  - exact pair_buffer_wf.
  - reflexivity.
  - intros lf Hlf. inversion Hlf; subst.
    repeat (apply Forall_cons_2; [lra|]). apply Forall_nil_2.
  - simpl. lra.
Defined.

Lemma descend_zeros n :
  forall s, 0 < s ->
            SumTree.descend (SumTree.build_levels n s) 0 0%R = Ok 0%Z.
Proof.
  induction n as [|n IH]; intros s Hs; [reflexivity|].
  change (SumTree.build_levels (S n) s)
    with (replicate s 0%R :: SumTree.build_levels n (s * 2)).
  cbn [SumTree.descend]. cbn zeta.
  unfold Np.get. rewrite length_replicate.
  rewrite index_nonneg by lia. rsimpl.
  change (Z.to_nat (0 * 2)) with 0.
  rewrite lookup_replicate_2 by assumption. rsimpl.
  destruct (Rgt_dec 0 0) as [Hgt|_]; [lra|].
  apply IH. lia.
Qed.

Lemma descend_all_zeros levels n :
  SumTree.descend levels 0 0%R = Ok 0%Z ->
  SumTree.descend_all levels (replicate n 0%R) = Ok (replicate n 0%Z).
Proof.
  intros H. induction n as [|n IH]; [reflexivity|].
  simpl. rewrite H. rsimpl. rewrite IH. reflexivity.
Qed.

Lemma take_at_first {A} (x : A) (m n : nat) :
  0 < m ->
  Np.take_at (replicate m x) (replicate n 0%Z) = Ok (replicate n x).
Proof.
  intros Hm. induction n as [|n IH]; [reflexivity|].
  simpl. unfold Np.get at 1. rewrite length_replicate.
  rewrite index_nonneg by lia. rsimpl.
  change (Z.to_nat 0) with 0. rewrite lookup_replicate_2 by assumption.
  rsimpl. rewrite IH. reflexivity.
Qed.

Lemma mapM_power_zero (y : R) (ps : list R) :
  mapM (fun p => Buffer.power p y) (0%R :: ps) = None.
Proof.
  assert (H0 : Buffer.power 0 y = None).
  { unfold Buffer.power. destruct (Rlt_dec 0 0); [lra | reflexivity]. }
  cbn [mapM]. rewrite H0. reflexivity.
Qed.

(** X12: [sample] before anything was added.  Without prioritization the
    empty range of [np.random.randint(0, 0)] raises [ValueError].  With
    prioritization nothing is raised: the total is 0, every draw of
    [np.random.uniform(0, 0)] is 0 and the search ends in slot 0, whose
    never-written row of zeros is returned with a weight that is not a
    finite number. *)
Theorem sample_empty (state_dim : nat) (batch_size capacity : Z)
    (n : nat) (qs : list R) (u : list Z) :
  (1 <= capacity)%Z ->
  1 <= n ->
  (exists b0,
      Buffer.init state_dim batch_size capacity false = Ok b0
      /\ Buffer.sample b0 qs u = Raise ValueError)
  /\ (exists b0 r b',
        Buffer.init state_dim batch_size capacity true = Ok b0
        /\ Buffer.sample b0 (replicate n 0%R) u = Ok (r, b')
        /\ Buffer.s_ind r = replicate n 0%Z
        /\ Buffer.s_state r = replicate n (replicate state_dim 0%R)
        /\ Buffer.s_weights r = None).
Proof.
  intros Hcap Hn. split.
  - eexists. unfold Buffer.init.
    destruct (Z.ltb_spec capacity 0); [lia|]. rsimpl.
    split; reflexivity.
  - unfold Buffer.init, SumTree.init.
    destruct (Z.ltb_spec capacity 0); [lia|].
    destruct (Z.eqb_spec capacity 0); [lia|]. rsimpl.
    pose proof (Z.log2_up_nonneg capacity) as Hnn.
    replace (Z.to_nat (Z.log2_up capacity + 1))
      with (S (Z.to_nat (Z.log2_up capacity))) by lia.
    set (L := Z.to_nat (Z.log2_up capacity)).
    set (m := Z.to_nat capacity).
    assert (Hm : 0 < m) by (unfold m; lia).
    destruct n as [|n']; [lia|]. set (n := S n') in *.
    eexists _, _, _. split; [reflexivity|].
    assert (Hleaves :
              SumTree.leaves {| SumTree.nodes := SumTree.build_levels (S L) 1 |}
              = Ok (replicate (2 ^ L) 0%R)).
    { unfold SumTree.leaves. cbn [SumTree.nodes].
      rewrite last_lookup, build_levels_length.
      cbn [pred]. rewrite build_levels_lookup by lia.
      rewrite Nat.mul_1_l. reflexivity. }
    assert (Hpow : 0 < 2 ^ L) by (apply Nat.neq_0_lt_0, Nat.pow_nonzero; lia).
    assert (Hsearch :
              SumTree.sample
                {| SumTree.nodes := SumTree.build_levels (S L) 1 |}
                (replicate n 0%R) = Ok (replicate n 0%Z)).
    { unfold SumTree.sample, SumTree.total. cbn [SumTree.nodes].
      change (SumTree.build_levels (S L) 1)
        with (replicate 1 0%R :: SumTree.build_levels L (1 * 2)).
      cbn [replicate tail]. rsimpl.
      apply descend_all_zeros. apply descend_zeros. lia. }
    unfold Buffer.sample.
    cbn [Buffer.prioritized Buffer.tree Buffer.state Buffer.action
         Buffer.next_state Buffer.reward Buffer.not_done Buffer.seeds
         Buffer.beta].
    rewrite Hsearch. rsimpl.
    rewrite !take_at_first by assumption. rsimpl.
    rewrite Hleaves. rsimpl.
    rewrite take_at_first by assumption. rsimpl.
    unfold n. cbn [replicate Buffer.weights_of]. rsimpl.
    split_and!; [reflexivity | reflexivity | reflexivity |].
    cbn [Buffer.s_weights]. rewrite mapM_power_zero. reflexivity.
Qed.

Lemma sample_empty_witness :
  (exists b0,
      Buffer.init 3 2 4 false = Ok b0
      /\ Buffer.sample b0 [0.5; 0.25]%R [0; 1]%Z = Raise ValueError)
  /\ (exists b0 r b',
        Buffer.init 3 2 4 true = Ok b0
        /\ Buffer.sample b0 (replicate 2 0%R) [0; 1]%Z = Ok (r, b')
        /\ Buffer.s_ind r = replicate 2 0%Z
        /\ Buffer.s_state r = replicate 2 (replicate 3 0%R)
        /\ Buffer.s_weights r = None).
Proof. apply sample_empty; lia. Defined.

(** ** The entries of the projected distribution *)


Section Atoms.

Variable ag : Rainbow.t.
Variable pick : R -> R -> R -> Z.
Variable val : R -> R -> R -> R.
Hypothesis pick_range :
  forall r nd p, (0 <= pick r nd p < Rainbow.atoms ag)%Z.

Let A : nat := Z.to_nat (Rainbow.atoms ag).



End Atoms.















(** ** The helpers of the training script *)

Lemma multi_step_reward_from_eq rewards gamma :
  forall idx ret,
    Train.multi_step_reward_from idx ret rewards gamma
    = (ret + gamma ^ idx * Train.multi_step_reward rewards gamma)%R.
Proof.
  unfold Train.multi_step_reward.
  induction rewards as [|r rs IH]; intros idx ret;
    cbn [Train.multi_step_reward_from].
  - lra.
  - rewrite (IH (S idx)), (IH 1). simpl. lra.
Qed.

(** X23: [multi_step_reward] is the discounted return: the first reward plus
    [gamma] times the return of the rest, and the return of two
    concatenated segments is that of the first plus [gamma ^ n] times
    that of the second. *)
Theorem multi_step_reward_discounted (rewards rewards' : list R)
    (r gamma : R) :
  Train.multi_step_reward [] gamma = 0%R
  /\ Train.multi_step_reward (r :: rewards) gamma
     = (r + gamma * Train.multi_step_reward rewards gamma)%R
  /\ Train.multi_step_reward (rewards ++ rewards') gamma
     = (Train.multi_step_reward rewards gamma
        + gamma ^ length rewards
          * Train.multi_step_reward rewards' gamma)%R.
Proof.
  assert (Hnil : Train.multi_step_reward [] gamma = 0%R).
  { unfold Train.multi_step_reward. simpl. lra. }
  assert (Hcons : forall x l,
             Train.multi_step_reward (x :: l) gamma
             = (x + gamma * Train.multi_step_reward l gamma)%R).
  { intros x l. unfold Train.multi_step_reward at 1.
    cbn [Train.multi_step_reward_from].
    rewrite multi_step_reward_from_eq. simpl. lra. }
  split_and!; [assumption | apply Hcons |].
  induction rewards as [|x l IH].
  - rewrite app_nil_l, Hnil. simpl. lra.
  - rewrite <- app_comm_cons, !Hcons, IH. simpl. lra.
Qed.

Lemma exp_le (x y : R) : (x <= y)%R -> (exp x <= exp y)%R.
Proof.
  intros [H| ->]; [left; apply exp_increasing; assumption | lra].
Qed.

(** X24: The exploration rate starts at 1 when training starts and then
    decays monotonically towards [end_eps], never leaving
    [[end_eps, 1]]. *)
Theorem epsilon_schedule (end_eps eps_decay_period : R)
    (start_timesteps t t' : Z) :
  (0 < eps_decay_period)%R ->
  (0 <= end_eps <= 1)%R ->
  (start_timesteps <= t <= t')%Z ->
  exists e e',
    Train.epsilon end_eps eps_decay_period start_timesteps t = Ok e
    /\ Train.epsilon end_eps eps_decay_period start_timesteps t' = Ok e'
    /\ (end_eps <= e' <= e)%R /\ (e <= 1)%R
    /\ Train.epsilon end_eps eps_decay_period start_timesteps start_timesteps
       = Ok 1%R.
Proof.
  intros Hd He Ht. unfold Train.epsilon.
  destruct (Req_dec_T eps_decay_period 0) as [E|_]; [lra|].
  set (f := fun s : Z =>
              exp (-1.0 * IZR (s - start_timesteps) / eps_decay_period)).
  assert (Hmono : forall a b, (start_timesteps <= a <= b)%Z ->
                              (0 < f b <= f a)%R /\ (f a <= 1)%R).
  { intros a b Hab. unfold f. split_and!.
    - apply exp_pos.
    - apply exp_le. unfold Rdiv.
      apply Rmult_le_compat_r; [left; apply Rinv_0_lt_compat; assumption|].
      assert (IZR (a - start_timesteps) <= IZR (b - start_timesteps))%R
        by (apply IZR_le; lia).
      lra.
    - rewrite <- exp_0. apply exp_le.
      assert (0 <= IZR (a - start_timesteps))%R by (apply IZR_le; lia).
      assert (0 < / eps_decay_period)%R by (apply Rinv_0_lt_compat; lra).
      unfold Rdiv.
      replace 0%R with (0 * / eps_decay_period)%R by lra.
      apply Rmult_le_compat_r; lra. }
  destruct (Hmono t t' Ht) as ((Hp & Hle) & H1).
  eexists _, _. split_and!; try reflexivity.
  - fold (f t'). nra.
  - fold (f t') (f t). nra.
  - fold (f t). nra.
  - f_equal. rewrite Z.sub_diag.
    replace (-1.0 * 0 / eps_decay_period)%R with 0%R by (field; lra).
    rewrite exp_0. lra.
Qed.

Lemma epsilon_schedule_witness :
  exists e e',
    Train.epsilon 0.05 250000 1000 1000 = Ok e
    /\ Train.epsilon 0.05 250000 1000 2000 = Ok e'
    /\ (0.05 <= e' <= e)%R /\ (e <= 1)%R
    /\ Train.epsilon 0.05 250000 1000 1000 = Ok 1%R.
Proof.
  apply (epsilon_schedule 0.05 250000 1000 1000 2000); [lra | lra | lia].
Defined.

(** X25: [generate_seeds] returns [num_seeds] consecutive seeds from
    [base_seed]: no seed twice, and exactly those of
    [[base_seed, base_seed + num_seeds)]. *)
Theorem generate_seeds_range (num_seeds base_seed : Z) :
  NoDup (Train.generate_seeds num_seeds base_seed)
  /\ length (Train.generate_seeds num_seeds base_seed) = Z.to_nat num_seeds
  /\ forall s, s ∈ Train.generate_seeds num_seeds base_seed
               <-> (base_seed <= s < base_seed + num_seeds)%Z.
Proof.
  unfold Train.generate_seeds. split_and!.
  - apply NoDup_fmap_2; [intros i j; lia | apply NoDup_seq].
  - rewrite length_map, length_seq. reflexivity.
  - intros s. rewrite list_elem_of_fmap. split.
    + intros (i & -> & Hi). apply elem_of_seq in Hi. lia.
    + intros Hs. exists (Z.to_nat (s - base_seed)). split; [lia|].
      apply elem_of_seq. lia.
Qed.

(** X26: [compute_current_eta] interpolates linearly: [eta_initial] at step
    0, [eta_final] at the last step, and in between a value between the
    two. *)
Theorem eta_interpolation (eta_initial eta_final : R)
    (current_timestep total_timestep : Z) :
  (0 < total_timestep)%Z ->
  (0 <= current_timestep <= total_timestep)%Z ->
  exists eta,
    Train.compute_current_eta eta_initial eta_final current_timestep
      total_timestep = Ok eta
    /\ (Rmin eta_initial eta_final <= eta <= Rmax eta_initial eta_final)%R
    /\ Train.compute_current_eta eta_initial eta_final 0 total_timestep
       = Ok eta_initial
    /\ Train.compute_current_eta eta_initial eta_final total_timestep
         total_timestep = Ok eta_final.
Proof.
  intros Htot Hcur. unfold Train.compute_current_eta.
  destruct (Z.eqb_spec total_timestep 0) as [E|_]; [lia|].
  assert (HT : (0 < IZR total_timestep)%R) by (apply IZR_lt; lia).
  assert (Hc : (0 <= IZR current_timestep <= IZR total_timestep)%R)
    by (split; apply IZR_le; lia).
  set (T := IZR total_timestep) in *. set (c := IZR current_timestep) in *.
  assert (Hx : (0 <= c / T <= 1)%R).
  { split.
    - apply Rmult_le_pos; [lra | left; apply Rinv_0_lt_compat; lra].
    - apply (Rmult_le_reg_r T); [lra|].
      replace (c / T * T)%R with c by (field; lra). lra. }
  eexists. split; [reflexivity|]. split; [|split].
  - replace ((eta_final - eta_initial) * c / T)%R
      with ((eta_final - eta_initial) * (c / T))%R by (field; lra).
    unfold Rmin, Rmax. destruct (Rle_dec eta_initial eta_final); split; nra.
  - f_equal. field. lra.
  - f_equal. field. lra.
Qed.

Lemma eta_interpolation_witness :
  exists eta,
    Train.compute_current_eta 0.994 0.999 250 1000 = Ok eta
    /\ (Rmin 0.994 0.999 <= eta <= Rmax 0.994 0.999)%R
    /\ Train.compute_current_eta 0.994 0.999 0 1000 = Ok 0.994%R
    /\ Train.compute_current_eta 0.994 0.999 1000 1000 = Ok 0.999%R.
Proof.
  apply (eta_interpolation 0.994 0.999 250 1000); lia.
Defined.

Lemma floor_mono (x y : R) :
  (x <= y)%R -> (Rainbow.floor x <= Rainbow.floor y)%Z.
Proof.
  intros Hxy. pose proof (floor_spec x). pose proof (floor_spec y).
  assert (H1 : (Rainbow.floor x < Rainbow.floor y + 1)%Z)
    by (apply lt_IZR; rewrite plus_IZR; lra).
  lia.
Qed.

Lemma int_of_nonneg (x : R) :
  (0 <= x)%R -> Train.int_of x = Rainbow.floor x /\ (0 <= Train.int_of x)%Z.
Proof.
  intros Hx. unfold Train.int_of. destruct (Rle_dec 0 x); [|lra].
  split; [reflexivity|].
  pose proof (floor_mono 0 x Hx) as H.
  change 0%R with (IZR 0) in H. rewrite floor_IZR in H. assumption.
Qed.

Lemma int_of_mono (x y : R) :
  (0 <= x <= y)%R -> (0 <= Train.int_of x <= Train.int_of y)%Z.
Proof.
  intros [H0 Hxy].
  destruct (int_of_nonneg x H0) as [-> Hx].
  destruct (int_of_nonneg y ltac:(lra)) as [-> Hy].
  split; [assumption | apply floor_mono; assumption].
Qed.

Lemma Rpower_antitone (eta x y : R) :
  (0 < eta <= 1)%R -> (x <= y)%R -> (Rpower eta y <= Rpower eta x)%R.
Proof.
  intros [H0 H1] Hxy. unfold Rpower. apply exp_le.
  assert (Hln : (ln eta <= 0)%R).
  { rewrite <- ln_1. destruct H1 as [H1| ->]; [|lra].
    left. apply ln_increasing; assumption. }
  nra.
Qed.

Lemma fill_ck_positive (replay_size : R) (num_updates : Z) (eta : R)
    (ks : list nat) :
  (0 < eta)%R ->
  let g := fun k : nat =>
             Train.int_of
               (replay_size
                * Rpower eta (IZR (Z.of_nat k * 1000) / IZR num_updates)) in
  Forall (fun k => (- 2 ^ 63 <= g k < 2 ^ 63)%Z) ks ->
  Train.fill_ck replay_size num_updates eta ks = Ok (Some (map g ks)).
Proof.
  intros He g Hks. induction Hks as [|k ks Hk _ IH]; [reflexivity|].
  cbn [Train.fill_ck]. unfold Train.power.
  destruct (Rlt_dec 0 eta); [|lra]. cbn zeta. fold (g k).
  destruct (Z.leb_spec (- 2 ^ 63) (g k)); [|lia].
  destruct (Z.ltb_spec (g k) (2 ^ 63)); [|lia].
  cbn [andb]. rewrite IH. reflexivity.
Qed.

(** X27: The schedule of [get_ck_list_exp] for a decay [0 < eta <= 1]: one
    entry per update, the first the whole replay size, then entries that
    never grow and never go below 0; ["new_first"] gives the same
    entries in the opposite order, ["random"] those the shuffle makes of
    them. *)
Theorem ck_list_schedule (replay_size : R) (num_updates : Z) (eta : R)
    (permutation : list Z -> list Z) :
  (0 <= replay_size < IZR (2 ^ 63))%R ->
  (0 < eta <= 1)%R ->
  (0 < num_updates)%Z ->
  exists ck_list,
    Train.get_ck_list_exp replay_size num_updates eta Train.old_first
      permutation = Ok (Some ck_list)
    /\ length ck_list = Z.to_nat num_updates
    /\ ck_list !! 0 = Some (Train.int_of replay_size)
    /\ (forall i j x y,
          i <= j -> ck_list !! i = Some x -> ck_list !! j = Some y ->
          (0 <= y <= x)%Z /\ (x <= Train.int_of replay_size)%Z)
    /\ Train.get_ck_list_exp replay_size num_updates eta Train.new_first
         permutation = Ok (Some (reverse ck_list))
    /\ Train.get_ck_list_exp replay_size num_updates eta Train.random
         permutation = Ok (Some (permutation ck_list)).
Proof.
  intros [Hrs Hrs2] He Hn.
  set (g := fun k : nat =>
              Train.int_of
                (replay_size
                 * Rpower eta (IZR (Z.of_nat k * 1000) / IZR num_updates))).
  set (l := map g (seq 0 (Z.to_nat num_updates))).
  assert (HN : (0 < IZR num_updates)%R) by (apply IZR_lt; lia).
  assert (Hexp : forall i j : nat, i <= j ->
            (0 <= IZR (Z.of_nat i * 1000) / IZR num_updates
             <= IZR (Z.of_nat j * 1000) / IZR num_updates)%R).
  { intros i j Hij.
    assert (0 <= IZR (Z.of_nat i * 1000) <= IZR (Z.of_nat j * 1000))%R
      by (split; apply IZR_le; lia).
    assert (0 < / IZR num_updates)%R by (apply Rinv_0_lt_compat; lra).
    unfold Rdiv. split; [apply Rmult_le_pos; lra|].
    apply Rmult_le_compat_r; lra. }
  assert (Hg0 : g 0 = Train.int_of replay_size).
  { unfold g. f_equal. change (Z.of_nat 0 * 1000)%Z with 0%Z.
    replace (0 / IZR num_updates)%R with 0%R by (field; lra).
    rewrite Rpower_O by lra. lra. }
  assert (Hg : forall i j, i <= j ->
            (0 <= g j <= g i)%Z /\ (g i <= Train.int_of replay_size)%Z).
  { assert (Hstep : forall i j, i <= j -> (0 <= g j <= g i)%Z).
    { intros i j Hij. unfold g. apply int_of_mono.
      destruct (Hexp i j Hij) as [Hi Hj].
      pose proof (Rpower_antitone eta _ _ He Hj) as Hp.
      assert (0 < Rpower eta (IZR (Z.of_nat j * 1000) / IZR num_updates))%R
        by apply Rpower_pos.
      split; [apply Rmult_le_pos; lra | apply Rmult_le_compat_l; lra]. }
    intros i j Hij. split; [auto|].
    rewrite <- Hg0. apply (Hstep 0 i). lia. }
  assert (Htop : (Train.int_of replay_size < 2 ^ 63)%Z).
  { destruct (int_of_nonneg replay_size ltac:(lra)) as [-> _].
    pose proof (floor_spec replay_size). apply lt_IZR. lra. }
  assert (HM : Train.fill_ck replay_size num_updates eta
                 (seq 0 (Z.to_nat num_updates)) = Ok (Some l)).
  { apply fill_ck_positive; [lra|].
    apply Forall_forall. intros k _. fold (g k).
    destruct (Hg k k (Nat.le_refl k)) as [H1 H2]. lia. }
  exists l. unfold Train.get_ck_list_exp.
  destruct (Z.ltb_spec num_updates 0) as [?|_]; [lia|].
  rewrite HM. rsimpl. cbn [option_map].
  split; [reflexivity|]. split; [|split; [|split; [|split; reflexivity]]].
  - unfold l. rewrite length_map, length_seq. reflexivity.
  - unfold l. rewrite list_lookup_fmap, lookup_seq_lt by lia.
    cbn [fmap option_fmap option_map Nat.add]. rewrite Hg0. reflexivity.
  - intros i j x y Hij Hi Hj. unfold l in Hi, Hj.
    rewrite list_lookup_fmap in Hi, Hj.
    destruct (seq 0 (Z.to_nat num_updates) !! i) as [i'|] eqn:Ei;
      [|discriminate].
    destruct (seq 0 (Z.to_nat num_updates) !! j) as [j'|] eqn:Ej;
      [|discriminate].
    apply lookup_seq in Ei as [-> _]. apply lookup_seq in Ej as [-> _].
    cbn in Hi, Hj. injection Hi as <-. injection Hj as <-.
    apply Hg. lia.
Qed.

Lemma ck_list_schedule_witness :
  exists ck_list,
    Train.get_ck_list_exp 1000 4 0.996 Train.old_first reverse
    = Ok (Some ck_list)
    /\ length ck_list = Z.to_nat 4
    /\ ck_list !! 0 = Some (Train.int_of 1000)
    /\ (forall i j x y,
          i <= j -> ck_list !! i = Some x -> ck_list !! j = Some y ->
          (0 <= y <= x)%Z /\ (x <= Train.int_of 1000)%Z)
    /\ Train.get_ck_list_exp 1000 4 0.996 Train.new_first reverse
       = Ok (Some (reverse ck_list))
    /\ Train.get_ck_list_exp 1000 4 0.996 Train.random reverse
       = Ok (Some (reverse ck_list)).
Proof.
  apply (ck_list_schedule 1000 4 0.996 reverse); [|lra | lia].
  split; [lra|]. apply IZR_lt. reflexivity.
Defined.

(** ** Target network, seed counts and priorities *)

Lemma train_updates_app a Qs1 Qs2 :
  train_updates a (Qs1 ++ Qs2)
  = (a' ← train_updates a Qs1; train_updates a' Qs2).
Proof.
  revert a. induction Qs1 as [|q Qs1 IH]; intros a; [reflexivity|].
  cbn [app train_updates].
  destruct (DDQN.train_update a q) as [a1|e]; rsimpl; [apply IH|reflexivity].
Qed.

Lemma train_update_copy (a : DDQN.t) (q : list R) :
  DDQN.polyak a = false ->
  DDQN.target_update_frequency a <> 0%Z ->
  exists a',
    DDQN.train_update a q = Ok a'
    /\ DDQN.polyak a' = false
    /\ DDQN.target_update_frequency a' = DDQN.target_update_frequency a
    /\ DDQN.iterations a' = (DDQN.iterations a + 1)%Z
    /\ DDQN.Q a' = q
    /\ DDQN.Q_target a'
       = if ((DDQN.iterations a + 1) mod DDQN.target_update_frequency a
             =? 0)%Z
         then q else DDQN.Q_target a.
Proof.
  intros Hpol Hf.
  unfold DDQN.train_update, DDQN.maybe_update_target.
  cbn [DDQN.polyak]. rewrite Hpol.
  unfold DDQN.copy_target_update.
  cbn [DDQN.target_update_frequency DDQN.iterations DDQN.Q DDQN.Q_target
       DDQN.tau DDQN.polyak].
  destruct (Z.eqb_spec (DDQN.target_update_frequency a) 0) as [?|_];
    [contradiction|].
  destruct (_ =? 0)%Z; eexists; (split; [reflexivity|]);
    cbn [DDQN.target_update_frequency DDQN.iterations DDQN.Q DDQN.Q_target
         DDQN.tau DDQN.polyak]; auto.
Qed.

(** X19: With the copy rule and a period [f > 0], after [n] calls of [train]
    the target network holds the weights [Q] had after call
    [f * (n / f)], the last call whose number is a multiple of [f]; it
    is the initial target as long as [n < f]. *)
Theorem copy_target_period (a : DDQN.t) (Qs : list (list R)) :
  DDQN.polyak a = false ->
  DDQN.iterations a = 0%Z ->
  (0 < DDQN.target_update_frequency a)%Z ->
  let f := DDQN.target_update_frequency a in
  let n := Z.of_nat (length Qs) in
  exists a',
    train_updates a Qs = Ok a'
    /\ DDQN.iterations a' = n
    /\ DDQN.Q a' = weights_at (DDQN.Q a) Qs (length Qs)
    /\ DDQN.Q_target a'
       = (if (n <? f)%Z then DDQN.Q_target a
          else weights_at (DDQN.Q a) Qs (Z.to_nat (f * (n / f)))).
Proof.
  intros Hpol Hit Hf f n. subst n.
  enough (exists a',
             train_updates a Qs = Ok a'
             /\ DDQN.polyak a' = false
             /\ DDQN.target_update_frequency a' = f
             /\ DDQN.iterations a' = Z.of_nat (length Qs)
             /\ DDQN.Q a' = weights_at (DDQN.Q a) Qs (length Qs)
             /\ DDQN.Q_target a'
                = (if (Z.of_nat (length Qs) <? f)%Z then DDQN.Q_target a
                   else weights_at (DDQN.Q a) Qs
                          (Z.to_nat (f * (Z.of_nat (length Qs) / f)))))
    as (a' & H1 & _ & _ & H2 & H3 & H4) by (exists a'; auto).
  induction Qs as [|q Qs IH] using rev_ind.
  - exists a. cbn [train_updates length weights_at].
    split_and!; try reflexivity; [assumption | assumption |].
    change (Z.of_nat 0) with 0%Z.
    destruct (Z.ltb_spec 0 f); [reflexivity | lia].
  - destruct IH as (a1 & E1 & P1 & F1 & I1 & Q1 & T1).
    rewrite train_updates_app, E1. rsimpl. cbn [train_updates].
    destruct (train_update_copy a1 q P1 ltac:(lia))
      as (a2 & E2 & P2 & F2 & I2 & Q2 & T2).
    rewrite E2. rsimpl. exists a2.
    rewrite length_app. cbn [length].
    set (m := length Qs) in *.
    assert (Hlast : weights_at (DDQN.Q a) (Qs ++ [q]) (m + 1) = q).
    { replace (m + 1) with (S m) by lia. cbn [weights_at].
      rewrite lookup_app_r by (unfold m; lia).
      replace (m - length Qs) with 0 by (unfold m; lia). reflexivity. }
    assert (Hold : forall k, k <= m ->
              weights_at (DDQN.Q a) (Qs ++ [q]) k
              = weights_at (DDQN.Q a) Qs k).
    { intros [|k] Hk; [reflexivity|]. cbn [weights_at].
      rewrite lookup_app_l by (unfold m in Hk; lia). reflexivity. }
    split; [reflexivity|]. split; [assumption|].
    split; [congruence|]. split; [lia|]. split; [congruence|].
    rewrite T2, F1, I1.
    replace (Z.of_nat (m + 1)) with (Z.of_nat m + 1)%Z by lia.
    pose proof (Z.div_mod (Z.of_nat m + 1) f ltac:(lia)) as Hdm.
    pose proof (Z.mod_pos_bound (Z.of_nat m + 1) f Hf) as Hmb.
    pose proof (Z.div_mod (Z.of_nat m) f ltac:(lia)) as Hdm'.
    pose proof (Z.mod_pos_bound (Z.of_nat m) f Hf) as Hmb'.
    destruct (Z.eqb_spec ((Z.of_nat m + 1) mod f) 0) as [Hmod|Hmod].
    + destruct (Z.ltb_spec (Z.of_nat m + 1) f) as [Hlt|Hge].
      * rewrite Z.mod_small in Hmod by lia. lia.
      * replace (Z.to_nat (f * ((Z.of_nat m + 1) / f))) with (m + 1) by lia.
        symmetry. exact Hlast.
    + rewrite T1.
      assert (Hq : ((Z.of_nat m + 1) / f = Z.of_nat m / f)%Z).
      { assert (0 <= (Z.of_nat m + 1) / f)%Z by (apply Z.div_pos; lia).
        assert (0 <= Z.of_nat m / f)%Z by (apply Z.div_pos; lia).
        nia. }
      destruct (Z.ltb_spec (Z.of_nat m) f) as [Hlt|Hge];
        destruct (Z.ltb_spec (Z.of_nat m + 1) f) as [Hlt'|Hge']; try lia.
      * reflexivity.
      * assert (Z.of_nat m + 1 = f)%Z by lia.
        rewrite H in Hmod. rewrite Z.mod_same in Hmod by lia. lia.
      * rewrite Hq. symmetry. apply Hold.
        assert (0 <= Z.of_nat m / f)%Z by (apply Z.div_pos; lia). nia.
Qed.

Lemma copy_target_period_witness :
  exists a',
    train_updates example_copy_agent example_weights = Ok a'
    /\ DDQN.iterations a' = Z.of_nat (length example_weights)
    /\ DDQN.Q a'
       = weights_at (DDQN.Q example_copy_agent) example_weights
           (length example_weights)
    /\ DDQN.Q_target a'
       = (if (Z.of_nat (length example_weights)
              <? DDQN.target_update_frequency example_copy_agent)%Z
          then DDQN.Q_target example_copy_agent
          else weights_at (DDQN.Q example_copy_agent) example_weights
                 (Z.to_nat
                    (DDQN.target_update_frequency example_copy_agent
                     * (Z.of_nat (length example_weights)
                        / DDQN.target_update_frequency
                            example_copy_agent)))).
Proof.
  apply (copy_target_period example_copy_agent example_weights);
    [reflexivity | reflexivity |].
  simpl. lia.
Defined.

Lemma blend_lookup (tau : R) (param target_param : list R) (i : nat) :
  DDQN.blend tau param target_param !! i
  = match target_param !! i with
    | Some q => Some match param !! i with
                     | Some p => (tau * p + (1 - tau) * q)%R
                     | None => q
                     end
    | None => None
    end.
Proof.
  revert target_param i.
  induction param as [|p param IH]; intros [|q tp] i; cbn [DDQN.blend].
  - reflexivity.
  - destruct ((q :: tp) !! i); reflexivity.
  - reflexivity.
  - destruct i as [|i]; [reflexivity|]. cbn [lookup list_lookup]. apply IH.
Qed.

Lemma train_update_polyak (a : DDQN.t) (q : list R) :
  DDQN.polyak a = true ->
  exists a',
    DDQN.train_update a q = Ok a'
    /\ DDQN.polyak a' = true
    /\ DDQN.tau a' = DDQN.tau a
    /\ DDQN.iterations a' = (DDQN.iterations a + 1)%Z
    /\ DDQN.Q a' = q
    /\ DDQN.Q_target a' = DDQN.blend (DDQN.tau a) q (DDQN.Q_target a).
Proof.
  intros Hpol.
  unfold DDQN.train_update, DDQN.maybe_update_target.
  cbn [DDQN.polyak]. rewrite Hpol.
  unfold DDQN.polyak_target_update.
  cbn [DDQN.target_update_frequency DDQN.iterations DDQN.Q DDQN.Q_target
       DDQN.tau DDQN.polyak].
  eexists. split; [reflexivity|].
  cbn [DDQN.target_update_frequency DDQN.iterations DDQN.Q DDQN.Q_target
       DDQN.tau DDQN.polyak]. auto.
Qed.

(** X20: With the Polyak rule the target network closes in on [Q]
    geometrically: after [n] calls of [train] that leave [Q] at the
    weights [q], a target weight that started at [t] is [p + (1 - tau) ^
    n * (t - p)], where [p] is the weight of [Q] at the same place;
    target weights without a counterpart in [Q] keep their value.  The
    rule never raises. *)
Theorem polyak_geometric (a : DDQN.t) (q : list R) (n : nat) :
  DDQN.polyak a = true ->
  exists a',
    train_updates a (replicate n q) = Ok a'
    /\ DDQN.iterations a' = (DDQN.iterations a + Z.of_nat n)%Z
    /\ length (DDQN.Q_target a') = length (DDQN.Q_target a)
    /\ (forall i p t,
          q !! i = Some p -> DDQN.Q_target a !! i = Some t ->
          DDQN.Q_target a' !! i
          = Some (p + (1 - DDQN.tau a) ^ n * (t - p))%R)
    /\ (forall i, q !! i = None ->
                  DDQN.Q_target a' !! i = DDQN.Q_target a !! i).
Proof.
  intros Hpol.
  enough (exists a',
             train_updates a (replicate n q) = Ok a'
             /\ DDQN.iterations a' = (DDQN.iterations a + Z.of_nat n)%Z
             /\ forall i,
                  DDQN.Q_target a' !! i
                  = match DDQN.Q_target a !! i with
                    | Some t =>
                        Some match q !! i with
                             | Some p =>
                                 (p + (1 - DDQN.tau a) ^ n * (t - p))%R
                             | None => t
                             end
                    | None => None
                    end)
    as (a' & E & I & H).
  { exists a'. split_and!; [assumption | assumption | | |].
    - destruct (Nat.lt_trichotomy (length (DDQN.Q_target a'))
                  (length (DDQN.Q_target a))) as [Hl|[Hl|Hl]];
        [|assumption|].
      + apply lookup_lt_is_Some_2 in Hl as [t Ht].
        specialize (H (length (DDQN.Q_target a'))).
        rewrite Ht, lookup_ge_None_2 in H by lia. discriminate.
      + apply lookup_lt_is_Some_2 in Hl as [t Ht].
        specialize (H (length (DDQN.Q_target a))).
        rewrite Ht, lookup_ge_None_2 in H by lia. discriminate.
    - intros i p t Hq Ht. rewrite H, Ht, Hq. reflexivity.
    - intros i Hq. rewrite H, Hq.
      destruct (DDQN.Q_target a !! i); reflexivity. }
  revert a Hpol. induction n as [|n IH]; intros a Hpol.
  - exists a. cbn [replicate train_updates].
    split_and!; [reflexivity | lia |].
    intros i. destruct (DDQN.Q_target a !! i); [|reflexivity].
    destruct (q !! i); f_equal. simpl. lra.
  - cbn [replicate train_updates].
    destruct (train_update_polyak a q Hpol)
      as (a1 & E1 & P1 & T1 & I1 & Q1 & B1).
    rewrite E1. rsimpl.
    destruct (IH a1 P1) as (a' & E & I & H).
    exists a'. split_and!; [assumption | lia |].
    intros i. rewrite H, B1, blend_lookup, T1.
    destruct (DDQN.Q_target a !! i); [|reflexivity].
    destruct (q !! i); f_equal. simpl. lra.
Qed.

Lemma polyak_geometric_witness :
  exists a',
    train_updates example_polyak_agent (replicate 3 [1%R]) = Ok a'
    /\ DDQN.iterations a'
       = (DDQN.iterations example_polyak_agent + Z.of_nat 3)%Z
    /\ length (DDQN.Q_target a')
       = length (DDQN.Q_target example_polyak_agent)
    /\ (forall i p t,
          [1%R] !! i = Some p ->
          DDQN.Q_target example_polyak_agent !! i = Some t ->
          DDQN.Q_target a' !! i
          = Some (p + (1 - DDQN.tau example_polyak_agent) ^ 3 * (t - p))%R)
    /\ (forall i, [1%R] !! i = None ->
                  DDQN.Q_target a' !! i
                  = DDQN.Q_target example_polyak_agent !! i).
Proof.
  apply (polyak_geometric example_polyak_agent [1%R] 3). reflexivity.
Defined.

Lemma get_set_same (d : DDQN.dict) (s : Z) (v x : R) :
  DDQN.get (DDQN.set d s v) s x = v.
Proof.
  induction d as [|[k w] d IH]; cbn [DDQN.set DDQN.get].
  - rewrite Z.eqb_refl. reflexivity.
  - destruct (Z.eqb_spec k s) as [E|NE]; cbn [DDQN.get].
    + rewrite E, Z.eqb_refl. reflexivity.
    + destruct (Z.eqb_spec k s); [contradiction | assumption].
Qed.

Lemma get_set_other (d : DDQN.dict) (s s' : Z) (v x : R) :
  s' <> s -> DDQN.get (DDQN.set d s v) s' x = DDQN.get d s' x.
Proof.
  intros Hne. induction d as [|[k w] d IH]; cbn [DDQN.set DDQN.get].
  - destruct (Z.eqb_spec s s'); [congruence | reflexivity].
  - destruct (Z.eqb_spec k s) as [E|NE]; cbn [DDQN.get].
    + destruct (Z.eqb_spec k s'); [congruence | reflexivity].
    + destruct (Z.eqb_spec k s'); [reflexivity | assumption].
Qed.

Lemma keys_set (d : DDQN.dict) (s : Z) (v : R) :
  map fst (DDQN.set d s v)
  = if decide (s ∈ map fst d) then map fst d else map fst d ++ [s].
Proof.
  induction d as [|[k w] d IH]; cbn [DDQN.set map fst app].
  - rewrite decide_False by apply not_elem_of_nil. reflexivity.
  - destruct (Z.eqb_spec k s) as [E|NE]; cbn [map fst].
    + rewrite decide_True by (subst; apply elem_of_cons; auto). reflexivity.
    + rewrite IH. destruct (decide (s ∈ map fst d)) as [Hin|Hnin].
      * rewrite decide_True by (apply elem_of_cons; auto). reflexivity.
      * rewrite decide_False; [reflexivity|].
        intros [?|?]%elem_of_cons; [congruence | contradiction].
Qed.

(** X21: The seed loop of [train] adds to the entry of every seed the
    weights of the batch rows that carry it (their number, when the
    batch is not weighted), creates an entry for a seed it had not seen,
    and never holds a seed twice.  It fails only when a weighted batch
    has fewer weights than seeds. *)
Theorem count_seeds_tally (weighted : bool) (seed_weights : DDQN.dict)
    (seeds : list Z) (weights : list R) :
  (weighted = true -> length seeds <= length weights) ->
  NoDup (map fst seed_weights) ->
  exists d,
    DDQN.count_seeds weighted seed_weights 0 seeds weights = Ok d
    /\ NoDup (map fst d)
    /\ (forall s, s ∈ map fst d <-> s ∈ map fst seed_weights \/ s ∈ seeds)
    /\ forall s,
         DDQN.get d s 0
         = (DDQN.get seed_weights s 0 + tally weighted s 0 seeds weights)%R.
Proof.
  intros Hlen.
  assert (Hlen' : weighted = true -> 0 + length seeds <= length weights)
    by (intros; simpl; auto).
  clear Hlen. revert Hlen'. generalize 0 as idx. revert seed_weights.
  induction seeds as [|s0 seeds IH]; intros d0 idx Hlen Hnd.
  - exists d0. cbn [DDQN.count_seeds tally].
    split_and!; [reflexivity | assumption | | intros; lra].
    intros s. split; [auto|]. intros [?|H]; [assumption|].
    apply elem_of_nil in H. contradiction.
  - cbn [DDQN.count_seeds tally].
    set (w := if weighted then default 0%R (weights !! idx) else 1%R).
    assert (Hw : (if weighted
                  then match weights !! idx with
                       | Some w => Ok w
                       | None => Raise IndexError
                       end
                  else Ok 1%R) = Ok w).
    { unfold w. destruct weighted; [|reflexivity].
      cbn [length] in Hlen.
      destruct (lookup_lt_is_Some_2 weights idx) as [x Hx];
        [specialize (Hlen eq_refl); lia|].
      rewrite Hx. reflexivity. }
    rewrite Hw. rsimpl.
    set (d1 := DDQN.set d0 s0 (DDQN.get d0 s0 0 + w)%R).
    assert (Hk1 : map fst d1
                  = if decide (s0 ∈ map fst d0) then map fst d0
                    else map fst d0 ++ [s0]) by apply keys_set.
    destruct (IH d1 (S idx)) as (d & E & Hnd' & Hkeys & Hget).
    { intros Hwt. specialize (Hlen Hwt). cbn [length] in Hlen. lia. }
    { rewrite Hk1. case_decide; [assumption|].
      apply NoDup_app. split_and!; [assumption | | apply NoDup_singleton].
      intros x Hx Hx'. apply list_elem_of_singleton in Hx'. congruence. }
    exists d. split_and!; [assumption | assumption | |].
    + intros s. rewrite Hkeys, Hk1, elem_of_cons.
      case_decide as Hin.
      * split; [intros [?|?]; auto|].
        intros [?|[->|?]]; auto.
      * rewrite elem_of_app, list_elem_of_singleton.
        split; [intros [[?|?]|?]; auto | intros [?|[?|?]]; auto].
    + intros s. rewrite Hget. unfold d1.
      destruct (Z.eqb_spec s0 s) as [->|Hne].
      * rewrite get_set_same. fold w. lra.
      * rewrite get_set_other by congruence. lra.
Qed.

Lemma count_seeds_tally_witness :
  exists d,
    DDQN.count_seeds true (DDQN.init_seed_weights 0 2) 0 [1; 5; 1]%Z
      [0.5; 1; 0.25]%R = Ok d
    /\ NoDup (map fst d)
    /\ (forall s, s ∈ map fst d
                  <-> s ∈ map fst (DDQN.init_seed_weights 0 2)
                      \/ s ∈ [1; 5; 1]%Z)
    /\ forall s,
         DDQN.get d s 0
         = (DDQN.get (DDQN.init_seed_weights 0 2) s 0
            + tally true s 0 [1; 5; 1]%Z [0.5; 1; 0.25]%R)%R.
Proof.
  apply (count_seeds_tally true (DDQN.init_seed_weights 0 2) [1; 5; 1]%Z
           [0.5; 1; 0.25]%R).
  - intros _. simpl. lia.
  - simpl. apply NoDup_cons. split.
    + intros H. apply list_elem_of_singleton in H. lia.
    + apply NoDup_singleton.
Defined.

Lemma update_priority_floor (b : Buffer.t) (ind : list Z)
    (priority : list R) (c : R) :
  wf_buffer b ->
  Buffer.prioritized b = true ->
  Forall (fun i => (0 <= i < Buffer.max_size b)%Z) ind ->
  length priority = length ind ->
  priority <> [] ->
  Forall (fun p => (c <= p)%R) priority ->
  exists b',
    Buffer.update_priority b ind priority = Ok b'
    /\ (c <= Buffer.max_priority b')%R.
Proof.
  intros Hwf Hpr Hind Hlen Hne Hc.
  destruct (update_priority_wf b ind priority Hwf Hind Hlen Hne)
    as (b' & Hup & _).
  exists b'. split; [assumption|].
  unfold Buffer.update_priority in Hup. rewrite Hpr in Hup.
  destruct priority as [|p ps]; [contradiction|].
  destruct (SumTree.batch_set (Buffer.tree b) ind (p :: ps)) as [tr'|e];
    [|discriminate].
  cbn [mbind result_bind] in Hup. inversion Hup; subst b'.
  cbn [Buffer.max_priority].
  apply Forall_cons in Hc as [Hp _].
  pose proof (max_of_ge_first ps p).
  pose proof (Rmax_l (Buffer.max_of p ps) (Buffer.max_priority b)). lra.
Qed.

(** X22: The priorities [train] hands to [update_priority] are bounded
    away from 0: those of [DDQN.train] are at least [1e-10], those of
    [Rainbow.train] at least [min_priority]; the update does not fail
    on the indices [sample] returned, and leaves [max_priority] at
    least as large as that bound. *)
Theorem train_priority_floor (b : Buffer.t) (ind : list Z)
    (current_Q target_Q loss : list R) (min_priority : R) :
  wf_buffer b ->
  Buffer.prioritized b = true ->
  Forall (fun i => (0 <= i < Buffer.max_size b)%Z) ind ->
  ind <> [] ->
  length current_Q = length ind ->
  length target_Q = length ind ->
  length loss = length ind ->
  (Forall (fun p => (1e-10 <= p)%R) (Priority.ddqn current_Q target_Q)
   /\ exists b',
        Buffer.update_priority b ind (Priority.ddqn current_Q target_Q)
        = Ok b'
        /\ (1e-10 <= Buffer.max_priority b')%R)
  /\ (Forall (fun p => (min_priority <= p)%R)
        (Priority.rainbow min_priority loss)
      /\ exists b',
           Buffer.update_priority b ind (Priority.rainbow min_priority loss)
           = Ok b'
           /\ (min_priority <= Buffer.max_priority b')%R).
Proof.
  intros Hwf Hpr Hind Hne Hcq Htq Hloss.
  assert (Hd : Forall (fun p => (1e-10 <= p)%R)
                 (Priority.ddqn current_Q target_Q)).
  { unfold Priority.ddqn. apply Forall_lookup. intros i x Hx.
    apply lookup_zip_with_Some in Hx as (c & t & -> & _ & _).
    pose proof (Rabs_pos (c - t)). lra. }
  assert (Hr : Forall (fun p => (min_priority <= p)%R)
                 (Priority.rainbow min_priority loss)).
  { unfold Priority.rainbow. apply Forall_map, Forall_forall.
    intros x _. apply Rmax_r. }
  split; (split; [assumption|]).
  - apply update_priority_floor; try assumption.
    + unfold Priority.ddqn. rewrite length_zip_with. lia.
    + unfold Priority.ddqn. destruct ind; [contradiction|].
      destruct current_Q, target_Q; discriminate.
  - apply update_priority_floor; try assumption.
    + unfold Priority.rainbow. rewrite length_map. assumption.
    + unfold Priority.rainbow. destruct ind; [contradiction|].
      destruct loss; discriminate.
Qed.

Lemma train_priority_floor_witness :
  (Forall (fun p => (1e-10 <= p)%R) (Priority.ddqn [2; 0.5]%R [2; 1]%R)
   /\ exists b',
        Buffer.update_priority pair_buffer [1; 0]%Z
          (Priority.ddqn [2; 0.5]%R [2; 1]%R) = Ok b'
        /\ (1e-10 <= Buffer.max_priority b')%R)
  /\ (Forall (fun p => (0.01 <= p)%R) (Priority.rainbow 0.01 [0; 2]%R)
      /\ exists b',
           Buffer.update_priority pair_buffer [1; 0]%Z
             (Priority.rainbow 0.01 [0; 2]%R) = Ok b'
           /\ (0.01 <= Buffer.max_priority b')%R).
Proof.
  apply (train_priority_floor pair_buffer [1; 0]%Z [2; 0.5]%R [2; 1]%R
           [0; 2]%R 0.01).
  - exact pair_buffer_wf.
  - reflexivity.
  - repeat (apply Forall_cons_2; [simpl; lia|]). apply Forall_nil_2.
  - discriminate.
  - reflexivity.
  - reflexivity.
  - reflexivity.
Defined.

Lemma descend_all_interval (levels : list (list R)) (T : R) (qs : list R) :
  adjacent child_of ([T] :: levels) ->
  Forall (fun q => (0 < q <= T)%R) qs ->
  exists ind lf,
    SumTree.descend_all levels qs = Ok ind
    /\ last ([T] :: levels) = Some lf
    /\ Forall2 (fun q i =>
                  (0 <= i)%Z
                  /\ exists v, lf !! Z.to_nat i = Some v
                               /\ (sumR (take (Z.to_nat i) lf) < q
                                   <= sumR (take (S (Z.to_nat i)) lf))%R
                               /\ (0 < v)%R) qs ind.
Proof.
  intros Hadj Hqs.
  destruct (descend_range levels [T] 0 0%R Hadj) as (_ & lf & _ & Hlast & _);
    [simpl; lia|].
  induction Hqs as [|q qs Hq _ IH].
  - exists [], lf. simpl. split_and!; auto.
  - destruct IH as (ind & lf' & Hind & Hl & Hall).
    rewrite Hlast in Hl. inversion Hl; subst lf'.
    destruct (descend_interval levels [T] 0 q T Hadj)
      as (i & lf' & v & q' & H1 & H2 & H3 & H4 & H5 & H6);
      [lia | reflexivity | assumption |].
    rewrite Hlast in H2. inversion H2; subst lf'.
    exists (i :: ind), lf. cbn [SumTree.descend_all].
    rewrite H1. rsimpl. rewrite Hind. rsimpl.
    split_and!; [reflexivity | assumption |].
    constructor; [|assumption].
    split; [assumption|]. exists v.
    change (sumR (take (Z.to_nat 0) [T])) with 0%R in H6.
    split_and!; [assumption | lra | rewrite (sumR_take_S _ _ _ H4); lra | lra].
Qed.

Lemma length_spec_weights ps T beta :
  length (spec_weights ps T beta) = length ps.
Proof.
  unfold spec_weights. destruct ps as [|p ps]; [reflexivity|].
  cbn [map]. cbn [length]. rewrite !length_map. reflexivity.
Qed.

(** X13: A prioritized [sample] whose draws are positive, in exact
    arithmetic, on a buffer in whose tree every node is the sum of its
    two children and the leaves beyond the capacity hold 0: the call
    returns; every index is a slot of the buffer with a strictly
    positive priority, the one whose interval of cumulative priorities
    holds the draw; the rows returned are the rows stored in these
    slots; the weights are normalised, all in [(0, 1]] with 1 among
    them; and [beta] moves one step towards 1. *)
Theorem sample_positive_draws (b : Buffer.t) (qs : list R) (u : list Z)
    (T : R) :
  wf_buffer b ->
  Buffer.prioritized b = true ->
  padding_zero (Buffer.max_size b) (Buffer.tree b) ->
  SumTree.total (Buffer.tree b) = Ok T ->
  qs <> [] ->
  Forall (fun q => (0 < q <= T)%R) qs ->
  exists r b' lf ws,
    Buffer.sample b qs u = Ok (r, b')
    /\ SumTree.leaves (Buffer.tree b) = Ok lf
    /\ Forall2 (fun q i =>
                  (0 <= i < Buffer.max_size b)%Z
                  /\ exists p,
                       lf !! Z.to_nat i = Some p /\ (0 < p)%R
                       /\ (sumR (take (Z.to_nat i) lf) < q
                           <= sumR (take (S (Z.to_nat i)) lf))%R)
         qs (Buffer.s_ind r)
    /\ Forall2 (fun arr out =>
                  Forall2 (fun i row => arr !! Z.to_nat i = Some row)
                    (Buffer.s_ind r) out)
         (columns b) (sampled_columns r)
    /\ Buffer.s_weights r = Some ws
    /\ length ws = length qs
    /\ Forall (fun w => (0 < w <= 1)%R) ws
    /\ 1%R ∈ ws
    /\ Buffer.beta b' = Rmin (Buffer.beta b + 2e-7) 1
    /\ columns b' = columns b
    /\ Buffer.tree b' = Buffer.tree b.
Proof.
  intros (Hptr & Hcols & Htree) Hpr Hpad HT Hqs Hdraws.
  destruct (Htree Hpr) as [Hwf Hcap].
  destruct (wf_total _ Hwf) as (x & rest & E & Htot).
  rewrite HT in Htot. inversion Htot; subst x.
  destruct (wf_leaves _ Hwf) as (lf & _ & _ & Hlf & Hcount).
  pose proof Hwf as [_ Hadj]. rewrite E in Hadj.
  destruct (descend_all_interval rest T qs Hadj Hdraws)
    as (ind & lf' & Hind & Hlast & Hall).
  assert (lf' = lf).
  { unfold SumTree.leaves in Hlf. rewrite E, Hlast in Hlf.
    inversion Hlf. reflexivity. }
  subst lf'.
  assert (Hsample : SumTree.sample (Buffer.tree b) qs = Ok ind).
  { unfold SumTree.sample. rewrite HT, E. rsimpl. exact Hind. }
  assert (Hslots : Forall2 (fun q i =>
                     (0 <= i < Buffer.max_size b)%Z
                     /\ exists p,
                          lf !! Z.to_nat i = Some p /\ (0 < p)%R
                          /\ (sumR (take (Z.to_nat i) lf) < q
                              <= sumR (take (S (Z.to_nat i)) lf))%R)
                     qs ind).
  { eapply Forall2_impl; [exact Hall|].
    intros q i (Hi & v & Hv & Hint & Hpos). cbn beta.
    split; [|eauto].
    split; [assumption|].
    destruct (Z.lt_ge_cases i (Buffer.max_size b)) as [?|Hge]; [assumption|].
    pose proof (Hpad lf (Z.to_nat i) v Hlf ltac:(lia) Hv). lra. }
  assert (Hrange : Forall (fun i => (0 <= i < Buffer.max_size b)%Z) ind).
  { clear -Hslots. induction Hslots as [|q i qs ind [Hi _] _ IH];
      constructor; assumption. }
  assert (Hin : forall arr : list (list R),
             length arr = Z.to_nat (Buffer.max_size b) ->
             exists xs, Np.take_at arr ind = Ok xs
                        /\ Forall2 (fun i row => arr !! Z.to_nat i = Some row)
                             ind xs).
  { intros arr Harr. destruct (take_at_succeeds arr ind) as (xs & Hxs & _).
    - eapply Forall_impl; [exact Hrange|]. cbn beta. lia.
    - exists xs. split; [assumption|].
      apply (take_at_lookup _ _ _ Hxs).
      eapply Forall_impl; [exact Hrange|]. cbn beta. lia. }
  unfold columns in Hcols.
  repeat match goal with
         | H : Forall _ (_ :: _) |- _ => inversion_clear H
         end.
  destruct (Hin (Buffer.state b)) as (st & Est & Rst); [assumption|].
  destruct (Hin (Buffer.action b)) as (ac & Eac & Rac); [assumption|].
  destruct (Hin (Buffer.next_state b)) as (ns & Ens & Rns); [assumption|].
  destruct (Hin (Buffer.reward b)) as (rw & Erw & Rrw); [assumption|].
  destruct (Hin (Buffer.not_done b)) as (nd & End & Rnd); [assumption|].
  destruct (Hin (Buffer.seeds b)) as (sd & Esd & Rsd); [assumption|].
  destruct (take_at_succeeds lf ind) as (ps & Eps & Hpl).
  { eapply Forall_impl; [exact Hrange|]. cbn beta. lia. }
  assert (Hps : Forall2 (fun i p => lf !! Z.to_nat i = Some p) ind ps).
  { apply (take_at_lookup _ _ _ Eps).
    eapply Forall_impl; [exact Hrange|]. cbn beta. lia. }
  assert (Hlen : length ind = length qs).
  { symmetry. eapply Forall2_length. exact Hslots. }
  assert (Hpos : Forall (fun p => (0 < p)%R) ps).
  { clear -Hps Hslots. revert qs Hslots.
    induction Hps as [|i p ind ps Hi _ IH]; intros qs Hslots.
    - constructor.
    - inversion Hslots as [|q ? qs' ? [_ (p' & Hp' & Hlt & _)] Hrest];
        subst.
      rewrite Hi in Hp'. inversion Hp'; subst p'.
      constructor; [assumption | eapply IH; eassumption]. }
  assert (Hne : ps <> []).
  { destruct ps; [|discriminate]. simpl in Hpl.
    destruct ind; [|discriminate]. simpl in Hlen.
    destruct qs; [contradiction | discriminate]. }
  assert (HTpos : (0 < T)%R).
  { destruct Hdraws as [|q ? Hq _]; [contradiction | lra]. }
  destruct (weights_of_spec ps T (Buffer.beta b) Hne Hpos HTpos)
    as (w & ws & Hw & Hspec & Hmax & Hwpos).
  destruct (max_of_bounds ws w) as [Hle Hmem]. rewrite Hmax in Hle, Hmem.
  eexists _, _, lf, (w :: ws).
  split.
  { unfold Buffer.sample. rewrite Hpr, Hsample. rsimpl.
    rewrite Est. rsimpl. rewrite Eac. rsimpl. rewrite Ens. rsimpl.
    rewrite Erw. rsimpl. rewrite End. rsimpl. rewrite Esd. rsimpl.
    rewrite Hlf. rsimpl. rewrite Eps. rsimpl. rewrite Hw. rsimpl.
    reflexivity. }
  unfold sampled_columns, columns.
  cbn [Buffer.s_ind Buffer.s_state Buffer.s_action Buffer.s_next_state
       Buffer.s_reward Buffer.s_not_done Buffer.s_seeds Buffer.s_weights
       Buffer.beta Buffer.tree Buffer.state Buffer.action Buffer.next_state
       Buffer.reward Buffer.not_done Buffer.seeds].
  split; [assumption|]. split; [assumption|].
  split; [repeat (constructor; [assumption|]); constructor|].
  split; [reflexivity|].
  split.
  { rewrite Hspec, length_spec_weights, <- Hlen. exact Hpl. }
  split.
  { clear -Hle Hwpos. revert Hle Hwpos. generalize (w :: ws).
    intros l Hle Hpos. apply Forall_forall. intros y Hy.
    rewrite Forall_forall in Hle, Hpos. split; [apply Hpos | apply Hle]; auto. }
  split; [assumption|]. auto.
Qed.

Lemma built_buffer_reachable :
  reachable (Buffer.max_size built_buffer) (Buffer.tree built_buffer).
Proof.
  exists {| SumTree.nodes := SumTree.build_levels 2 1 |},
    [OpSet 0 1; OpSet 1 3].
  split_and!; [reflexivity | repeat constructor; simpl; lia | reflexivity].
Qed.

Lemma built_buffer_wf : wf_buffer built_buffer.
Proof.
  split; [|split].
  - simpl. lia.
  - unfold columns. simpl. repeat constructor.
  - intros _. split; [|vm_compute; discriminate].
    apply (reachable_wf 2); [lia | exact built_buffer_reachable].
Qed.

Lemma built_buffer_padding :
  padding_zero (Buffer.max_size built_buffer) (Buffer.tree built_buffer).
Proof.
  intros lf k x Hlf Hk Hx. inversion Hlf; subst lf.
  apply lookup_lt_Some in Hx. simpl in Hk, Hx. lia.
Qed.

Lemma sample_positive_draws_witness :
  exists r b' lf ws,
    Buffer.sample built_buffer [0.5; 2]%R [] = Ok (r, b')
    /\ SumTree.leaves (Buffer.tree built_buffer) = Ok lf
    /\ Forall2 (fun q i =>
                  (0 <= i < Buffer.max_size built_buffer)%Z
                  /\ exists p,
                       lf !! Z.to_nat i = Some p /\ (0 < p)%R
                       /\ (sumR (take (Z.to_nat i) lf) < q
                           <= sumR (take (S (Z.to_nat i)) lf))%R)
         [0.5; 2]%R (Buffer.s_ind r)
    /\ Forall2 (fun arr out =>
                  Forall2 (fun i row => arr !! Z.to_nat i = Some row)
                    (Buffer.s_ind r) out)
         (columns built_buffer) (sampled_columns r)
    /\ Buffer.s_weights r = Some ws
    /\ length ws = length [0.5; 2]%R
    /\ Forall (fun w => (0 < w <= 1)%R) ws
    /\ 1%R ∈ ws
    /\ Buffer.beta b' = Rmin (Buffer.beta built_buffer + 2e-7) 1
    /\ columns b' = columns built_buffer
    /\ Buffer.tree b' = Buffer.tree built_buffer.
Proof.
  apply (sample_positive_draws built_buffer [0.5; 2]%R []
           (0 + (1 - 0) + (3 - 0))%R).
  - exact built_buffer_wf.
  - reflexivity.
  - exact built_buffer_padding.
  - reflexivity.
  - discriminate.
  - repeat (apply Forall_cons_2; [lra|]). apply Forall_nil_2.
Defined.

Lemma pair_sums_nonneg (C : list R) :
  Forall (fun x => (0 <= x)%R) C ->
  Forall (fun x => (0 <= x)%R) (pair_sums C).
Proof.
  induction C as [| a | a c C IH] using pair_ind; intros H; cbn [pair_sums].
  - constructor.
  - constructor.
  - inversion H as [|? ? Ha H']; subst. inversion H' as [|? ? Hc H'']; subst.
    constructor; [lra | auto].
Qed.

Lemma levels_nonneg (levels : list (list R)) :
  forall P lf,
    adjacent child_of (P :: levels) ->
    last (P :: levels) = Some lf ->
    Forall (fun x => (0 <= x)%R) lf ->
    Forall (Forall (fun x => (0 <= x)%R)) (P :: levels).
Proof.
  induction levels as [|C rest IH]; intros P lf Hadj Hlast Hlf.
  - inversion Hlast; subst. repeat constructor. assumption.
  - apply adjacent_cons in Hadj as [[Hlen HP] Hadj].
    rewrite last_cons_cons in Hlast.
    pose proof (IH C lf Hadj Hlast Hlf) as HC.
    constructor; [|assumption].
    rewrite HP. apply pair_sums_nonneg.
    inversion HC; assumption.
Qed.

(** A draw of 0 goes left at every level when no node is negative. *)
Lemma descend_left (levels : list (list R)) :
  forall P,
    adjacent child_of (P :: levels) ->
    0 < length P ->
    Forall (Forall (fun x => (0 <= x)%R)) levels ->
    SumTree.descend levels 0 0%R = Ok 0%Z.
Proof.
  induction levels as [|C rest IH]; intros P Hadj HP Hnn; [reflexivity|].
  apply adjacent_cons in Hadj as [[Hlen _] Hadj].
  inversion Hnn as [|? ? HC Hrest]; subst.
  cbn [SumTree.descend]. cbn zeta. change (0 * 2)%Z with 0%Z.
  destruct C as [|c C]; [simpl in Hlen; lia|].
  unfold Np.get. rewrite index_nonneg by (simpl; lia). rsimpl.
  change ((c :: C) !! Z.to_nat 0) with (Some c). rsimpl.
  inversion HC as [|? ? Hc _]; subst.
  destruct (Rgt_dec 0 c) as [Hgt|_]; [lra|].
  apply (IH (c :: C)); [assumption | simpl; lia | assumption].
Qed.

(** X14: A prioritized [sample] on the draws
    [np.random.uniform(0, total)] can give, in exact arithmetic, on a
    buffer in whose tree every node is the sum of its two children, no
    priority is negative and the leaves beyond the capacity hold 0:
    every draw in [[0, total]] ends in a slot of the buffer, so the
    reads that follow succeed and the call returns one row per draw.
    (A draw of exactly 0 ends in slot 0.) *)
Theorem sample_reads_slots (b : Buffer.t) (qs : list R) (u : list Z)
    (T : R) :
  wf_buffer b ->
  Buffer.prioritized b = true ->
  padding_zero (Buffer.max_size b) (Buffer.tree b) ->
  nonneg_leaves (Buffer.tree b) ->
  SumTree.total (Buffer.tree b) = Ok T ->
  qs <> [] ->
  Forall (fun q => (0 <= q <= T)%R) qs ->
  exists r b',
    Buffer.sample b qs u = Ok (r, b')
    /\ length (Buffer.s_ind r) = length qs
    /\ Forall (fun i => (0 <= i < Buffer.max_size b)%Z) (Buffer.s_ind r)
    /\ Forall (fun out => length out = length qs) (sampled_columns r)
    /\ wf_buffer b'.
Proof.
  intros Hwfb Hpr Hpad Hnn HT Hqs Hdraws.
  pose proof Hwfb as (Hptr & Hcols & Htree).
  destruct (Htree Hpr) as [Hwf Hcap].
  destruct (wf_total _ Hwf) as (x & rest & E & Htot).
  rewrite HT in Htot. inversion Htot; subst x.
  destruct (wf_leaves _ Hwf) as (lf & _ & _ & Hlf & Hcount).
  pose proof Hwf as [_ Hadj]. rewrite E in Hadj.
  assert (Hlast : last ([T] :: rest) = Some lf).
  { unfold SumTree.leaves in Hlf. rewrite E in Hlf.
    destruct (last ([T] :: rest)); inversion Hlf; reflexivity. }
  pose proof (levels_nonneg rest [T] lf Hadj Hlast (Hnn lf Hlf)) as Hlv.
  apply Forall_cons in Hlv as [_ Hlv].
  assert (Hone : forall q, (0 <= q <= T)%R ->
            exists i, SumTree.descend rest 0 q = Ok i
                      /\ (0 <= i < Buffer.max_size b)%Z).
  { intros q [[Hq|Hq] HqT].
    - destruct (descend_interval rest [T] 0 q T Hadj)
        as (i & lf' & v & q' & H1 & H2 & H3 & H4 & H5 & H6);
        [lia | reflexivity | lra |].
      rewrite Hlast in H2. inversion H2; subst lf'.
      exists i. split; [assumption|]. split; [assumption|].
      destruct (Z.lt_ge_cases i (Buffer.max_size b)) as [?|Hge];
        [assumption|].
      pose proof (Hpad lf (Z.to_nat i) v Hlf ltac:(lia) H4). lra.
    - subst q. exists 0%Z. split; [|lia].
      apply (descend_left rest [T]); [assumption | simpl; lia | assumption]. }
  assert (Hsample : exists ind,
             SumTree.sample (Buffer.tree b) qs = Ok ind
             /\ length ind = length qs
             /\ Forall (fun i => (0 <= i < Buffer.max_size b)%Z) ind).
  { unfold SumTree.sample. rewrite HT, E. rsimpl. cbn [tail].
    clear Hqs. induction Hdraws as [|q qs Hq _ IH].
    - exists []. split_and!; [reflexivity | reflexivity | constructor].
    - destruct IH as (ind & Hind & Hl & Hr).
      destruct (Hone q Hq) as (i & Hi & Hir).
      exists (i :: ind). cbn [SumTree.descend_all].
      rewrite Hi. rsimpl. rewrite Hind. rsimpl.
      split_and!; [reflexivity | simpl; lia | constructor; assumption]. }
  destruct Hsample as (ind & Hsample & Hlen & Hrange).
  assert (Hin : forall arr : list (list R),
             length arr = Z.to_nat (Buffer.max_size b) ->
             exists xs, Np.take_at arr ind = Ok xs
                        /\ length xs = length qs).
  { intros arr Harr. destruct (take_at_succeeds arr ind) as (xs & Hxs & Hl).
    - eapply Forall_impl; [exact Hrange|]. cbn beta. lia.
    - exists xs. split; [assumption | congruence]. }
  unfold columns in Hcols.
  repeat match goal with
         | H : Forall _ (_ :: _) |- _ => inversion_clear H
         end.
  destruct (Hin (Buffer.state b)) as (st & Est & Rst); [assumption|].
  destruct (Hin (Buffer.action b)) as (ac & Eac & Rac); [assumption|].
  destruct (Hin (Buffer.next_state b)) as (ns & Ens & Rns); [assumption|].
  destruct (Hin (Buffer.reward b)) as (rw & Erw & Rrw); [assumption|].
  destruct (Hin (Buffer.not_done b)) as (nd & End & Rnd); [assumption|].
  destruct (Hin (Buffer.seeds b)) as (sd & Esd & Rsd); [assumption|].
  destruct (take_at_succeeds lf ind) as (ps & Eps & Hpl).
  { eapply Forall_impl; [exact Hrange|]. cbn beta. lia. }
  assert (Hw : exists ws, Buffer.weights_of ps (Buffer.beta b) = Ok ws).
  { unfold Buffer.weights_of. destruct ps as [|p ps]; [|eauto].
    simpl in Hpl. destruct ind; [|discriminate]. simpl in Hlen.
    destruct qs; [contradiction | discriminate]. }
  destruct Hw as [ws Hw].
  assert (Hrun : exists r b',
             Buffer.sample b qs u = Ok (r, b')
             /\ Buffer.s_ind r = ind
             /\ sampled_columns r = [st; ac; ns; rw; nd; sd]).
  { unfold Buffer.sample. rewrite Hpr, Hsample. rsimpl.
    rewrite Est. rsimpl. rewrite Eac. rsimpl. rewrite Ens. rsimpl.
    rewrite Erw. rsimpl. rewrite End. rsimpl. rewrite Esd. rsimpl.
    rewrite Hlf. rsimpl. rewrite Eps. rsimpl. rewrite Hw. rsimpl.
    eexists _, _. split_and!; reflexivity. }
  destruct Hrun as (r & b' & Hrun & Hri & Hrc).
  exists r, b'. rewrite Hri, Hrc.
  split_and!; [assumption | assumption | assumption | |].
  - repeat (apply Forall_cons_2; [assumption|]). apply Forall_nil_2.
  - eapply sample_wf; eassumption.
Qed.

Lemma sample_reads_slots_witness :
  exists r b',
    Buffer.sample built_buffer [0; 4]%R [] = Ok (r, b')
    /\ length (Buffer.s_ind r) = length [0; 4]%R
    /\ Forall (fun i => (0 <= i < Buffer.max_size built_buffer)%Z)
         (Buffer.s_ind r)
    /\ Forall (fun out => length out = length [0; 4]%R) (sampled_columns r)
    /\ wf_buffer b'.
Proof.
  apply (sample_reads_slots built_buffer [0; 4]%R []
           (0 + (1 - 0) + (3 - 0))%R).
  - exact built_buffer_wf.
  - reflexivity.
  - exact built_buffer_padding.
  - intros lf Hlf. inversion Hlf; subst.
    repeat (apply Forall_cons_2; [lra|]). apply Forall_nil_2.
  - reflexivity.
  - discriminate.
  - repeat (apply Forall_cons_2; [lra|]). apply Forall_nil_2.
Defined.

(** ** The life of a prioritized buffer *)

Lemma run_ops_snoc tr ops o :
  run_ops tr (ops ++ [o]) = (tr' ← run_ops tr ops; run_op tr' o).
Proof.
  revert tr. induction ops as [|o' ops IH]; intros tr; cbn [app run_ops].
  - rsimpl. destruct (run_op tr o); reflexivity.
  - destruct (run_op tr o') as [tr1|e]; rsimpl; [apply IH | reflexivity].
Qed.

Lemma reachable_step capacity tr o tr' :
  reachable capacity tr -> in_range capacity o -> run_op tr o = Ok tr' ->
  reachable capacity tr'.
Proof.
  intros (tr0 & ops & Hinit & Hops & Hrun) Ho Hstep.
  exists tr0, (ops ++ [o]). split_and!; [assumption | |].
  - apply Forall_app. split; [assumption|]. repeat constructor. assumption.
  - rewrite run_ops_snoc, Hrun. exact Hstep.
Qed.

Lemma ready_call capacity b o :
  ready capacity b -> valid_call b o ->
  exists b', do_call b o = Ok b' /\ ready capacity b'.
Proof.
  intros (Hwf & Hms & Hpr & Hreach & Hmp) Hv.
  pose proof Hwf as (Hptr & _ & Hwft). destruct (Hwft Hpr) as [Hwt Hcap].
  destruct o as [bt | ind priority]; cbn [do_call valid_call] in *.
  - destruct Hv as [Hrows Hk].
    destruct (add_spec b bt _ Hwf Hrows ltac:(lia))
      as (b' & Hadd & _ & _ & _ & Hms' & Hpr' & Hmp' & _ & Htree & Hwf').
    rewrite Hpr in Htree.
    exists b'. split; [assumption|].
    split; [assumption|]. split; [congruence|]. split; [congruence|].
    split; [|lra].
    apply (reachable_step capacity (Buffer.tree b)
             (OpSet (Buffer.ptr b) (Buffer.max_priority b)));
      [assumption | simpl; lia | exact Htree].
  - destruct Hv as (Hind & Hlen & Hne).
    destruct (update_priority_wf b ind priority Hwf Hind Hlen Hne)
      as (b' & Hup & Hwf').
    exists b'. split; [assumption|].
    unfold Buffer.update_priority in Hup. rewrite Hpr in Hup.
    destruct priority as [|p ps]; [contradiction|].
    destruct (SumTree.batch_set (Buffer.tree b) ind (p :: ps)) as [tr'|e]
      eqn:Hset; [|discriminate].
    cbn [mbind result_bind] in Hup. inversion Hup; subst b'.
    unfold ready.
    cbn [Buffer.tree Buffer.max_priority Buffer.max_size Buffer.prioritized].
    split; [assumption|]. split; [assumption|]. split; [reflexivity|].
    split.
    + apply (reachable_step capacity (Buffer.tree b) (OpBatchSet ind (p :: ps)));
        [assumption | | exact Hset].
      split; [|assumption]. rewrite <- Hms. assumption.
    + pose proof (Rmax_r (Buffer.max_of p ps) (Buffer.max_priority b)). lra.
Qed.

Lemma init_ready state_dim batch_size capacity b0 :
  (1 <= capacity)%Z ->
  Buffer.init state_dim batch_size capacity true = Ok b0 ->
  ready capacity b0.
Proof.
  intros Hcap Hinit.
  destruct (init_wf_buffer state_dim batch_size capacity true Hcap)
    as (b & Hb & Hwf & Hms & _ & _ & Hpr & Hmp & _).
  rewrite Hinit in Hb. inversion Hb; subst b.
  assert (Htr : SumTree.init capacity = Ok (Buffer.tree b0)).
  { unfold Buffer.init in Hinit.
    destruct (capacity <? 0)%Z; [discriminate|].
    destruct (SumTree.init capacity) as [tr|e]; [|discriminate].
    cbn [mbind result_bind] in Hinit. inversion Hinit. reflexivity. }
  split; [assumption|]. split; [assumption|]. split; [assumption|].
  split; [|lra].
  exists (Buffer.tree b0), [].
  split_and!; [assumption | constructor | reflexivity].
Qed.

(** The levels of a tree built for the capacity. *)
Lemma reachable_shaped capacity tr :
  (1 <= capacity)%Z ->
  reachable capacity tr ->
  map length (SumTree.nodes tr) = level_sizes capacity.
Proof.
  intros Hcap (tr0 & ops & Hinit & Hops & Hrun).
  destruct (tree_init_shaped real capacity Hcap) as (t0 & Ht0 & Hs0).
  rewrite real_init, Hinit in Ht0. cbn [as_real_result] in Ht0.
  inversion Ht0; subst t0.
  destruct (tree_run_calls_shaped real capacity (map as_call ops) Hcap)
    with (tr := as_real tr0) as (t & Ht & Hs).
  { apply Forall_map. eapply Forall_impl; [exact Hops|].
    intros [i p | ix ps]; simpl; auto. }
  { assumption. }
  assert (Hback : map as_op (map as_call ops) = ops).
  { clear. induction ops as [|[i p | ix ps] ops IH]; simpl; congruence. }
  rewrite real_run_calls, Hback, Hrun in Ht. cbn [as_real_result] in Ht.
  inversion Ht; subst t. exact Hs.
Qed.

Lemma writes_keep_ready capacity (os : list buffer_op) :
  forall b,
    ready capacity b ->
    valid_calls b os ->
    exists b', do_calls b os = Ok b' /\ ready capacity b'.
Proof.
  induction os as [|o os IH]; intros b Hready Hvalid.
  - exists b. split; [reflexivity | exact Hready].
  - destruct Hvalid as [Hv Hnext].
    destruct (ready_call capacity b o Hready Hv) as (b1 & Hrun & Hready1).
    destruct (IH b1 Hready1 (Hnext b1 Hrun)) as (b2 & Hruns & Hready2).
    exists b2. cbn [do_calls]. rewrite Hrun. rsimpl.
    split; [assumption | exact Hready2].
Qed.

(** X15: The writes in the life of a prioritized buffer: from
    [Buffer(...)] on, any sequence of [add] calls with batches that fit
    and [update_priority] calls with slots of the buffer and one
    priority each runs without an exception, and leaves a buffer in shape: the write pointer inside
    the arrays, six arrays of [capacity] rows, a tree with the levels
    of [SumTree(capacity)], and [max_priority] at least its initial
    value 1. *)
Theorem writes_keep_shape (state_dim : nat) (batch_size capacity : Z)
    (b0 : Buffer.t) (os : list buffer_op) :
  (1 <= capacity)%Z ->
  Buffer.init state_dim batch_size capacity true = Ok b0 ->
  valid_calls b0 os ->
  exists b,
    do_calls b0 os = Ok b
    /\ in_shape capacity b.
Proof.
  intros Hcap Hinit Hvalid.
  pose proof (init_ready _ _ _ _ Hcap Hinit) as Hready.
  destruct (writes_keep_ready capacity os b0 Hready Hvalid)
    as (b & Hrun & Hwf & Hms & Hpr & Hreach & Hmp).
  exists b. split; [assumption|].
  destruct Hwf as (Hptr & Hcols & _).
  rewrite Hms in Hptr, Hcols.
  split; [assumption|]. split; [assumption|]. split; [assumption|].
  split; [assumption|]. split; [|assumption].
  apply reachable_shaped; assumption.
Qed.

Lemma writes_keep_shape_witness :
  exists b,
    do_calls fresh_buffer example_writes = Ok b
    /\ in_shape 2 b.
Proof.
  apply (writes_keep_shape 1 2 2 fresh_buffer example_writes).
  - lia.
  - reflexivity.
  - split; [split; [repeat split | simpl; lia]|].
    intros b1 H1. vm_compute in H1. inversion H1; subst b1. clear H1.
    split; [|intros; exact I].
    split_and!; [repeat constructor; simpl; lia | reflexivity
                 | discriminate].
Defined.

(** ** The search of [sample] in float64 *)

(** X28: In float64 the search of [sample] can end outside the buffer.
    After the calls [absorbing_calls] on [SumTree(3)], all with slots
    as indices, the draw 3.5, below the total of 4, is sent to leaf 3,
    a padding leaf of priority 0 and no slot of a buffer of capacity
    3. *)
Theorem sample_float64_padding :
  exists tr0 tr,
    Forall (call_in_range 3) absorbing_calls
    /\ Tree.init float64 3 = Ok tr0
    /\ Tree.run_calls tr0 absorbing_calls = Ok tr
    /\ Tree.total tr = Ok 4%float
    /\ Tree.sample tr [3.5%float] = Ok [3%Z]
    /\ Tree.leaf_priority tr 3 = Ok 0%float.
Proof.
  destruct absorbing_calls_run as (tr0 & Hinit & Hrun).
  exists tr0, absorbed_tree.
  split_and!; [repeat constructor; simpl; lia | assumption | assumption
               | reflexivity | vm_compute; reflexivity | reflexivity].
Qed.
